(** * giscanner/docwriter.py: the docstring markup engine

    A shallow embedding of the scanner ([TemplatedScanner],
    [DocstringScanner]) and of the markup transducer ([DocFormatter]) of
    giscanner/docwriter.py, and the properties of the specification checked
    against them.

    Conventions.
    - A Python 2 [str] is a [text], a list of characters; names of token
      kinds and of regular-expression groups are [string]s.
    - A Python [dict] with string keys is a [gmap]; iterating over it is a
      [map_fold], whose order is fixed but unspecified, as in Python 2.
    - A method that can raise returns an [outcome]: the value and the
      formatter state, or the exception and the state reached when it was
      raised.  Attributes of [self] that are assigned after [__init__] are
      the fields of [fstate]; the others are the fields of [formatter]. *)

From Stdlib Require Import Ascii String ZArith Lia.
From stdpp Require Import base option list gmap strings.

Open Scope Z_scope.
Open Scope list_scope.

(** ** Text *)

Abbreviation text := (list ascii).

Definition txt (s : string) : text := list_ascii_of_string s.

Definition LF : ascii := ascii_of_nat 10.

(** The double quote, and a text between double quotes. *)
Definition DQ : ascii := ascii_of_nat 34.

Definition quoted (s : text) : text := DQ :: s ++ [DQ].

Definition code (c : ascii) : N := N_of_ascii c.

Definition in_range (lo hi : ascii) (c : ascii) : bool :=
  ((code lo <=? code c) && (code c <=? code hi))%N.

Definition is_char (a : ascii) (c : ascii) : bool := (code a =? code c)%N.

(** [s.startswith(p)] and [s[n:]] on names. *)
Fixpoint startswith (s p : string) {struct p} : bool :=
  match p, s with
  | EmptyString, _ => true
  | String a p', String b s' => is_char a b && startswith s' p'
  | String _ _, EmptyString => false
  end.

Fixpoint str_drop (n : nat) (s : string) : string :=
  match n, s with
  | O, _ => s
  | S n', String _ s' => str_drop n' s'
  | S _, EmptyString => EmptyString
  end.

(** [text[i:j]] for [0 <= i], [0 <= j]. *)
Definition slice (i j : nat) (s : text) : text := take (j - i) (drop i s).

(** ** The subset of Python's [re] that the scanner uses

    Patterns are kept as syntax trees.  A repetition applies to a single
    character set, which is all the source ever writes ([\n+], [\s*], [.*],
    [[a-zA-Z0-9_]+], [#+]).  [PRef] is the placeholder [<<alias:child>>] of a
    spec before [unmangle_specs] has run. *)

(** A character set: the characters of some ranges, or all the others. *)
Record charset : Type := Charset {
  cs_negated : bool;
  cs_ranges : list (ascii * ascii)
}.

Definition cs_mem (cs : charset) (c : ascii) : bool :=
  xorb (cs_negated cs) (existsb (λ r, in_range r.1 r.2 c) (cs_ranges cs)).

Definition one (c : ascii) : charset := Charset false [(c, c)].

Inductive pattern : Type :=
| PEmpty
| PChar (cs : charset)
| PStar (cs : charset)
| PPlus (cs : charset)
| PCat (p q : pattern)
| PAlt (p q : pattern)
| PGroup (name : option string) (p : pattern)
| PRef (alias : option string) (child : string).

Fixpoint lit (s : text) : pattern :=
  match s with
  | [] => PEmpty
  | [c] => PChar (one c)
  | c :: s' => PCat (PChar (one c)) (lit s')
  end.

Fixpoint cat (ps : list pattern) : pattern :=
  match ps with
  | [] => PEmpty
  | [p] => p
  | p :: ps' => PCat p (cat ps')
  end.

(** [\s] without the UNICODE and LOCALE flags: [ \t\n\r\f\v]. *)
Definition ws : charset :=
  Charset false [(ascii_of_nat 9, ascii_of_nat 13); (" "%char, " "%char)].

(** [.] without DOTALL. *)
Definition dot : charset := Charset true [(LF, LF)].

(** The state of one matching attempt: the position in the text and what
    is left of it, the spans of the named groups closed so far (last closed
    first), and the name of the group closed last ([match.lastgroup], [None]
    when that group has no name or no group was closed). *)
Record mstate : Type := MState {
  m_pos : nat;
  m_rest : text;
  m_spans : list (string * (nat * nat));
  m_last : option string
}.

Definition advance (k : nat) (st : mstate) : mstate :=
  MState (m_pos st + k)%nat (drop k (m_rest st)) (m_spans st) (m_last st).

Definition close_group (name : option string) (start : nat) (st : mstate) : mstate :=
  MState (m_pos st) (m_rest st)
    (match name with
     | Some g => (g, (start, m_pos st)) :: m_spans st
     | None => m_spans st
     end)
    name.

(** Length of the longest prefix of [s] within [cs]. *)
Fixpoint span (cs : ascii -> bool) (s : text) : nat :=
  match s with
  | c :: s' => if cs c then S (span cs s') else O
  | [] => O
  end.

(** [countdown hi lo]: [hi; hi-1; ...; lo], the order in which a greedy
    repetition gives back characters. *)
Definition countdown (hi lo : nat) : list nat := reverse (seq lo (S hi - lo)).

(** All the ways [p] matches at [st], in the order a backtracking matcher
    tries them; the matcher takes the first that lets the rest succeed. *)
Fixpoint run (p : pattern) (st : mstate) : list mstate :=
  match p with
  | PEmpty => [st]
  | PChar cs =>
      match m_rest st with
      | c :: _ => if cs_mem cs c then [advance 1 st] else []
      | [] => []
      end
  | PStar cs => (λ k, advance k st) <$> countdown (span (cs_mem cs) (m_rest st)) 0
  | PPlus cs => (λ k, advance k st) <$> countdown (span (cs_mem cs) (m_rest st)) 1
  | PCat p q => run p st ≫= run q
  | PAlt p q => run p st ++ run q st
  | PGroup name p => close_group name (m_pos st) <$> run p st
  | PRef _ _ => []
  end.

(** A match object: [match.start()], [match.end()], the spans of the named
    groups that took part, and [match.lastgroup]. *)
Record match_obj : Type := Match {
  m_start : nat;
  m_end : nat;
  m_groups : list (string * (nat * nat));
  m_lastgroup : option string
}.

Fixpoint search_from (regex : pattern) (rest : text) (pos : nat) : option match_obj :=
  match head (run regex (MState pos rest [] None)) with
  | Some st => Some (Match pos (m_pos st) (m_spans st) (m_last st))
  | None =>
      match rest with
      | [] => None
      | _ :: rest' => search_from regex rest' (S pos)
      end
  end.

(** [regex.search(text, pos)] for [0 <= pos]. *)
Definition search (regex : pattern) (s : text) (pos : nat) : option match_obj :=
  search_from regex (drop pos s) (pos `min` length s).

(** The names of the groups of a pattern, in the order they open: the keys
    of [match.groupdict()]. *)
Fixpoint group_names (p : pattern) : list string :=
  match p with
  | PCat p q | PAlt p q => group_names p ++ group_names q
  | PGroup (Some g) p => g :: group_names p
  | PGroup None p => group_names p
  | _ => []
  end.

Definition group_value (s : text) (m : match_obj) (g : string) : option text :=
  match list_find (λ e, e.1 = g) (m_groups m) with
  | Some (_, (_, (i, j))) => Some (slice i j s)
  | None => None
  end.

(** [match.groupdict()]: every named group of the pattern, bound to what it
    matched or to [None] when it took no part in the match. *)
Definition groupdict (regex : pattern) (s : text) (m : match_obj) : gmap string (option text) :=
  list_to_map ((λ g, (g, group_value s m g)) <$> group_names regex).

(** ** Exceptions *)

Inductive exn : Type :=
| KeyError
| IndexError
| AttributeError
| TypeError
| UnboundLocalError
| RuntimeError    (* maximum recursion depth exceeded *)
| NoReturn.       (* not an exception: the call never returns *)

(** How a generator ends: it returns, it raises, or it never stops. *)
Inductive gen_end : Type :=
| Returns
| Raises (e : exn)
| Diverges.

(** ** TemplatedScanner *)

Definition spec_list := list (string * pattern).

(** [name.lstrip('!')] *)
Fixpoint lstrip_bang (name : string) : string :=
  match name with
  | String c name' => if is_char "!" c then lstrip_bang name' else name
  | EmptyString => name
  end.

Definition truthy (name : option string) : option string :=
  match name with
  | Some EmptyString => None
  | _ => name
  end.

(** [unmangle(spec, name)]: every placeholder is replaced by its child spec,
    itself unmangled with no name; it becomes the group [name_alias] when
    both the alias and the name are there.  The recursion of the source is
    on the chain of child specs: [fuel] bounds it, and a chain that is
    longer is cyclic. *)
Fixpoint unmangle (fuel : nat) (specdict : gmap string pattern)
    (spec : pattern) (name : option string) {struct fuel} : exn + pattern :=
  (fix go (spec : pattern) : exn + pattern :=
     match spec with
     | PCat p q =>
         match go p, go q with
         | inr p', inr q' => inr (PCat p' q')
         | inl e, _ | inr _, inl e => inl e
         end
     | PAlt p q =>
         match go p, go q with
         | inr p', inr q' => inr (PAlt p' q')
         | inl e, _ | inr _, inl e => inl e
         end
     | PGroup g p =>
         match go p with
         | inr p' => inr (PGroup g p')
         | inl e => inl e
         end
     | PRef alias child_spec_name =>
         match specdict !! child_spec_name with
         | None => inl KeyError
         | Some child_spec =>
             match fuel with
             | O => inl RuntimeError
             | S fuel' =>
                 match unmangle fuel' specdict child_spec None with
                 | inr unmangled =>
                     match truthy alias, truthy name with
                     | Some pattern_name, Some name =>
                         inr (PGroup (Some (name +:+ "_" +:+ pattern_name)) unmangled)
                     | _, _ => inr unmangled
                     end
                 | inl e => inl e
                 end
             end
         end
     | _ => inr spec
     end) spec.

Fixpoint unmangle_all (fuel : nat) (specdict : gmap string pattern)
    (specs : spec_list) : exn + spec_list :=
  match specs with
  | [] => inr []
  | (name, spec) :: specs' =>
      match unmangle fuel specdict spec (Some name) with
      | inr spec' =>
          match unmangle_all fuel specdict specs' with
          | inr rest => inr ((name, spec') :: rest)
          | inl e => inl e
          end
      | inl e => inl e
      end
  end.

Definition unmangle_specs (specs : spec_list) : exn + spec_list :=
  let specdict : gmap string pattern :=
    list_to_map (reverse ((λ ns, (lstrip_bang ns.1, ns.2)) <$> specs)) in
  unmangle_all (length specs) specdict specs.

Fixpoint alternation (ps : list pattern) : pattern :=
  match ps with
  | [] => PEmpty
  | [p] => p
  | p :: ps' => PAlt p (alternation ps')
  end.

(** The alternatives of the compiled pattern: the specs that are not
    private, each in the group named after it. *)
Definition alternatives (specs : spec_list) : list pattern :=
  (λ ns, PGroup (Some ns.1) ns.2) <$> filter (λ ns, startswith ns.1 "!" = false) specs.

(** [re.compile] refuses a pattern in which two groups have the same name;
    the spec lists meant here are those it accepts. *)
Definition make_regex (specs : spec_list) : pattern :=
  alternation (alternatives specs).

(** [get_properties(name, match)], on the dictionary of the match. *)
Definition get_properties (name : string) (groupdict : gmap string (option text))
    : exn + gmap string (option text) :=
  match groupdict !! name with
  | None => inl KeyError
  | Some v =>
      let groupdict := delete name groupdict in
      let properties : gmap string (option text) := {[ name := v ]} in
      let name := name +:+ "_" in
      inr (map_fold (λ group value properties,
                       if startswith group name
                       then <[ str_drop (String.length name) group := value ]> properties
                       else properties)
             properties groupdict)
  end.

Record token : Type := Token {
  tok_kind : string;
  tok_text : text;
  tok_props : option (gmap string (option text))
}.

(** [scan(text)], a generator: the tokens it yields and how it ends.  An
    iteration that matches moves [pos] to the end of the match; when the
    match is empty [pos] stays and the same match is found for ever, which
    is what running out of [fuel] stands for. *)
Fixpoint scan_loop (fuel : nat) (regex : pattern) (s : text) (pos : nat)
    : list token * gen_end :=
  match fuel with
  | O => ([], Diverges)
  | S fuel' =>
      match search regex s pos with
      | None =>
          (if decide (pos < length s)%nat
           then [Token "other" (drop pos s) None] else [], Returns)
      | Some m =>
          let start := m_start m in
          let gap := if decide (pos < start)%nat
                     then [Token "other" (slice pos start s) None] else [] in
          let pos := m_end m in
          match m_lastgroup m with
          | None => (gap, Raises KeyError)
          | Some name =>
              match get_properties name (groupdict regex s m) with
              | inl e => (gap, Raises e)
              | inr props =>
                  let (rest, fin) := scan_loop fuel' regex s pos in
                  (gap ++ Token name (slice (m_start m) (m_end m) s) (Some props) :: rest, fin)
              end
          end
      end
  end.

Definition scan (regex : pattern) (s : text) : list token * gen_end :=
  scan_loop (S (length s)) regex s 0.

(** ** DocstringScanner *)

Definition alnum_ : charset :=
  Charset false [("a", "z"); ("A", "Z"); ("0", "9"); ("_", "_")]%char.

Definition alnum_dash : charset :=
  Charset false [("a", "z"); ("A", "Z"); ("0", "9"); ("_", "_"); ("-", "-")]%char.

Definition docstring_specs : spec_list := [
  ("!alpha", PPlus alnum_);                      (* [a-zA-Z0-9_]+ *)
  ("!alpha_dash", PPlus alnum_dash);             (* [a-zA-Z0-9_-]+ *)
  ("!anything", PStar dot);                      (* .* *)
  ("note",                                       (* \n+\>\s*<<note_contents:anything>>\s*\n *)
     cat [PPlus (one LF); lit (txt ">"); PStar ws;
          PRef (Some "note_contents") "anything"; PStar ws; PChar (one LF)]);
  ("new_paragraph", lit [LF; LF]);               (* \n\n *)
  ("new_line", lit [LF]);                        (* \n *)
  ("code_start_with_language",
     (* \|\[\<!\-\-\s*language\s*\=\s*\"<<language_name:alpha>>\"\s*\-\-\> *)
     cat [lit (txt "|[<!--"); PStar ws; lit (txt "language"); PStar ws;
          lit (txt "="); PStar ws; PChar (one DQ);
          PRef (Some "language_name") "alpha";
          PChar (one DQ); PStar ws; lit (txt "-->")]);
  ("code_start", lit (txt "|["));                (* \|\[ *)
  ("code_end", lit (txt "]|"));                  (* \]\| *)
  ("property",                                   (* #<<type_name:alpha>>:(<<property_name:alpha_dash>>) *)
     cat [lit (txt "#"); PRef (Some "type_name") "alpha"; lit (txt ":");
          PGroup None (PRef (Some "property_name") "alpha_dash")]);
  ("signal",                                     (* #<<type_name:alpha>>::(<<signal_name:alpha_dash>>) *)
     cat [lit (txt "#"); PRef (Some "type_name") "alpha"; lit (txt "::");
          PGroup None (PRef (Some "signal_name") "alpha_dash")]);
  ("type_name",                                  (* #(<<type_name:alpha>>) *)
     cat [lit (txt "#"); PGroup None (PRef (Some "type_name") "alpha")]);
  ("enum_value",                                 (* %(<<member_name:alpha>>) *)
     cat [lit (txt "%"); PGroup None (PRef (Some "member_name") "alpha")]);
  ("parameter",                                  (* @<<param_name:alpha>> *)
     cat [lit (txt "@"); PRef (Some "param_name") "alpha"]);
  ("function_call",                              (* <<symbol_name:alpha>>\(\) *)
     cat [PRef (Some "symbol_name") "alpha"; lit (txt "()")]);
  ("include",                                    (* {{\s*<<include_name:anything>>\s*}} *)
     cat [lit (txt "{{"); PStar ws; PRef (Some "include_name") "anything";
          PStar ws; lit (txt "}}")]);
  ("heading",                                    (* #+\s+<<heading:anything>> *)
     cat [PPlus (one "#"); PPlus ws; PRef (Some "heading") "anything"])
].

Definition docstring_regex : pattern :=
  match unmangle_specs docstring_specs with
  | inr specs => make_regex specs
  | inl _ => PEmpty
  end.

(** ** String methods of Python that the formatter calls *)

Fixpoint starts_with (old s : text) {struct old} : bool :=
  match old, s with
  | [], _ => true
  | a :: old', b :: s' => is_char a b && starts_with old' s'
  | _ :: _, [] => false
  end.

Fixpoint replace_go (old new : text) (skip : nat) (s : text) : text :=
  match s with
  | [] => []
  | c :: s' =>
      match skip with
      | S k => replace_go old new k s'
      | O =>
          if starts_with old s
          then new ++ replace_go old new (length old - 1) s'
          else c :: replace_go old new 0 s'
      end
  end.

(** [s.replace(old, new)]: the occurrences of [old] that do not overlap,
    from the left. *)
Definition replace (old new s : text) : text :=
  match old with
  | [] => new ++ (s ≫= λ c, c :: new)
  | _ => replace_go old new 0 s
  end.

(** [xml.sax.saxutils.escape(text)] *)
Definition escape (s : text) : text :=
  let data := replace (txt "&") (txt "&amp;") s in
  let data := replace (txt ">") (txt "&gt;") data in
  let data := replace (txt "<") (txt "&lt;") data in
  data.

Fixpoint lstrip (cs : ascii -> bool) (s : text) : text :=
  match s with
  | c :: s' => if cs c then lstrip cs s' else s
  | [] => []
  end.

Definition rstrip (cs : ascii -> bool) (s : text) : text :=
  reverse (lstrip cs (reverse s)).

Definition strip (cs : ascii -> bool) (s : text) : text := rstrip cs (lstrip cs s).

Definition lower_char (c : ascii) : ascii :=
  if in_range "A" "Z" c then ascii_of_N (code c + 32) else c.

Definition upper_char (c : ascii) : ascii :=
  if in_range "a" "z" c then ascii_of_N (code c - 32) else c.

Definition lower (s : text) : text := lower_char <$> s.
Definition upper (s : text) : text := upper_char <$> s.

(** [re.split(pattern, s)] for a pattern that is one character of [cs]. *)
Fixpoint split_on (cs : ascii -> bool) (s : text) : list text :=
  match s with
  | [] => [[]]
  | c :: s' =>
      if cs c then [] :: split_on cs s'
      else match split_on cs s' with
           | w :: ws => (c :: w) :: ws
           | [] => [[c]]
           end
  end.

(** [s.split(sep, 1)[1]] *)
Fixpoint after_first (sep : ascii) (s : text) : exn + text :=
  match s with
  | [] => inl IndexError
  | c :: s' => if is_char sep c then inr s' else after_first sep s'
  end.

(** ** The language table *)

Definition language_mimes : gmap string text :=
  list_to_map (reverse [
    ("bash-script", txt "application/x-shellscript");
    ("shell", txt "application/x-shellscript");
    ("csharp", txt "text/x-csharp");
    ("css", txt "text/css");
    ("diff", txt "text/xpatch");
    ("html", txt "text/html");
    ("java", txt "text/x-java");
    ("javascript", txt "application/javascript");
    ("lisp", txt "text/x-scheme");
    ("lua", txt "text-x-lua");
    ("c", txt "text/x-csrc");
    ("c++", txt "text/x-c++src");
    ("pascal", txt "text/x-pascal");
    ("perl", txt "application/x-perl");
    ("php", txt "application/x-php");
    ("python", txt "text/x-python");
    ("ruby", txt "application/x-ruby");
    ("sql", txt "text/x-sql");
    ("yaml", txt "application/x-yaml")
  ]).

(** ** The nodes of the AST, as far as the formatter looks at them

    [giscanner/ast.py] is not part of the sources at hand: a node is the
    record of the attributes that [docwriter.py] reads, and its class is the
    one [isinstance] finds. *)

Inductive ast_class : Type :=
| Namespace | Class | Interface | Record_ | Enum | Bitfield | Callback | Alias
| Function | Property | Signal | VFunction | Field | Member | Constant.

Record namespace : Type := NS {
  ns_name : text;
  ns_version : text;
  exported_packages : list string
}.

Global Instance namespace_eq_dec : EqDecision namespace.
Proof. solve_decision. Defined.

Global Instance ast_class_eq_dec : EqDecision ast_class.
Proof. solve_decision. Defined.

(** The attribute [namespace] of a node: missing, [None], or a namespace. *)
Inductive ns_attr : Type :=
| NoAttr
| NoneNS
| SomeNS (ns : namespace).

Global Instance ns_attr_eq_dec : EqDecision ns_attr.
Proof. solve_decision. Defined.

#[local] Unset Elimination Schemes.
Inductive node : Type := Node {
  n_class : ast_class;
  n_name : text;
  n_namespace : ns_attr;
  n_parent : option node;               (* getattr(node, 'parent', None) *)
  n_chain_last : option node;           (* node._chain[-1] when _chain is set and not empty *)
  n_shadows : option text;
  n_properties : option (list node);    (* None: no such attribute *)
  n_signals : option (list node)
}.
#[local] Set Elimination Schemes.

Definition str_opt (o : option text) : text :=
  match o with
  | Some s => s
  | None => txt "None"
  end.

Definition nonempty (o : option text) : option text :=
  match o with
  | Some [] => None
  | _ => o
  end.

Definition namespace_name (n : ns_attr) : exn + text :=
  match n with
  | SomeNS ns => inr (ns_name ns)
  | _ => inl AttributeError
  end.

Definition dotted (sep : text) (a : exn + text) (b : text) : exn + text :=
  match a with
  | inr a => inr (a ++ sep ++ b)
  | inl e => inl e
  end.

Fixpoint make_page_id (recursive : bool) (n : node) : exn + text :=
  match n with
  | Node cls name ns parent chain_last shadows _ _ =>
      if decide (cls = Namespace) then
        if recursive then inr name else inr (txt "index")
      else
        let parent_id :=
          match chain_last with
          | Some p => Some (make_page_id true p)
          | None =>
              match parent with
              | Some p => Some (make_page_id true p)
              | None => None
              end
          end in
        match parent_id with
        | None =>
            match (if decide (cls = Function) then nonempty shadows else None) with
            | Some shadows => dotted (txt ".") (namespace_name ns) shadows
            | None => dotted (txt ".") (namespace_name ns) name
            end
        | Some parent_id =>
            if decide (cls ∈ [Property; Signal; VFunction; Field]) then
              dotted (txt "-") parent_id name
            else
              match (if decide (cls = Function) then nonempty shadows else None) with
              | Some shadows => dotted (txt ".") parent_id shadows
              | None => dotted (txt ".") parent_id name
              end
        end
  end.

(** ** What the formatter is given

    The transformer and the namespaces it knows ([giscanner/transformer.py],
    [giscanner/ast.py]) are only queried.  [split_ctype_namespaces] and
    [split_csymbol_namespaces] give [None] where the transformer raises
    [ValueError]. *)

Record transformer : Type := Transformer {
  tr_namespace : namespace;
  split_ctype_namespaces : text -> option (list (namespace * text));
  split_csymbol_namespaces : text -> option (list (namespace * text));
  ns_get : namespace -> text -> option node;
  ns_get_by_symbol : namespace -> text -> option node
}.

Record parameter : Type := Param {
  argname : text;
  is_varargs : bool
}.

(** One entry of [_reference_map]: the directory of the package, its online
    base, and its anchors. *)
Record reference : Type := Reference {
  ref_dir : text;
  ref_online : option text;
  ref_symbols : text -> option text
}.

Definition attrs := list (text * text).

(** What [open(path, 'r')] and reading the file give: the contents of the
    file, an [IOError], or another exception ([TypeError] for a path that
    holds a NUL byte). *)
Inductive opened : Type :=
| Contents (contents : text)
| NoFile                         (* open raises IOError *)
| OpenError (e : exn).           (* open raises something else *)

(** The attributes of [self] that [__init__] sets and nothing changes
    afterwards, the methods that the subclasses define, and the functions of
    other modules that the formatter calls. *)
Record formatter : Type := Formatter {
  online : bool;
  link_to_gtk_doc : bool;
  resolve_implicit_links : bool;
  _transformer : transformer;
  _include_directories : list text;
  _reference_map : gmap string reference;
  fundamentals : list (text * text);
  format_page_name : node -> text;
  format_parameter_name : node -> parameter -> text;
  (* node.get_parameter(name); None where it raises AttributeError or ValueError *)
  get_parameter : node -> text -> option parameter;
  (* docwriter.make_gtkdoc_id, a pure function of the node *)
  make_gtkdoc_id : node -> text;
  (* xmlwriter.build_xml_tag(tag_name, attributes, data) *)
  build_xml_tag : text -> attrs -> option text -> text;
  (* open(path, 'r') and f.read() *)
  read_file : text -> opened;
  (* os.path.join *)
  path_join : text -> text -> text;
  (* re.sub(r'\-[0-9]+\.[0-9]+$', '', package) *)
  strip_version : string -> string;
  (* the order in which a dict that holds these items is iterated over *)
  dict_order : list (text * text) -> list (text * text)
}.

(** ** The state of the formatter *)

Inductive section_event : Type :=
| SectionOpen      (* result += "<section>" *)
| SectionClose.    (* result += "</section>" *)

Global Instance section_event_eq_dec : EqDecision section_event.
Proof. solve_decision. Defined.

(** The attributes of [self] that change while documents are formatted, and
    two histories: the messages given to [message.warn], and the section
    tags emitted so far, in order. *)
Record fstate : Type := FState {
  _processing_code : bool;
  _opened_sections : Z;
  _warned_external_references : list text;
  warnings : list text;
  section_log : list section_event
}.

(** The state that [DocFormatter.__init__] leaves. *)
Definition init_state : fstate := FState false 0 [] [] [].

Inductive outcome (A : Type) : Type :=
| Ok (a : A) (st : fstate)
| Raise (e : exn) (st : fstate).
Arguments Ok {A} a st.
Arguments Raise {A} e st.

Definition M (A : Type) : Type := fstate -> outcome A.

Definition ret {A} (a : A) : M A := λ st, Ok a st.
Definition raise {A} (e : exn) : M A := λ st, Raise e st.
Definition bind {A B} (m : M A) (k : A -> M B) : M B :=
  λ st, match m st with
        | Ok a st' => k a st'
        | Raise e st' => Raise e st'
        end.

Notation "'let*' x ':=' m 'in' k" := (bind m (λ x, k))
  (at level 10, x name, m at level 100, k at level 200).
Notation "m ';;' k" := (bind m (λ _, k))
  (at level 100, k at level 200, right associativity).

Definition lift {A} (r : exn + A) : M A :=
  match r with
  | inr a => ret a
  | inl e => raise e
  end.

(** Reading an attribute of [self]. *)
Definition gets {A} (f : fstate -> A) : M A := λ st, Ok (f st) st.

Definition set_processing_code (b : bool) : M unit :=
  λ st, Ok () (FState b (_opened_sections st) (_warned_external_references st)
                 (warnings st) (section_log st)).

(** [self._opened_sections += d] together with the tag that the source
    appends to [result] in the same iteration. *)
Definition emit_section (ev : section_event) : M unit :=
  λ st, Ok () (FState (_processing_code st)
                 (match ev with
                  | SectionOpen => _opened_sections st + 1
                  | SectionClose => _opened_sections st - 1
                  end)
                 (_warned_external_references st) (warnings st)
                 (section_log st ++ [ev])).

(** [message.warn(msg)] *)
Definition warn (msg : text) : M unit :=
  λ st, Ok () (FState (_processing_code st) (_opened_sections st)
                 (_warned_external_references st) (warnings st ++ [msg])
                 (section_log st)).

Definition add_warned (name : text) : M unit :=
  λ st, Ok () (FState (_processing_code st) (_opened_sections st)
                 (_warned_external_references st ++ [name]) (warnings st)
                 (section_log st)).

Fixpoint mapM {A B} (f : A -> M B) (l : list A) : M (list B) :=
  match l with
  | [] => ret []
  | a :: l' => let* b := f a in let* bs := mapM f l' in ret (b :: bs)
  end.

Fixpoint find_map {A B} (f : A -> option B) (l : list A) : option B :=
  match l with
  | [] => None
  | a :: l' =>
      match f a with
      | Some b => Some b
      | None => find_map f l'
      end
  end.

Definition assoc (k : text) (l : list (text * text)) : option text :=
  find_map (λ kv, if decide (kv.1 = k) then Some kv.2 else None) l.

(** [d[k] = v] on the items of a dict. *)
Fixpoint dict_set (k v : text) (l : list (text * text)) : list (text * text) :=
  match l with
  | [] => [(k, v)]
  | (k', v') :: l' => if decide (k' = k) then (k, v) :: l' else (k', v') :: dict_set k v l'
  end.

(** ** DocFormatter *)

Section DocFormatter.

Context (self : formatter).

Definition with_namespace {A} (n : ns_attr) (k : namespace -> M A) : M A :=
  match n with
  | SomeNS ns => k ns
  | _ => raise AttributeError
  end.

(** [node.namespace is self._transformer.namespace]: two namespaces are the
    same object when their fields are the same. *)
Definition is_own_namespace (n : ns_attr) : bool :=
  match n with
  | SomeNS ns => bool_decide (ns = tr_namespace (_transformer self))
  | _ => false
  end.

(** *** Resolution *)

Definition _resolve_type (ident : text) : option node :=
  match split_ctype_namespaces (_transformer self) ident with
  | None => None
  | Some matches =>
      find_map (λ m, ns_get (_transformer self) m.1 m.2) matches
  end.

Definition _resolve_symbol (symbol : text) : exn + option node :=
  match split_csymbol_namespaces (_transformer self) symbol with
  | None => inr None
  | Some matches =>
      match find_map (λ m, ns_get_by_symbol (_transformer self) m.1 symbol) matches with
      | Some node => inr (Some node)
      | None =>
          match matches with
          | [] => inl UnboundLocalError
          | _ => inr (find_map (λ m, ns_get (_transformer self) m.1 m.2) matches)
          end
      end
  end.

(** [_find_thing(list_, name)]; [None] where it raises [KeyError]. *)
Definition _find_thing (list_ : list node) (name : text) : option node :=
  find_map (λ item, if decide (n_name item = name) then Some item else None) list_.

(** *** Cross-references *)

Definition format_internal_xref (node : node) (attrdict : attrs)
    (linkname : option text) (pluralize : bool) : M text :=
  let* page_id := lift (make_page_id false node) in
  let attrs := (txt "xref", page_id) :: attrdict in
  match nonempty linkname with
  | Some linkname => ret (build_xml_tag self (txt "link") attrs (Some linkname))
  | None =>
      if negb pluralize then ret (build_xml_tag self (txt "link") attrs None)
      else ret (build_xml_tag self (txt "link") attrs (Some (page_id ++ txt "s")))
  end.

Fixpoint _find_reference_in (packages : list string) : option reference * bool :=
  match packages with
  | [] => (None, false)
  | package :: packages' =>
      match _reference_map self !! package with
      | Some reference => (Some reference, true)
      | None =>
          match _reference_map self !! strip_version self package with
          | Some reference => (Some reference, false)
          | None => _find_reference_in packages'
          end
      end
  end.

Definition _find_reference (ns : namespace) : option reference * bool :=
  _find_reference_in (exported_packages ns).

Definition format_gtk_doc_attributes (node : node) (attrdict : attrs) : M attrs :=
  with_namespace (n_namespace node) (λ ns,
    let attrs := [(txt "href", txt "FIXME broken link to " ++ n_name node)] in
    let '(ref, exact) := _find_reference ns in
    let ref0 := nonempty (ref_dir <$> ref) in
    let ref1 := nonempty (ref ≫= ref_online) in
    let* warned :=
      gets (λ st, bool_decide (ns_name ns ∈ _warned_external_references st)) in
    (if bool_decide (ref0 = None) && negb warned then
       warn (txt "No reference found for " ++ ns_name ns ++ ns_version ns);;
       add_warned (ns_name ns)
     else if online self && bool_decide (ref1 = None) && negb warned then
       warn (txt "No online reference found for " ++ ns_name ns ++ ns_version ns);;
       add_warned (ns_name ns)
     else if negb exact && negb warned then
       warn (txt "Using an approximate match for reference "
             ++ ns_name ns ++ ns_version ns ++ txt ":" ++ str_opt (ref_dir <$> ref));;
       add_warned (ns_name ns)
     else ret ());;
    let* reference :=
      match ref, ref0 with
      | Some r, Some _ =>
          let gtk_doc_identifier := make_gtkdoc_id self node in
          let gtk_doc_identifier :=
            if bool_decide (n_class node ∈ [Constant; Member])
            then upper gtk_doc_identifier ++ txt ":CAPS" else gtk_doc_identifier in
          match ref_symbols r gtk_doc_identifier with
          | Some reference => let* reference := lift (after_first "/" reference) in ret (Some reference)
          | None => ret None
          end
      | _, _ => ret None
      end in
    match nonempty reference, ref with
    | Some reference, Some r =>
        if online self
        then ret [(txt "href", str_opt (ref_online r) ++ txt "/" ++ reference)]
        else ret [(txt "href", path_join self (ref_dir r) reference)]
    | _, _ => ret attrs
    end).

Definition format_external_xref (node : node) (attrdict : attrs)
    (linkname : option text) (pluralize : bool) : M text :=
  let* attrs :=
    if link_to_gtk_doc self then
      format_gtk_doc_attributes node attrdict
    else
      with_namespace (n_namespace node) (λ ns,
        let* page_id := lift (make_page_id false node) in
        ret [(txt "href", txt "../" ++ ns_name ns ++ txt "-" ++ ns_version ns
                          ++ txt "/" ++ page_id ++ txt ".html")]) in
  let attrs := attrs ++ attrdict in
  match nonempty linkname with
  | Some linkname => ret (build_xml_tag self (txt "link") attrs (Some linkname))
  | None =>
      if negb pluralize
      then ret (build_xml_tag self (txt "link") attrs (Some (format_page_name self node)))
      else ret (build_xml_tag self (txt "link") attrs
                  (Some (format_page_name self node ++ txt "s")))
  end.

(** [format_xref(node, pluralize, linkname, **attrdict)] for a [node] that is
    not [None]; the recursion is the one on [node.parent] for a member. *)
Fixpoint format_xref_node (n : node) (pluralize : bool) (linkname : option text)
    (attrdict : attrs) : M text :=
  match n with
  | Node cls name ns parent _ _ _ _ =>
      if bool_decide (ns = NoAttr) then
        ret (build_xml_tag self (txt "link") ((txt "xref", txt "index") :: attrdict) linkname)
      else if bool_decide (cls = Member)
              && (negb (link_to_gtk_doc self) || is_own_namespace ns) then
        let* parent_xref :=
          match parent with
          | Some p => format_xref_node p pluralize linkname attrdict
          | None =>
              ret (build_xml_tag self (txt "link") ((txt "xref", txt "index") :: attrdict) linkname)
          end in
        ret (parent_xref ++ txt "." ++ name)
      else if is_own_namespace ns then
        format_internal_xref n attrdict linkname pluralize
      else
        format_external_xref n attrdict linkname pluralize
  end.

Definition format_xref (n : option node) (pluralize : bool) (linkname : option text)
    (attrdict : attrs) : M text :=
  match n with
  | None =>
      ret (build_xml_tag self (txt "link") ((txt "xref", txt "index") :: attrdict) linkname)
  | Some n => format_xref_node n pluralize linkname attrdict
  end.

(** *** The handlers of the tokens *)

Definition properties := option (gmap string (option text)).

(** [props[key]], used as a [str]: [none] is what is raised when the group
    took no part in the match and the value is [None]. *)
Definition prop (props : properties) (key : string) (none : exn) : M text :=
  match props with
  | None => raise TypeError
  | Some d =>
      match d !! key with
      | None => raise KeyError
      | Some None => raise none
      | Some (Some v) => ret v
      end
  end.

Definition is_word_sep (c : ascii) : bool :=
  is_char " " c || is_char "(" c || is_char ")" c.

(** The first loop of [_resolve_implicit_links]. *)
Fixpoint collect_links (s : list text) (implicit_links : list (text * text))
    : M (list (text * text)) :=
  match s with
  | [] => ret implicit_links
  | word :: s' =>
      if bool_decide (word = []) then collect_links s' implicit_links
      else
        let type_ := _resolve_type word in
        let* symbol := lift (_resolve_symbol word) in
        match type_, symbol with
        | Some type_, _ =>
            let* xref := format_xref (Some type_) false (Some word) [] in
            collect_links s' (dict_set word xref implicit_links)
        | None, Some symbol =>
            let* xref := format_xref (Some symbol) false (Some word) [] in
            collect_links s' (dict_set word xref implicit_links)
        | None, None => collect_links s' implicit_links
        end
  end.

Definition _resolve_implicit_links (match_ : text) : M text :=
  let match_ := escape match_ in
  if negb (resolve_implicit_links self) then ret match_
  else
    let s := split_on is_word_sep match_ in
    let* implicit_links := collect_links s [] in
    ret (foldl (λ match_ wx, replace wx.1 wx.2 match_) match_
           (dict_order self implicit_links)).

Definition handler := node -> text -> properties -> M text.

Definition _process_other : handler := λ node match_ props,
  _resolve_implicit_links match_.

(** [props[key]] inside a [try] that catches [KeyError]: [None] when the key
    is missing, or bound to a [None] that no name equals. *)
Definition prop_caught (props : properties) (key : string) : option text :=
  match props ≫= (.!! key) with
  | Some (Some v) => Some v
  | _ => None
  end.

Definition _process_property : handler := λ node match_ props,
  let* type_name := prop props "type_name" TypeError in
  match _resolve_type type_name with
  | None => ret match_
  | Some type_node =>
      match prop_caught props "property_name" with
      | None => ret match_
      | Some property_name =>
          match n_properties type_node ≫= λ l, _find_thing l property_name with
          | None => ret match_
          | Some prop_ => format_xref (Some prop_) false (Some property_name) []
          end
      end
  end.

Definition _process_signal : handler := λ node match_ props,
  let* type_name := prop props "type_name" TypeError in
  match _resolve_type type_name with
  | None => ret match_
  | Some type_node =>
      match prop_caught props "signal_name" with
      | None => ret match_
      | Some signal_name =>
          match n_signals type_node ≫= λ l, _find_thing l signal_name with
          | None => ret match_
          | Some signal => format_xref (Some signal) false None []
          end
      end
  end.

Definition _process_type_name : handler := λ node match_ props,
  let* ident := prop props "type_name" TypeError in
  match _resolve_type ident with
  | Some type_ => format_xref (Some type_) false None []
  | None =>
      let singularized := rstrip (is_char "s") ident in
      match _resolve_type singularized with
      | None => ret match_
      | Some type_ => format_xref (Some type_) true None []
      end
  end.

Definition _process_enum_value : handler := λ node match_ props,
  let* member_name := prop props "member_name" TypeError in
  match assoc member_name (fundamentals self) with
  | Some v => ret (txt "<code>" ++ v ++ txt "</code>")
  | None =>
      let* enum_value := lift (_resolve_symbol member_name) in
      match enum_value with
      | Some enum_value => format_xref (Some enum_value) false None []
      | None => ret match_
      end
  end.

Definition _process_parameter : handler := λ node match_ props,
  let* param_name := prop props "param_name" TypeError in
  match get_parameter self node param_name with
  | None => ret match_
  | Some parameter =>
      ret (txt "<code>" ++ format_parameter_name self node parameter ++ txt "</code>")
  end.

Definition _process_function_call : handler := λ node match_ props,
  let* symbol_name := prop props "symbol_name" TypeError in
  let* func := lift (_resolve_symbol symbol_name) in
  match func with
  | None => ret match_
  | Some func => format_xref (Some func) false None []
  end.

Definition _process_code_start : handler := λ node match_ props,
  set_processing_code true;;
  ret (txt "</p><code>").

Definition _process_code_start_with_language : handler := λ node match_ props,
  let* language_name := prop props "language_name" AttributeError in
  match language_mimes !! string_of_list_ascii (lower language_name) with
  | None => raise KeyError
  | Some mime =>
      set_processing_code true;;
      if bool_decide (mime = []) then ret (txt "</p><code>")
      else ret (txt "</p><code mime=" ++ quoted mime ++ txt ">")
  end.

Definition _process_code_end : handler := λ node match_ props,
  set_processing_code false;;
  ret (txt "</code><p>").

Definition _process_new_line : handler := λ node match_ props,
  ret [LF].

Definition _process_new_paragraph : handler := λ node match_ props,
  let* processing_code := gets _processing_code in
  if processing_code then ret [LF; LF]
  else ret (txt "</p><p>").

Definition _process_include (format_inline : node -> text -> M text) : handler :=
  λ node match_ props,
  let* include_name := prop props "include_name" AttributeError in
  let filename := strip (cs_mem ws) include_name in
  (* the first [open] is under [except IOError], those of the loop under a
     bare [except] *)
  let* f :=
    match read_file self filename with
    | Contents contents => ret (Some contents)
    | NoFile =>
        ret (find_map (λ dir_,
                         match read_file self (path_join self dir_ filename) with
                         | Contents contents => Some contents
                         | _ => None
                         end)
               (_include_directories self))
    | OpenError e => raise e
    end in
  match f with
  | Some contents =>
      let* processing_code := gets _processing_code in
      if processing_code then _resolve_implicit_links contents
      else format_inline node contents
  | None =>
      warn (txt "Could not find file " ++ include_name);;
      ret match_
  end.

Definition _process_note : handler := λ node match_ props,
  let* processing_code := gets _processing_code in
  if processing_code then ret match_
  else
    let* note_contents := prop props "note_contents" TypeError in
    ret (txt "</p><note><p>" ++ note_contents ++ txt "</p></note><p>").

Definition section_tag (ev : section_event) : text :=
  match ev with
  | SectionOpen => txt "<section>"
  | SectionClose => txt "</section>"
  end.

(** [while cond(self._opened_sections): result += tag;
    self._opened_sections += d], for at most [n] iterations. *)
Fixpoint section_loop (n : nat) (cond : Z -> bool) (ev : section_event)
    (result : text) : M text :=
  match n with
  | O => ret result
  | S n' =>
      let* opened := gets _opened_sections in
      if cond opened
      then emit_section ev;; section_loop n' cond ev (result ++ section_tag ev)
      else ret result
  end.

(** The three loops on [_opened_sections]; each is given the number of
    iterations after which its condition fails. *)
Definition close_down_to (header_level : Z) (result : text) : M text :=
  let* opened := gets _opened_sections in
  section_loop (Z.to_nat (opened - header_level + 1))
    (λ opened, header_level <=? opened) SectionClose result.

Definition open_up_to (header_level : Z) (result : text) : M text :=
  let* opened := gets _opened_sections in
  section_loop (Z.to_nat (header_level - opened))
    (λ opened, opened <? header_level) SectionOpen result.

Definition close_all (result : text) : M text :=
  let* opened := gets _opened_sections in
  section_loop (Z.to_nat opened) (λ opened, 0 <? opened)
    SectionClose result.

(** [header_level = 0; while match[header_level] == "#": header_level += 1] *)
Fixpoint count_hashes (match_ : text) : exn + nat :=
  match match_ with
  | [] => inl IndexError
  | c :: match' =>
      if is_char "#" c then
        match count_hashes match' with
        | inr n => inr (S n)
        | inl e => inl e
        end
      else inr O
  end.

Definition _process_heading : handler := λ node match_ props,
  let* processing_code := gets _processing_code in
  if processing_code then ret match_
  else
    let result := [] in
    let match_ := strip (is_char LF) match_ in
    let* header_level := lift (count_hashes match_) in
    let header_level := Z.of_nat header_level in
    let result := result ++ txt "</p>" in
    let* result := close_down_to header_level result in
    let* result := open_up_to header_level result in
    let* heading := prop props "heading" TypeError in
    ret (result ++ txt "<title>" ++ heading ++ txt "</title><p>").

Definition dispatch (format_inline : node -> text -> M text) : list (string * handler) := [
  ("other", _process_other);
  ("property", _process_property);
  ("signal", _process_signal);
  ("type_name", _process_type_name);
  ("enum_value", _process_enum_value);
  ("parameter", _process_parameter);
  ("function_call", _process_function_call);
  ("code_start", _process_code_start);
  ("code_start_with_language", _process_code_start_with_language);
  ("code_end", _process_code_end);
  ("new_line", _process_new_line);
  ("new_paragraph", _process_new_paragraph);
  ("include", _process_include format_inline);
  ("note", _process_note);
  ("heading", _process_heading)
].

Definition _process_token (format_inline : node -> text -> M text) (node : node)
    (tok : token) : M text :=
  match find_map (λ kh, if decide (kh.1 = tok_kind tok) then Some kh.2 else None)
          (dispatch format_inline) with
  | Some process => process node (tok_text tok) (tok_props tok)
  | None => raise KeyError
  end.

(** [format_inline(node, para)].  [depth] is how deep the calls may still
    nest, one level for each included file that is formatted in turn: Python
    raises [RuntimeError] when the nesting passes its recursion limit. *)
Fixpoint format_inline (depth : nat) (node : node) (para : text) : M text :=
  match depth with
  | O => raise RuntimeError
  | S depth' =>
      let '(tokens, fin) := scan docstring_regex para in
      let* words := mapM (_process_token (format_inline depth') node) tokens in
      match fin with
      | Returns => ret (concat words)
      | Raises e => raise e
      | Diverges => raise NoReturn
      end
  end.

Definition format (depth : nat) (node : node) (doc : option text) : M text :=
  match doc with
  | None => ret []
  | Some doc =>
      let result := [] in
      let* processing_code := gets _processing_code in
      let result := if negb processing_code then result ++ txt "<p>" else result in
      let* inline := format_inline depth node doc in
      let result := result ++ inline in
      let result := if negb processing_code then result ++ txt "</p>" else result in
      close_all result
  end.

End DocFormatter.

(** ** Notions used to state the properties *)

(** The least number of characters a match of [p] consumes. *)
Fixpoint min_len (p : pattern) : nat :=
  match p with
  | PEmpty | PStar _ | PRef _ _ => 0
  | PChar _ | PPlus _ => 1
  | PCat p q => min_len p + min_len q
  | PAlt p q => min_len p `min` min_len q
  | PGroup _ p => min_len p
  end.


(** Every match of a scannable pattern is not empty and closes a named
    group of the pattern last. *)
Definition scannable (regex : pattern) : Prop :=
  (1 ≤ min_len regex)%nat ∧
  ∀ st st', st' ∈ run regex st → ∃ name, m_last st' = Some name ∧ name ∈ group_names regex.


(** The specs of [DocstringScanner] after [unmangle_specs]. *)
Definition docstring_compiled : spec_list :=
  match unmangle_specs docstring_specs with
  | inr specs => specs
  | inl _ => []
  end.


(** C5 as the specification words it: the properties are
    exactly the groups of the winning alternative that took part in the
    match, under their names without the prefix. *)
Definition C5_as_specified (specs : spec_list) (s : text) : Prop :=
  ∀ tok props key,
    tok ∈ (scan (make_regex specs) s).1 →
    tok_props tok = Some props →
    (is_Some (props !! key) ↔
     ∃ spec v, (tok_kind tok, spec) ∈ specs ∧
               (tok_kind tok +:+ "_") +:+ key ∈ group_names spec ∧
               props !! key = Some (Some v)).


(** The characters that [escape] rewrites. *)
Definition structural (c : ascii) : bool :=
  is_char "<" c || is_char ">" c || is_char "&" c.

(** What [escape] writes for one character. *)
Definition escape_char (c : ascii) : text :=
  if is_char "&" c then txt "&amp;"
  else if is_char ">" c then txt "&gt;"
  else if is_char "<" c then txt "&lt;"
  else [c].

(** ** Sections *)

(** What a call gives to its caller: the value it returns or the exception
    it raises. *)
Definition result_of {A} (o : outcome A) : exn + A :=
  match o with
  | Ok a _ => inr a
  | Raise e _ => inl e
  end.

(** The state that a call leaves, whether it returns or raises. *)
Definition final {A} (o : outcome A) : fstate :=
  match o with
  | Ok _ st | Raise _ st => st
  end.

Definition opens (log : list section_event) : nat :=
  length (filter (λ ev, ev = SectionOpen) log).

Definition closes (log : list section_event) : nat :=
  length (filter (λ ev, ev = SectionClose) log).

(** The depth that a history of section tags leaves. *)
Definition depth_of (log : list section_event) : Z :=
  Z.of_nat (opens log) - Z.of_nat (closes log).

(** What holds of the sections while a document is formatted, from a state
    where the history was [base] and the counter [d0]: the history has grown
    by some tags [evs], the counter is [d0] moved by them, and it was never
    negative on the way. *)
Definition sections_inv (base : list section_event) (d0 : Z) (st : fstate) : Prop :=
  ∃ evs, section_log st = base ++ evs ∧
         _opened_sections st = d0 + depth_of evs ∧
         ∀ k, 0 ≤ d0 + depth_of (take k evs).

Definition keeps {A} (m : M A) : Prop :=
  ∀ base d0 st, sections_inv base d0 st → sections_inv base d0 (final (m st)).


(** The state after [k] more section tags [ev]. *)
Definition shift (ev : section_event) (k : nat) (st : fstate) : fstate :=
  FState (_processing_code st)
    (match ev with
     | SectionOpen => _opened_sections st + Z.of_nat k
     | SectionClose => _opened_sections st - Z.of_nat k
     end)
    (_warned_external_references st) (warnings st)
    (section_log st ++ replicate k ev).

(** ** A small world to evaluate the formatter in

    One namespace, [Gtk], with the type [Widget] and the function
    [gtk_widget_show]; identifiers are split on the prefix [Gtk] and symbols
    on the prefix [gtk_], and what has neither prefix makes the transformer
    raise [ValueError].  No file can be read.  [sample_build_xml_tag] writes
    a tag the plain way. *)

Definition sample_build_xml_tag (tag_name : text) (attributes : attrs)
    (data : option text) : text :=
  txt "<" ++ tag_name
  ++ (attributes ≫= λ kv, txt " " ++ kv.1 ++ txt "=" ++ quoted kv.2)
  ++ match data with
     | Some data => txt ">" ++ escape data ++ txt "</" ++ tag_name ++ txt ">"
     | None => txt "/>"
     end.

(** The link that [sample_build_xml_tag] writes to a page. *)
Definition sample_link (page_id data : text) : text :=
  txt "<link xref=" ++ quoted page_id ++ txt ">" ++ data ++ txt "</link>".

Definition gtk : namespace := NS (txt "Gtk") (txt "3.0") ["gtk+-3.0"].

Definition widget : node :=
  Node Class (txt "Widget") (SomeNS gtk) None None None (Some []) (Some []).

Definition widget_show : node :=
  Node Function (txt "show") (SomeNS gtk) (Some widget) None None None None.

Definition split_prefix (prefix : text) (ident : text) : option (list (namespace * text)) :=
  if starts_with prefix ident then Some [(gtk, drop (length prefix) ident)] else None.

Definition sample_transformer : transformer :=
  Transformer gtk
    (split_prefix (txt "Gtk"))
    (split_prefix (txt "gtk_"))
    (λ ns name, if decide (name = txt "Widget") then Some widget else None)
    (λ ns symbol, if decide (symbol = txt "gtk_widget_show") then Some widget_show else None).

Definition sample_formatter (implicit_links : bool) : formatter :=
  Formatter false false implicit_links sample_transformer [] ∅
    [(txt "TRUE", txt "TRUE"); (txt "FALSE", txt "FALSE"); (txt "NULL", txt "NULL")]
    (λ n, n_name n) (λ n p, argname p) (λ n name, None) (λ n, n_name n)
    sample_build_xml_tag (λ path, NoFile) (λ a b, a ++ txt "/" ++ b) (λ s, s) (λ l, l).

(** A wider world: the namespace [Gtk] has the types [Widget] and
    [WidgetClass], and the type [Window] is of another namespace, [Gdk].
    [order] is the order in which a dict is iterated over. *)
Definition widget_class : node :=
  Node Record_ (txt "WidgetClass") (SomeNS gtk) None None None None None.

Definition gdk : namespace := NS (txt "Gdk") (txt "3.0") ["gdk-3.0"].

Definition window : node :=
  Node Class (txt "Window") (SomeNS gdk) None None None (Some []) (Some []).

Definition wide_transformer : transformer :=
  Transformer gtk
    (λ ident,
       if starts_with (txt "Gtk") ident then Some [(gtk, drop 3 ident)]
       else if starts_with (txt "Gdk") ident then Some [(gdk, drop 3 ident)]
       else None)
    (split_prefix (txt "gtk_"))
    (λ ns name,
       if decide (ns = gtk ∧ name = txt "Widget") then Some widget
       else if decide (ns = gtk ∧ name = txt "WidgetClass") then Some widget_class
       else if decide (ns = gdk ∧ name = txt "Window") then Some window
       else None)
    (λ ns symbol, None).

Definition wide_formatter (implicit_links : bool)
    (order : list (text * text) → list (text * text)) : formatter :=
  Formatter false false implicit_links wide_transformer [] ∅ []
    (λ n, n_name n) (λ n p, argname p) (λ n name, None) (λ n, n_name n)
    sample_build_xml_tag (λ path, NoFile) (λ a b, a ++ txt "/" ++ b) (λ s, s) order.

(** C4 as the specification words it: when the identifier is
    not a type, exactly one trailing [s] is taken off and the rest is tried. *)
Definition strip_one_s (ident : text) : text :=
  match reverse ident with
  | c :: r => if is_char "s" c then reverse r else ident
  | [] => ident
  end.

Definition _process_type_name_as_specified (self : formatter) : handler :=
  λ node match_ props,
  let* ident := prop props "type_name" TypeError in
  match _resolve_type self ident with
  | Some type_ => format_xref self (Some type_) false None []
  | None =>
      match _resolve_type self (strip_one_s ident) with
      | None => ret match_
      | Some type_ => format_xref self (Some type_) true None []
      end
  end.

Definition C4_as_specified (self : formatter) : Prop :=
  ∀ node match_ props st,
    result_of (_process_type_name self node match_ props st)
    = result_of (_process_type_name_as_specified self node match_ props st).

(** A node of the namespace being documented that is not an enum member:
    [format_xref] gives it an internal link. *)
Definition internal (self : formatter) (n : node) : Prop :=
  n_namespace n = SomeNS (tr_namespace (_transformer self)) ∧ n_class n ≠ Member.

(** A node of another namespace, or without one, that [format_xref] gives
    an external link: an enum member is one only when the links go to
    gtk-doc. *)
Definition external (self : formatter) (n : node) : Prop :=
  n_namespace n ≠ NoAttr ∧ is_own_namespace self (n_namespace n) = false
  ∧ (n_class n = Member → link_to_gtk_doc self = true).

(** An enum member that [format_xref] links through its parent. *)
Definition via_parent (self : formatter) (n : node) : Prop :=
  n_namespace n ≠ NoAttr ∧ n_class n = Member
  ∧ (link_to_gtk_doc self = false ∨ is_own_namespace self (n_namespace n) = true).

(** The attributes that [format_external_xref] computes for the link to a
    node, before it adds [attrdict]: its first statement. *)
Definition external_attributes (self : formatter) (node : node) : M attrs :=
  if link_to_gtk_doc self then
    format_gtk_doc_attributes self node []
  else
    with_namespace (n_namespace node) (λ ns,
      let* page_id := lift (make_page_id false node) in
      ret [(txt "href", txt "../" ++ ns_name ns ++ txt "-" ++ ns_version ns
                        ++ txt "/" ++ page_id ++ txt ".html")]).

(** C6 as the specification words it: each word is looked up
    on its own and replaced at its own place, and the words and what
    separates them are put together again. *)
Definition link_word (self : formatter) (word : text) : M text :=
  if bool_decide (word = []) then ret word
  else
    let type_ := _resolve_type self word in
    let* symbol := lift (_resolve_symbol self word) in
    match type_, symbol with
    | Some type_, _ => format_xref self (Some type_) false (Some word) []
    | None, Some symbol => format_xref self (Some symbol) false (Some word) []
    | None, None => ret word
    end.

Fixpoint interleave (words : list text) (seps : list ascii) : text :=
  match words, seps with
  | word :: words', c :: seps' => word ++ c :: interleave words' seps'
  | word :: _, [] => word
  | [], _ => []
  end.

Definition _resolve_implicit_links_as_specified (self : formatter) (match_ : text) : M text :=
  let match_ := escape match_ in
  if negb (resolve_implicit_links self) then ret match_
  else
    let* words := mapM (link_word self) (split_on is_word_sep match_) in
    ret (interleave words (filter (λ c, is_word_sep c = true) match_)).

(** What a word resolves to: the type when there is one, else the symbol. *)
Definition resolve_word (self : formatter) (word : text) : exn + option node :=
  match _resolve_symbol self word with
  | inl e => inl e
  | inr symbol =>
      inr (match _resolve_type self word with
           | Some type_ => Some type_
           | None => symbol
           end)
  end.

(** C2 as the specification words it: the sections left open
    are closed before the last paragraph is. *)
Definition C2_as_specified (self : formatter) : Prop :=
  ∀ depth node doc st out st' inline st1,
    _processing_code st = false →
    format self depth node (Some doc) st = Ok out st' →
    format_inline self depth node doc st = Ok inline st1 →
    out = txt "<p>" ++ inline
          ++ concat (replicate (Z.to_nat (_opened_sections st1)) (txt "</section>"))
          ++ txt "</p>".


(** ** One document after another *)

(** Two states in which a document is formatted alike: the same
    [_processing_code] and the same [_opened_sections]; what has been warned
    about and the histories may differ. *)
Definition same_mode (st1 st2 : fstate) : Prop :=
  _processing_code st1 = _processing_code st2 ∧
  _opened_sections st1 = _opened_sections st2.

(** Two calls that end alike: the same value returned or the same exception
    raised, in states that are alike. *)
Definition same_outcome {A} (o1 o2 : outcome A) : Prop :=
  match o1, o2 with
  | Ok a1 st1, Ok a2 st2 => a1 = a2 ∧ same_mode st1 st2
  | Raise e1 st1, Raise e2 st2 => e1 = e2 ∧ same_mode st1 st2
  | _, _ => False
  end.

Definition related {A} (m1 m2 : M A) : Prop :=
  ∀ st1 st2, same_mode st1 st2 → same_outcome (m1 st1) (m2 st2).

(** A computation that only warns. *)
Definition quiet (m : M unit) : Prop :=
  ∀ st, ∃ st', m st = Ok () st' ∧ same_mode st st'.

(** C8 as the specification words it: what [format] gives for
    a document is the same after any other document as in a formatter just
    made. *)
Definition C8_as_specified (self : formatter) : Prop :=
  ∀ depth nodeA docA outA stA nodeB docB,
    format self depth nodeA (Some docA) init_state = Ok outA stA →
    result_of (format self depth nodeB (Some docB) stA)
    = result_of (format self depth nodeB (Some docB) init_state).

(** ** Notions used by the further properties *)

(** Whether a placeholder is left in a pattern, and the specs that the
    placeholders of a pattern name. *)
Fixpoint has_ref (p : pattern) : bool :=
  match p with
  | PRef _ _ => true
  | PCat p q | PAlt p q => has_ref p || has_ref q
  | PGroup _ p => has_ref p
  | _ => false
  end.

Fixpoint refs (p : pattern) : list string :=
  match p with
  | PRef _ child => [child]
  | PCat p q | PAlt p q => refs p ++ refs q
  | PGroup _ p => refs p
  | _ => []
  end.

(** The named groups that take part in every match of a pattern: those
    that are not under an alternative. *)
Fixpoint mandatory_groups (p : pattern) : list string :=
  match p with
  | PCat p q => mandatory_groups p ++ mandatory_groups q
  | PGroup (Some g) p => g :: mandatory_groups p
  | PGroup None p => mandatory_groups p
  | _ => []
  end.

(** The properties that the handler of each kind of token reads with
    [props[...]], as the bodies of the [_process_*] methods have them. *)
Definition handler_reads (kind : string) : list string :=
  if decide (kind = "property") then ["type_name"; "property_name"]
  else if decide (kind = "signal") then ["type_name"; "signal_name"]
  else if decide (kind = "type_name") then ["type_name"]
  else if decide (kind = "enum_value") then ["member_name"]
  else if decide (kind = "parameter") then ["param_name"]
  else if decide (kind = "function_call") then ["symbol_name"]
  else if decide (kind = "code_start_with_language") then ["language_name"]
  else if decide (kind = "include") then ["include_name"]
  else if decide (kind = "note") then ["note_contents"]
  else if decide (kind = "heading") then ["heading"]
  else [].

Definition reads_ok (regex : pattern) (ns : string * pattern) : bool :=
  forallb (λ key,
             bool_decide ((ns.1 +:+ "_") +:+ key ∈ mandatory_groups ns.2)
             && bool_decide ((ns.1 +:+ "_") +:+ key ∈ group_names regex))
          (handler_reads ns.1).


(** A computation that raises nothing but exceptions that [P] holds of. *)
Definition raises_within (P : exn → Prop) {A} (m : M A) : Prop :=
  ∀ st e st', m st = Raise e st' → P e.


(** The characters one of which every markup of a docstring holds: a text
    without them is plain. *)
Definition markup_chars : list ascii := [LF; "|"; "#"; "%"; "@"; "("; "{"]%char.

Definition is_markup (c : ascii) : bool := existsb (λ a, is_char a c) markup_chars.

(** A character set of markup characters only, and a pattern every match
    of which consumes one. *)
Definition cs_markup (cs : charset) : bool :=
  negb (cs_negated cs)
  && forallb (λ r, is_char r.1 r.2 && is_markup r.1) (cs_ranges cs).

Fixpoint needs_markup (p : pattern) : bool :=
  match p with
  | PChar cs | PPlus cs => cs_markup cs
  | PCat p q => needs_markup p || needs_markup q
  | PAlt p q => needs_markup p && needs_markup q
  | PGroup _ p => needs_markup p
  | _ => false
  end.

(** A computation every run of which takes a state to one that [R] relates
    to it. *)
Definition steps (R : relation fstate) {A} (m : M A) : Prop :=
  ∀ st, R st (final (m st)).

(** What a code block that is open keeps: it stays open, and no section is
    opened or closed. *)
Definition stays_in_code (st st' : fstate) : Prop :=
  _processing_code st = true →
  _processing_code st' = true ∧ _opened_sections st' = _opened_sections st
  ∧ section_log st' = section_log st.

(** The node that the chain of parents of a node ends at: the namespace it
    reaches, or the node that has no parent. *)
Fixpoint top (n : node) : node :=
  match n with
  | Node cls _ _ parent chain_last _ _ _ =>
      if decide (cls = Namespace) then n
      else
        match chain_last with
        | Some p => top p
        | None =>
            match parent with
            | Some p => top p
            | None => n
            end
        end
  end.

(** The name that qualifies the page ids under [top n]. *)
Definition top_name (n : node) : exn + text :=
  if decide (n_class (top n) = Namespace) then inr (n_name (top n))
  else namespace_name (n_namespace (top n)).

(** No name is recorded twice in [_warned_external_references]. *)
Definition records_once (st st' : fstate) : Prop :=
  NoDup (_warned_external_references st) → NoDup (_warned_external_references st').

(** The aliases of the placeholders of a pattern that have one. *)
Fixpoint aliases (p : pattern) : list string :=
  match p with
  | PRef alias _ =>
      match truthy alias with
      | Some pattern_name => [pattern_name]
      | None => []
      end
  | PCat p q | PAlt p q => aliases p ++ aliases q
  | PGroup _ p => aliases p
  | _ => []
  end.

(** The groups that [unmangle] makes of the placeholders of a spec called
    [name]. *)
Definition placeholder_groups (name : option string) (spec : pattern) : list string :=
  match truthy name with
  | Some name => (λ pattern_name, name +:+ "_" +:+ pattern_name) <$> aliases spec
  | None => []
  end.

(** ** Functions of the formatter that take no part in [format] *)

(** [_parse_sgml_index], on the lines of [index.sgml]: the online reference
    and the items of [symbol_map], in the order of their first insertion.
    [l.split(DQ)[i]] raises [IndexError] when the line has fewer than [i]
    double quotes; in [symbol_map[split_line[1]] = split_line[3]] the right
    side is evaluated first. *)
Fixpoint _parse_sgml_index_loop (lines : list text) (online_reference : option text)
    (symbol_map : list (text * text)) : exn + (option text * list (text * text)) :=
  match lines with
  | [] => inr (online_reference, symbol_map)
  | l :: lines' =>
      if starts_with (txt "<ONLINE") l then
        match split_on (is_char DQ) l !! 1%nat with
        | Some online_reference =>
            _parse_sgml_index_loop lines' (Some online_reference) symbol_map
        | None => inl IndexError
        end
      else if starts_with (txt "<ANCHOR") l then
        let split_line := split_on (is_char DQ) l in
        match split_line !! 3%nat with
        | Some value =>
            match split_line !! 1%nat with
            | Some key => _parse_sgml_index_loop lines' online_reference
                            (dict_set key value symbol_map)
            | None => inl IndexError
            end
        | None => inl IndexError
        end
      else _parse_sgml_index_loop lines' online_reference symbol_map
  end.

Definition _parse_sgml_index (lines : list text)
    : exn + (option text * list (text * text)) :=
  _parse_sgml_index_loop lines None [].

(** A line of [index.sgml] as gtk-doc writes it for an anchor. *)
Definition anchor_line (entry : text * text) : text :=
  txt "<ANCHOR id=" ++ quoted entry.1 ++ txt " href=" ++ quoted entry.2
  ++ txt ">" ++ [LF].

(** [to_lower_camel_case(string)] *)
Definition to_lower_camel_case (s : text) : exn + text :=
  match s with
  | [] => inl IndexError
  | c :: rest => inr (lower [c] ++ rest)
  end.

(** What [resolve_gboxed_constructor] reads of a constructor;
    [c_introspectable] is [None] when the attribute is not there. *)
Record constructor : Type := Constructor {
  c_name : text;
  c_parameters : list parameter;
  c_introspectable : option bool
}.

Definition introspectable (c : constructor) : bool :=
  default true (c_introspectable c).

Fixpoint gboxed_loop (constructors : list constructor)
    (zero_args_constructor default_constructor : option constructor)
    : option constructor * option constructor :=
  match constructors with
  | [] => (zero_args_constructor, default_constructor)
  | c :: constructors' =>
      let zero_args_constructor :=
        match zero_args_constructor with
        | None => if bool_decide (length (c_parameters c) = 0%nat) then Some c else None
        | Some _ => zero_args_constructor
        end in
      let default_constructor :=
        match default_constructor with
        | None => if bool_decide (c_name c = txt "new") then Some c else None
        | Some _ => default_constructor
        end in
      gboxed_loop constructors' zero_args_constructor default_constructor
  end.

(** [resolve_gboxed_constructor(node)], on [node.constructors]: what it
    stores in [gjs_default_constructor] and in [gjs_zero_args_constructor]. *)
Definition resolve_gboxed_constructor (constructors : list constructor)
    : option constructor * option constructor :=
  let introspectable_constructors := List.filter introspectable constructors in
  let '(zero_args_constructor, default_constructor) :=
    gboxed_loop introspectable_constructors None None in
  let default_constructor :=
    match default_constructor with
    | None => zero_args_constructor
    | Some _ => default_constructor
    end in
  let default_constructor :=
    match default_constructor with
    | None =>
        if bool_decide (0 < length introspectable_constructors)%nat
        then head introspectable_constructors else None
    | Some _ => default_constructor
    end in
  (default_constructor, zero_args_constructor).

(** The exceptions that formatting can end with when the document includes
    no file and names no unknown language. *)
Definition flat_errors : list exn := [IndexError; AttributeError; UnboundLocalError].

(** A token that starts no code block in a language that [language_mimes]
    does not know. *)
Definition known_language (tok : token) : Prop :=
  tok_kind tok = "code_start_with_language" →
  ∀ props language_name,
    tok_props tok = Some props →
    props !! "language_name" = Some (Some language_name) →
    is_Some (language_mimes !! string_of_list_ascii (lower language_name)).

(** No two tokens in a row are without properties. *)
Fixpoint others_apart (toks : list token) : Prop :=
  match toks with
  | t1 :: (t2 :: _) as toks' =>
      (tok_props t1 = None → tok_props t2 ≠ None) ∧ others_apart toks'
  | _ => True
  end.
(** * Properties *)

#[local] Arguments String.append !_ _ / : simpl nomatch.

(** ** The matcher *)

Lemma span_le cs s : (span cs s ≤ length s)%nat.
Proof. induction s as [|c s IH]; simpl; [lia|]. destruct (cs c); simpl; lia. Qed.

Lemma elem_of_countdown k hi lo : k ∈ countdown hi lo ↔ (lo ≤ k ≤ hi)%nat.
Proof.
  unfold countdown. rewrite elem_of_reverse, elem_of_seq. lia.
Qed.

(** A match consumes a prefix of what is left, of at least [min_len p]
    characters. *)
Lemma run_consumes p : ∀ st st',
  st' ∈ run p st →
  ∃ k, m_pos st' = (m_pos st + k)%nat ∧ m_rest st' = drop k (m_rest st)
       ∧ (min_len p ≤ k ≤ length (m_rest st))%nat.
Proof.
  induction p as [|cs|cs|cs|p IHp q IHq|p IHp q IHq|name p IHp|alias child];
    intros st st' Hin; simpl in Hin.
  - apply list_elem_of_singleton in Hin as ->. exists 0%nat. simpl.
    rewrite Nat.add_0_r. split_and!; auto; lia.
  - destruct (m_rest st) as [|c r] eqn:Hr; [by apply elem_of_nil in Hin|].
    destruct (cs_mem cs c); [|by apply elem_of_nil in Hin].
    apply list_elem_of_singleton in Hin as ->. exists 1%nat. simpl.
    rewrite Hr. simpl. split_and!; auto; lia.
  - apply list_elem_of_fmap in Hin as (k & -> & Hk). apply elem_of_countdown in Hk.
    exists k. simpl. pose proof (span_le (cs_mem cs) (m_rest st)). split_and!; auto; lia.
  - apply list_elem_of_fmap in Hin as (k & -> & Hk). apply elem_of_countdown in Hk.
    exists k. simpl. pose proof (span_le (cs_mem cs) (m_rest st)). split_and!; auto; lia.
  - apply list_elem_of_bind in Hin as (st1 & Hq & Hp).
    apply IHp in Hp as (k1 & Hpos1 & Hrest1 & Hk1).
    apply IHq in Hq as (k2 & Hpos2 & Hrest2 & Hk2).
    rewrite Hrest1, length_drop in Hk2.
    exists (k1 + k2)%nat. rewrite Hpos2, Hpos1, Hrest2, Hrest1, drop_drop.
    simpl. split_and!; [lia|done|lia|lia].
  - apply elem_of_app in Hin as [Hin|Hin].
    + apply IHp in Hin as (k & ? & ? & ?). exists k. simpl. split_and!; auto; lia.
    + apply IHq in Hin as (k & ? & ? & ?). exists k. simpl. split_and!; auto; lia.
  - apply list_elem_of_fmap in Hin as (st1 & -> & Hin).
    apply IHp in Hin as (k & ? & ? & ?). exists k. simpl. split_and!; auto; lia.
  - by apply elem_of_nil in Hin.
Qed.

(** [match.lastgroup] is the group that closes last. *)
Lemma run_group_last name p st st' :
  st' ∈ run (PGroup name p) st → m_last st' = name.
Proof. simpl. intros (st1 & -> & _)%list_elem_of_fmap. done. Qed.

Lemma run_alternation ps st st' :
  st' ∈ run (alternation ps) st → ps = [] ∨ ∃ p, p ∈ ps ∧ st' ∈ run p st.
Proof.
  induction ps as [|p ps IH]; [by left|]. right.
  destruct ps as [|q ps].
  - simpl in H. exists p. split; [left|done].
  - change (alternation (p :: q :: ps)) with (PAlt p (alternation (q :: ps))) in H.
    simpl in H. apply elem_of_app in H as [H|H].
    + exists p. split; [left|done].
    + destruct (IH H) as [?|(p' & ? & ?)]; [done|]. exists p'. split; [by right|done].
Qed.

(** What a repetition [cs+] first consumes is in [cs]. *)
Lemma run_plus_first cs q st st' :
  st' ∈ run (PCat (PPlus cs) q) st →
  ∃ c r, m_rest st = c :: r ∧ cs_mem cs c = true.
Proof.
  simpl. intros (st1 & _ & Hin)%list_elem_of_bind.
  apply list_elem_of_fmap in Hin as (k & _ & Hk). apply elem_of_countdown in Hk.
  destruct (m_rest st) as [|c r]; simpl in Hk; [lia|].
  destruct (cs_mem cs c) eqn:Hc; [eauto|lia].
Qed.

(** ** [search] *)

Lemma search_from_spec regex rest pos m :
  search_from regex rest pos = Some m →
  ∃ i st,
    m_start m = (pos + i)%nat ∧ (i ≤ length rest)%nat ∧
    head (run regex (MState (pos + i) (drop i rest) [] None)) = Some st ∧
    m_end m = m_pos st ∧ m_groups m = m_spans st ∧ m_lastgroup m = m_last st.
Proof.
  revert pos. induction rest as [|c rest IH]; intros pos; simpl.
  - destruct (head _) as [st|] eqn:Hh; [|done]. intros [= <-].
    exists 0%nat, st. rewrite Nat.add_0_r, drop_0. simpl. split_and!; auto.
  - destruct (head _) as [st|] eqn:Hh.
    + intros [= <-]. exists 0%nat, st. rewrite Nat.add_0_r, drop_0. simpl.
      split_and!; auto. lia.
    + intros (i & st & ? & ? & ? & ? & ? & ?)%IH. exists (S i), st.
      replace (pos + S i)%nat with (S pos + i)%nat by lia. simpl.
      split_and!; auto. lia.
Qed.

(** ** Names *)


Lemma is_char_true a b : is_char a b = true ↔ a = b.
Proof.
  unfold is_char, code. rewrite N.eqb_eq. split; [|by intros ->].
  intros H. rewrite <- (ascii_N_embedding a), <- (ascii_N_embedding b). by rewrite H.
Qed.

Lemma cs_mem_one a c : cs_mem (one a) c = true → a = c.
Proof.
  unfold cs_mem, one, in_range. simpl. rewrite orb_false_r.
  intros [H1 H2]%andb_prop. apply N.leb_le in H1, H2.
  rewrite <- (ascii_N_embedding a), <- (ascii_N_embedding c).
  f_equal. unfold code in *. lia.
Qed.

Lemma is_char_refl a : is_char a a = true.
Proof. by apply is_char_true. Qed.

Lemma startswith_app p k : startswith (p +:+ k) p = true.
Proof. induction p as [|a p IH]; simpl; [done|]. by rewrite is_char_refl, IH. Qed.

Lemma str_drop_app p k : str_drop (String.length p) (p +:+ k) = k.
Proof. induction p as [|a p IH]; simpl; [by destruct k|done]. Qed.

Lemma startswith_inv s p :
  startswith s p = true → s = p +:+ str_drop (String.length p) s.
Proof.
  revert s. induction p as [|a p IH]; intros s; simpl; [by destruct s|].
  destruct s as [|b s]; [done|]. intros [Hab Hs]%andb_prop.
  apply is_char_true in Hab as ->. f_equal. by apply IH.
Qed.

Lemma str_app_inj p k1 k2 : p +:+ k1 = p +:+ k2 → k1 = k2.
Proof. induction p as [|a p IH]; simpl; [done|]. intros [= H]. by apply IH. Qed.

Lemma str_app_assoc a b c : (a +:+ b) +:+ c = a +:+ (b +:+ c).
Proof. induction a as [|x a IH]; simpl; [done|]. by rewrite IH. Qed.

Lemma str_app_ne p k : k ≠ EmptyString → p +:+ k ≠ p.
Proof.
  intros Hk. induction p as [|a p IH]; simpl; [done|]. intros [= H]. by apply IH.
Qed.

(** ** [get_properties] *)

(** The properties of a token of kind [name]: one entry for each group of
    the dictionary whose name starts with [name_], under what follows the
    prefix, and the whole match under [name] unless a group [name_name]
    takes that key. *)
Lemma get_properties_lookup name (gd : gmap string (option text)) v :
  gd !! name = Some v →
  ∃ props, get_properties name gd = inr props ∧
    ∀ key, props !! key =
      match gd !! ((name +:+ "_") +:+ key) with
      | Some x => Some x
      | None => if decide (key = name) then Some v else None
      end.
Proof.
  intros Hv. unfold get_properties. rewrite Hv. eexists. split; [done|].
  assert (Hdel : ∀ key, gd !! ((name +:+ "_") +:+ key)
                        = delete name gd !! ((name +:+ "_") +:+ key)).
  { intros key. rewrite lookup_delete_ne; [done|].
    rewrite str_app_assoc. intros H. symmetry in H. revert H.
    by apply str_app_ne. }
  intros key. rewrite Hdel. clear Hdel. revert key.
  generalize (delete name gd). intros m.
  apply (map_fold_weak_ind (λ r (m : gmap string (option text)), ∀ key, r !! key =
     match m !! ((name +:+ "_") +:+ key) with
     | Some x => Some x
     | None => if decide (key = name) then Some v else None
     end)).
  - intros key. rewrite lookup_empty. case_decide as Hk.
    + subst. apply lookup_singleton_eq.
    + by apply lookup_singleton_ne.
  - intros i x m' r Hi IH key.
    destruct (startswith i (name +:+ "_")) eqn:Hs.
    + apply startswith_inv in Hs. set (k0 := str_drop _ i) in *.
      destruct (decide (key = k0)) as [->|Hne].
      * rewrite lookup_insert_eq, <- Hs. by rewrite lookup_insert_eq.
      * rewrite lookup_insert_ne by done. rewrite lookup_insert_ne; [apply IH|].
        rewrite Hs. intros H%str_app_inj. done.
    + rewrite lookup_insert_ne; [apply IH|].
      intros ->. by rewrite startswith_app in Hs.
Qed.

Lemma groupdict_lookup regex s m g :
  groupdict regex s m !! g =
    if decide (g ∈ group_names regex) then Some (group_value s m g) else None.
Proof.
  unfold groupdict. case_decide as Hg.
  - induction (group_names regex) as [|g' l IH]; [by apply elem_of_nil in Hg|].
    simpl. destruct (decide (g' = g)) as [->|Hne].
    + by rewrite lookup_insert_eq.
    + rewrite lookup_insert_ne by done. apply IH.
      apply elem_of_cons in Hg as [?|?]; [congruence|done].
  - apply not_elem_of_list_to_map_1. by rewrite <- list_fmap_compose, list_fmap_id.
Qed.

(** ** [scan] *)

Lemma search_spec regex s pos m :
  (pos ≤ length s)%nat →
  search regex s pos = Some m →
  ∃ st, (pos ≤ m_start m)%nat ∧
    st ∈ run regex (MState (m_start m) (drop (m_start m) s) [] None) ∧
    m_end m = m_pos st ∧ m_groups m = m_spans st ∧ m_lastgroup m = m_last st ∧
    (m_start m + min_len regex ≤ m_end m ≤ length s)%nat.
Proof.
  intros Hpos Hs. unfold search in Hs. rewrite Nat.min_l in Hs by done.
  apply search_from_spec in Hs as (i & st & Hstart & Hi & Hh & Hend & Hg & Hl).
  rewrite length_drop in Hi. rewrite drop_drop, <- Hstart in Hh.
  apply head_Some_elem_of in Hh.
  exists st. split_and!; auto; try lia.
  - apply run_consumes in Hh as (k & Hk & _ & Hlen). simpl in *. lia.
  - apply run_consumes in Hh as (k & Hk & _ & Hlen). simpl in *.
    rewrite length_drop in Hlen. lia.
Qed.

Lemma slice_app i j k (s : text) :
  (i ≤ j ≤ k)%nat → slice i j s ++ slice j k s = slice i k s.
Proof.
  intros H. unfold slice.
  replace (drop j s) with (drop (j - i) (drop i s)) by (rewrite drop_drop; f_equal; lia).
  rewrite take_take_drop. f_equal. lia.
Qed.

Lemma slice_to_end i (s : text) : slice i (length s) s = drop i s.
Proof. unfold slice. apply take_ge. rewrite length_drop. lia. Qed.

Lemma scan_loop_lossless regex s :
  scannable regex →
  ∀ fuel pos, (pos ≤ length s)%nat → (length s - pos < fuel)%nat →
  ∃ toks, scan_loop fuel regex s pos = (toks, Returns)
          ∧ concat (tok_text <$> toks) = drop pos s.
Proof.
  intros [Hmin Hlast]. induction fuel as [|fuel IH]; intros pos Hpos Hfuel; [lia|].
  simpl. destruct (search regex s pos) as [m|] eqn:Hs.
  - destruct (search_spec _ _ _ _ Hpos Hs) as (st & Hstart & Hrun & Hend & _ & Hlg & Hlen).
    destruct (Hlast _ _ Hrun) as (name & Hname & Hin). rewrite Hlg, Hname.
    destruct (get_properties_lookup name (groupdict regex s m) (group_value s m name))
      as (props & -> & _).
    { rewrite groupdict_lookup. by rewrite decide_True. }
    destruct (IH (m_end m)) as (rest & -> & Hrest); [lia|lia|].
    eexists. split; [done|].
    rewrite fmap_app, concat_app, fmap_cons. cbn [concat tok_text].
    rewrite Hrest, <- slice_to_end.
    rewrite slice_app by lia. rewrite <- slice_to_end.
    case_decide.
    + simpl. rewrite app_nil_r. apply slice_app. lia.
    + simpl. by replace (m_start m) with pos by lia.
  - eexists. split; [done|]. case_decide; simpl.
    + by rewrite app_nil_r.
    + rewrite drop_ge; [done|lia].
Qed.

(** With any pattern, a scan that returns has lost nothing. *)
Lemma scan_loop_returns_lossless regex s :
  ∀ fuel pos toks, (pos ≤ length s)%nat →
  scan_loop fuel regex s pos = (toks, Returns) →
  concat (tok_text <$> toks) = drop pos s.
Proof.
  induction fuel as [|fuel IH]; intros pos toks Hpos; simpl; [done|].
  destruct (search regex s pos) as [m|] eqn:Hs.
  - destruct (search_spec _ _ _ _ Hpos Hs) as (st & Hstart & _ & _ & _ & _ & Hlen).
    destruct (m_lastgroup m) as [name|]; [|done].
    destruct (get_properties name _) as [e|props]; [done|].
    destruct (scan_loop fuel regex s (m_end m)) as [rest fin] eqn:Hrest.
    intros [= <- ->]. apply IH in Hrest; [|lia].
    rewrite fmap_app, concat_app, fmap_cons. cbn [concat tok_text].
    rewrite Hrest, <- !slice_to_end, slice_app by lia.
    case_decide.
    + simpl. rewrite app_nil_r. apply slice_app. lia.
    + simpl. by replace (m_start m) with pos by lia.
  - intros [= <-]. case_decide; simpl.
    + by rewrite app_nil_r.
    + rewrite drop_ge; [done|lia].
Qed.

Lemma scan_returns_lossless regex s toks :
  scan regex s = (toks, Returns) → concat (tok_text <$> toks) = s.
Proof.
  intros H. apply scan_loop_returns_lossless in H; [|lia]. by rewrite drop_0 in H.
Qed.

Lemma group_names_alternation p ps :
  p ∈ ps → group_names p ⊆ group_names (alternation ps).
Proof.
  induction ps as [|q ps IH]; [by intros ?%elem_of_nil|].
  intros Hp. destruct ps as [|q' ps].
  - apply list_elem_of_singleton in Hp as ->. done.
  - change (alternation (q :: q' :: ps)) with (PAlt q (alternation (q' :: ps))).
    simpl. apply elem_of_cons in Hp as [->|Hp].
    + intros x ?. apply elem_of_app. by left.
    + intros x ?. apply elem_of_app. right. by apply IH.
Qed.

(** A match of the compiled pattern is a match of one of the specs that are
    not private, whose name is then [match.lastgroup]. *)
Lemma make_regex_match specs st st' :
  alternatives specs ≠ [] →
  st' ∈ run (make_regex specs) st →
  ∃ name spec, (name, spec) ∈ specs ∧ st' ∈ run (PGroup (Some name) spec) st
               ∧ m_last st' = Some name ∧ name ∈ group_names (make_regex specs).
Proof.
  intros Hne Hrun. unfold make_regex in *.
  apply run_alternation in Hrun as [?|(p & Hp & Hrun)]; [done|].
  pose proof (group_names_alternation _ _ Hp) as Hsub.
  unfold alternatives in Hp.
  apply list_elem_of_fmap in Hp as ([name spec] & -> & Hp).
  apply list_elem_of_filter in Hp as [_ Hp]. simpl in *.
  exists name, spec. split_and!; [done|done|by eapply run_group_last|].
  apply Hsub. simpl. left.
Qed.

Lemma docstring_regex_eq : docstring_regex = make_regex docstring_compiled.
Proof. reflexivity. Qed.

Lemma docstring_scannable : scannable docstring_regex.
Proof.
  split; [by vm_compute|].
  intros st st' Hrun. rewrite docstring_regex_eq in *.
  apply make_regex_match in Hrun as (name & spec & _ & _ & ? & ?); [eauto|].
  by vm_compute.
Qed.

(** C10. The scanner is lossless: [scan] returns on every text, and the
    texts of the tokens it yields, put end to end in the order they are
    yielded, are the text that was scanned. *)
Theorem C10_scan_lossless (s : text) :
  ∃ toks, scan docstring_regex s = (toks, Returns)
          ∧ concat (tok_text <$> toks) = s.
Proof.
  destruct (scan_loop_lossless docstring_regex s docstring_scannable
              (S (length s)) 0) as (toks & Hscan & Hcat); [lia|lia|].
  exists toks. split; [done|]. by rewrite Hcat, drop_0.
Qed.

(** What [scan] yields: the text between two matches as an [other] token
    without properties, and for each match the token of its last group. *)
Lemma scan_loop_tokens regex s tok :
  ∀ fuel pos, (pos ≤ length s)%nat →
  tok ∈ (scan_loop fuel regex s pos).1 →
  (tok_kind tok = "other" ∧ tok_props tok = None) ∨
  ∃ m pos' props,
    (pos' ≤ length s)%nat ∧ search regex s pos' = Some m ∧
    m_lastgroup m = Some (tok_kind tok) ∧
    tok_text tok = slice (m_start m) (m_end m) s ∧
    tok_props tok = Some props ∧
    get_properties (tok_kind tok) (groupdict regex s m) = inr props.
Proof.
  induction fuel as [|fuel IH]; intros pos Hpos; simpl; [by intros ?%elem_of_nil|].
  destruct (search regex s pos) as [m|] eqn:Hs; simpl.
  - assert (Hgap : tok ∈ (if decide (pos < m_start m)%nat
                          then [Token "other" (slice pos (m_start m) s) None] else [])
                   → tok_kind tok = "other" ∧ tok_props tok = None).
    { case_decide; [|by intros ?%elem_of_nil]. by intros ->%list_elem_of_singleton. }
    destruct (m_lastgroup m) as [name|] eqn:Hlg; simpl; [|by left; auto].
    destruct (get_properties name _) as [e|props] eqn:Hp; simpl; [by left; auto|].
    destruct (search_spec _ _ _ _ Hpos Hs) as (st & _ & _ & _ & _ & _ & Hlen).
    specialize (IH (m_end m) ltac:(lia)).
    destruct (scan_loop fuel regex s (m_end m)) as [rest fin]. simpl in *.
    intros [Hin|Hin]%elem_of_app; [by left; auto|].
    apply elem_of_cons in Hin as [->|Hin]; [|by auto].
    right. exists m, pos, props. simpl. split_and!; auto.
  - case_decide; [|by intros ?%elem_of_nil]. intros ->%list_elem_of_singleton. by left.
Qed.

(** C5, as the code has it.  A token that [scan] yields for a match has the
    name of the last group of the match for kind and the matched text for
    text.  Its properties have one entry for every named group of the whole
    compiled pattern whose name starts with [kind_], keyed by what follows
    the prefix and bound to the text of the group, or to [None] when the
    group took no part in the match; and they bind [kind] itself to the
    matched text, unless a group [kind_kind] takes that key. *)
Theorem C5_token_properties (regex : pattern) (s : text) (tok : token) :
  tok ∈ (scan regex s).1 →
  (tok_kind tok = "other" ∧ tok_props tok = None) ∨
  ∃ m pos props,
    search regex s pos = Some m ∧
    m_lastgroup m = Some (tok_kind tok) ∧
    tok_text tok = slice (m_start m) (m_end m) s ∧
    tok_props tok = Some props ∧
    ∀ key, props !! key =
      if decide ((tok_kind tok +:+ "_") +:+ key ∈ group_names regex)
      then Some (group_value s m ((tok_kind tok +:+ "_") +:+ key))
      else if decide (key = tok_kind tok) then Some (group_value s m (tok_kind tok))
      else None.
Proof.
  intros Hin.
  destruct (scan_loop_tokens regex s tok (S (length s)) 0 ltac:(lia) Hin) as [?|Hm];
    [by left|].
  destruct Hm as (m & pos & props & _ & Hs & Hlg & Htext & Hprops & Hget).
  right. exists m, pos, props. split_and!; auto.
  unfold get_properties in Hget.
  destruct (groupdict regex s m !! tok_kind tok) as [v|] eqn:Hv; [|done].
  destruct (get_properties_lookup _ _ _ Hv) as (props' & Hget' & Hlook).
  unfold get_properties in Hget'. rewrite Hv in Hget'. rewrite Hget' in Hget.
  injection Hget as ->. intros key. rewrite Hlook, groupdict_lookup.
  case_decide; [done|]. case_decide; [|done].
  rewrite groupdict_lookup in Hv. case_decide; congruence.
Qed.

Lemma C5_witness :
  let tok := Token "code_start" (txt "|[")
               (Some (<["with_language_language_name" := None]>
                      (<["with_language" := None]>
                       {["code_start" := Some (txt "|[")]}))) in
  (tok_kind tok = "other" ∧ tok_props tok = None) ∨
  ∃ m pos props,
    search docstring_regex (txt "|[") pos = Some m ∧
    m_lastgroup m = Some (tok_kind tok) ∧
    tok_text tok = slice (m_start m) (m_end m) (txt "|[") ∧
    tok_props tok = Some props ∧
    ∀ key, props !! key =
      if decide ((tok_kind tok +:+ "_") +:+ key ∈ group_names docstring_regex)
      then Some (group_value (txt "|[") m ((tok_kind tok +:+ "_") +:+ key))
      else if decide (key = tok_kind tok)
           then Some (group_value (txt "|[") m (tok_kind tok))
           else None.
Proof.
  intros tok. apply (C5_token_properties docstring_regex (txt "|[") tok).
  vm_compute. left.
Defined.

Lemma C5_counterexample : ¬ C5_as_specified docstring_compiled (txt "|[").
Proof.
  intros H.
  set (tok := Token "code_start" (txt "|[")
                (Some (<["with_language_language_name" := None]>
                       (<["with_language" := None]>
                        {["code_start" := Some (txt "|[")]})))).
  assert (Hin : tok ∈ (scan (make_regex docstring_compiled) (txt "|[")).1).
  { assert (Hs : (scan (make_regex docstring_compiled) (txt "|[")).1 = [tok]) by by vm_compute.
    rewrite Hs. by left. }
  destruct (proj1 (H tok _ "with_language" Hin eq_refl)) as (spec & v & _ & _ & Hv).
  - exists None. by vm_compute.
  - by vm_compute in Hv.
Qed.

(** ** Escaping *)

Lemma replace_char a new s :
  replace [a] new s = s ≫= λ c, if is_char a c then new else [c].
Proof.
  unfold replace. induction s as [|c s IH]; [done|].
  simpl. rewrite andb_true_r. destruct (is_char a c); simpl; by rewrite IH.
Qed.

Lemma escape_chars s : escape s = s ≫= escape_char.
Proof.
  unfold escape.
  change (txt "&") with ["&"%char]. change (txt ">") with [">"%char].
  change (txt "<") with ["<"%char]. rewrite !replace_char.
  induction s as [|c s IH]; [done|].
  rewrite !bind_cons, !bind_app, IH. f_equal.
  unfold escape_char.
  destruct (is_char "&" c) eqn:H1; [done|].
  simpl. destruct (is_char ">" c) eqn:H2; [done|].
  simpl. by destruct (is_char "<" c).
Qed.

Lemma escape_char_plain c : structural c = false → escape_char c = [c].
Proof.
  unfold structural, escape_char.
  intros [[-> ->]%orb_false_elim ->]%orb_false_elim. done.
Qed.

Lemma escape_char_structural c :
  structural c = true → ∃ r, escape_char c = "&"%char :: r ∧ (2 ≤ length r)%nat.
Proof.
  unfold structural, escape_char. intros H.
  destruct (is_char "&" c); [eexists; split; [done|simpl; lia]|].
  destruct (is_char ">" c); [eexists; split; [done|simpl; lia]|].
  destruct (is_char "<" c); [eexists; split; [done|simpl; lia]|done].
Qed.

Lemma escape_char_length c : (1 ≤ length (escape_char c))%nat.
Proof.
  unfold escape_char.
  destruct (is_char "&" c); [simpl; lia|].
  destruct (is_char ">" c); [simpl; lia|].
  destruct (is_char "<" c); simpl; lia.
Qed.

Lemma escape_plain s :
  (∀ c, c ∈ s → structural c = false) → escape s = s.
Proof.
  rewrite escape_chars. induction s as [|c s IH]; [done|]. intros H.
  rewrite bind_cons, escape_char_plain by (apply H; left).
  simpl. f_equal. apply IH. intros c' ?. apply H. by right.
Qed.

Lemma escape_length s : (length s ≤ length (escape s))%nat.
Proof.
  rewrite escape_chars. induction s as [|c s IH]; [done|].
  rewrite bind_cons, length_app. pose proof (escape_char_length c). simpl. lia.
Qed.

Lemma escape_longer s c :
  c ∈ s → structural c = true → (length s < length (escape s))%nat.
Proof.
  intros Hin Hc. apply list_elem_of_split in Hin as (l1 & l2 & ->).
  rewrite escape_chars, bind_app, bind_cons, <- !escape_chars, !length_app.
  destruct (escape_char_structural c Hc) as (r & -> & Hr).
  pose proof (escape_length l1). pose proof (escape_length l2). simpl. lia.
Qed.

Lemma escape_writes_amp s c :
  c ∈ s → structural c = true → "&"%char ∈ escape s.
Proof.
  intros Hin Hc. apply list_elem_of_split in Hin as (l1 & l2 & ->).
  rewrite escape_chars, bind_app, bind_cons.
  destruct (escape_char_structural c Hc) as (r & -> & _).
  apply elem_of_app. right. left.
Qed.

(** C7, as the code has it.  Escaping what is already escaped gives the same
    text exactly when the text holds none of [<], [>], [&]: on any other
    text the first pass writes a [&], and the second pass escapes it again. *)
Theorem C7_escape_twice (s : text) :
  escape (escape s) = escape s ↔ ∀ c, c ∈ s → structural c = false.
Proof.
  split.
  - intros Heq c Hin. destruct (structural c) eqn:Hc; [|done]. exfalso.
    pose proof (escape_writes_amp s c Hin Hc) as Hamp.
    pose proof (escape_longer (escape s) "&" Hamp eq_refl) as Hlen.
    rewrite Heq in Hlen. lia.
  - intros H. by rewrite !(escape_plain s H).
Qed.

Lemma C7_counterexample : escape (escape (txt "<")) ≠ escape (txt "<").
Proof. by vm_compute. Qed.

(** ** Resolution *)

(** C9.  An identifier that the transformer cannot split, which it tells by
    raising [ValueError], is not found: [_resolve_type] and [_resolve_symbol]
    return [None] and raise nothing. *)
Theorem C9_unsplittable_not_found (self : formatter) (ident : text) :
  (split_ctype_namespaces (_transformer self) ident = None →
   _resolve_type self ident = None) ∧
  (split_csymbol_namespaces (_transformer self) ident = None →
   _resolve_symbol self ident = inr None).
Proof.
  split; intros H.
  - unfold _resolve_type. by rewrite H.
  - unfold _resolve_symbol. by rewrite H.
Qed.

Lemma C9_witness :
  _resolve_type (sample_formatter false) (txt "Widget") = None ∧
  _resolve_symbol (sample_formatter false) (txt "widget_show") = inr None.
Proof.
  split.
  - apply (C9_unsplittable_not_found (sample_formatter false) (txt "Widget")).
    reflexivity.
  - apply (C9_unsplittable_not_found (sample_formatter false) (txt "widget_show")).
    reflexivity.
Defined.

(** ** Code blocks *)

Lemma code_start_known_language node match_ props language_name mime st :
  props !! "language_name" = Some (Some language_name) →
  language_mimes !! string_of_list_ascii (lower language_name) = Some mime →
  mime ≠ [] →
  _process_code_start_with_language node match_ (Some props) st
  = Ok (txt "</p><code mime=" ++ quoted mime ++ txt ">")
       (FState true (_opened_sections st) (_warned_external_references st)
          (warnings st) (section_log st)).
Proof.
  intros Hp Hm Hne. unfold _process_code_start_with_language, prop, bind.
  rewrite Hp. unfold ret at 1. rewrite Hm. unfold set_processing_code.
  rewrite bool_decide_eq_false_2 by done. done.
Qed.

Lemma code_start_unknown_language node match_ props language_name st :
  props !! "language_name" = Some (Some language_name) →
  language_mimes !! string_of_list_ascii (lower language_name) = None →
  _process_code_start_with_language node match_ (Some props) st = Raise KeyError st.
Proof.
  intros Hp Hm. unfold _process_code_start_with_language, prop, bind.
  rewrite Hp. unfold ret at 1. by rewrite Hm.
Qed.

(** C3, where the code fails.  A code block that names a language missing
    from the table makes [format] raise [KeyError], where the specification
    wants a code block without a label. *)
Theorem C3_unknown_language_raises :
  format (sample_formatter false) 1 widget
    (Some (txt "|[<!-- language=" ++ quoted (txt "fortran") ++ txt " -->")) init_state
  = Raise KeyError init_state.
Proof. by vm_compute. Qed.

(** ** Type names *)

Lemma format_xref_internal self n pluralize st :
  internal self n →
  format_xref self (Some n) pluralize None [] st =
    match make_page_id false n with
    | inr page_id =>
        Ok (build_xml_tag self (txt "link") [(txt "xref", page_id)]
              (if pluralize then Some (page_id ++ txt "s") else None)) st
    | inl e => Raise e st
    end.
Proof.
  intros [Hns Hcls]. unfold format_xref.
  assert (Hunf : format_xref_node self n pluralize None []
                 = format_internal_xref self n [] None pluralize).
  { destruct n as [cls name ns parent cl sh pr sg]. simpl in *. subst ns.
    rewrite (bool_decide_eq_false_2 (SomeNS _ = NoAttr)) by discriminate.
    rewrite (bool_decide_eq_false_2 (cls = Member) Hcls). simpl.
    by rewrite bool_decide_eq_true_2. }
  rewrite Hunf. unfold format_internal_xref, bind, lift, raise, ret.
  destruct (make_page_id false n) as [e|page_id]; [done|].
  simpl. by destruct pluralize.
Qed.

Lemma format_xref_external self n pluralize st :
  external self n →
  format_xref self (Some n) pluralize None [] st =
    match external_attributes self n st with
    | Ok attrs st1 =>
        Ok (build_xml_tag self (txt "link") attrs
              (Some (if pluralize then format_page_name self n ++ txt "s"
                     else format_page_name self n))) st1
    | Raise e st1 => Raise e st1
    end.
Proof.
  intros (Hns & Hown & Hmember). unfold format_xref.
  assert (Hunf : format_xref_node self n pluralize None []
                 = format_external_xref self n [] None pluralize).
  { destruct n as [cls name ns parent cl sh pr sg]. simpl in *.
    rewrite (bool_decide_eq_false_2 (ns = NoAttr) Hns), Hown.
    rewrite orb_false_r.
    destruct (bool_decide_reflect (cls = Member)) as [Hm|Hm]; [|done].
    by rewrite (Hmember Hm). }
  rewrite Hunf. unfold format_external_xref, external_attributes, bind.
  destruct (link_to_gtk_doc self).
  - destruct (format_gtk_doc_attributes self n [] st) as [attrs st1|e st1]; [|done].
    rewrite app_nil_r. simpl. by destruct pluralize.
  - destruct (with_namespace _ _ st) as [attrs st1|e st1]; [|done].
    rewrite app_nil_r. simpl. by destruct pluralize.
Qed.

Lemma format_xref_via_parent self n pluralize st :
  via_parent self n →
  format_xref self (Some n) pluralize None [] st =
    (let* parent_xref := format_xref self (n_parent n) pluralize None [] in
     ret (parent_xref ++ txt "." ++ n_name n)) st.
Proof.
  intros (Hns & Hcls & Hown). unfold format_xref at 1.
  destruct n as [cls name ns parent cl sh pr sg]. simpl in *. subst cls.
  rewrite (bool_decide_eq_false_2 (ns = NoAttr) Hns).
  rewrite (bool_decide_eq_true_2 (Member = Member) eq_refl).
  assert (negb (link_to_gtk_doc self) || is_own_namespace self ns = true) as ->.
  { destruct Hown as [->| ->]; [done|]. by rewrite orb_true_r. }
  simpl. by destruct parent.
Qed.

Lemma format_xref_no_namespace self n pluralize st :
  n_namespace n = NoAttr →
  format_xref self (Some n) pluralize None [] st
  = Ok (build_xml_tag self (txt "link") [(txt "xref", txt "index")] None) st.
Proof.
  intros Hns. unfold format_xref.
  destruct n as [cls name ns parent cl sh pr sg]. simpl in *. subst ns. done.
Qed.

Lemma link_shapes self n :
  n_namespace n = NoAttr ∨ via_parent self n ∨ internal self n ∨ external self n.
Proof.
  unfold via_parent, internal, external.
  destruct (decide (n_namespace n = NoAttr)) as [?|Hns]; [by left|right].
  destruct (decide (n_class n = Member)) as [Hm|Hm].
  - destruct (link_to_gtk_doc self) eqn:Hg; [|by left; auto].
    destruct (is_own_namespace self (n_namespace n)) eqn:Hown; [by left; auto|].
    right. right. auto.
  - right. destruct (is_own_namespace self (n_namespace n)) eqn:Hown.
    + left. split; [|done]. unfold is_own_namespace in Hown.
      destruct (n_namespace n); try done. by apply bool_decide_eq_true in Hown as ->.
    + right. split_and!; [done|done|]. by intros ?.
Qed.

(** C4, as the code has it.  A type name that resolves becomes a
    cross-reference.  One that does not is tried again without its trailing
    [s] characters, all of them: a type found that way is linked with
    [pluralize].  The link is then the one of the type found, with an [s]
    after its text: for a node of the documented namespace the target is
    its page id and the text the page id followed by [s]; for a node of
    another namespace the attributes are those of the link to the node and
    the text is its page name followed by [s].  An enum member is linked
    through its parent, which gets the [s], and a node without the attribute
    [namespace] gets the link to the index.  When nothing is found the
    matched text is returned as it is. *)
Theorem C4_type_name (self : formatter) (node : node) (match_ : text)
    (props : gmap string (option text)) (ident : text) (st : fstate) :
  props !! "type_name" = Some (Some ident) →
  let out := _process_type_name self node match_ (Some props) st in
  let link := build_xml_tag self (txt "link") in
  (∀ type_, _resolve_type self ident = Some type_ →
     out = format_xref self (Some type_) false None [] st) ∧
  (_resolve_type self ident = None →
     (∀ type_, _resolve_type self (rstrip (is_char "s") ident) = Some type_ →
        out = format_xref self (Some type_) true None [] st ∧
        (n_namespace type_ = NoAttr ∨ via_parent self type_
         ∨ internal self type_ ∨ external self type_) ∧
        (∀ page_id, internal self type_ → make_page_id false type_ = inr page_id →
           out = Ok (link [(txt "xref", page_id)] (Some (page_id ++ txt "s"))) st ∧
           format_xref self (Some type_) false None [] st
           = Ok (link [(txt "xref", page_id)] None) st) ∧
        (∀ attrs st1, external self type_ →
           external_attributes self type_ st = Ok attrs st1 →
           out = Ok (link attrs (Some (format_page_name self type_ ++ txt "s"))) st1 ∧
           format_xref self (Some type_) false None [] st
           = Ok (link attrs (Some (format_page_name self type_))) st1) ∧
        (via_parent self type_ →
           out = (let* parent_xref := format_xref self (n_parent type_) true None [] in
                  ret (parent_xref ++ txt "." ++ n_name type_)) st) ∧
        (n_namespace type_ = NoAttr →
           out = Ok (link [(txt "xref", txt "index")] None) st)) ∧
     (_resolve_type self (rstrip (is_char "s") ident) = None →
        out = Ok match_ st)).
Proof.
  intros Hp out link.
  assert (Hunf : out =
    match _resolve_type self ident with
    | Some type_ => format_xref self (Some type_) false None [] st
    | None =>
        match _resolve_type self (rstrip (is_char "s") ident) with
        | None => Ok match_ st
        | Some type_ => format_xref self (Some type_) true None [] st
        end
    end).
  { unfold out, _process_type_name, prop, bind. rewrite Hp. unfold ret at 1.
    destruct (_resolve_type self ident); [done|].
    by destruct (_resolve_type self (rstrip _ ident)). }
  rewrite Hunf. split; [by intros type_ ->|].
  intros ->. split; [|by intros ->].
  intros type_ ->. split_and!; [done|apply link_shapes|..].
  - intros page_id Hint Hid. by rewrite !format_xref_internal, Hid.
  - intros attrs st1 Hext Hattrs. by rewrite !format_xref_external, Hattrs.
  - apply format_xref_via_parent.
  - apply format_xref_no_namespace.
Qed.

Lemma C4_witness :
  _process_type_name (sample_formatter false) widget (txt "#GtkWidgetss")
    (Some {[ "type_name" := Some (txt "GtkWidgetss") ]}) init_state
  = Ok (sample_link (txt "Gtk.Widget") (txt "Gtk.Widgets")) init_state
  ∧ _process_type_name (wide_formatter false id) widget (txt "#GdkWindows")
      (Some {[ "type_name" := Some (txt "GdkWindows") ]}) init_state
    = Ok (sample_build_xml_tag (txt "link")
            [(txt "href", txt "../Gdk-3.0/Gdk.Window.html")] (Some (txt "Windows")))
         init_state.
Proof.
  split.
  - refine (proj1 (proj1 (proj2 (proj2 (proj1 (proj2
      (C4_type_name (sample_formatter false) widget (txt "#GtkWidgetss")
         {[ "type_name" := Some (txt "GtkWidgetss") ]} (txt "GtkWidgetss") init_state _)
      _) widget _))) (txt "Gtk.Widget") _ _)).
    + reflexivity.
    + reflexivity.
    + reflexivity.
    + split; [reflexivity|discriminate].
    + reflexivity.
  - refine (proj1 (proj1 (proj2 (proj2 (proj2 (proj1 (proj2
      (C4_type_name (wide_formatter false id) widget (txt "#GdkWindows")
         {[ "type_name" := Some (txt "GdkWindows") ]} (txt "GdkWindows") init_state _)
      _) window _)))) [(txt "href", txt "../Gdk-3.0/Gdk.Window.html")] init_state _ _)).
    + reflexivity.
    + reflexivity.
    + reflexivity.
    + split_and!; [discriminate|reflexivity|discriminate].
    + reflexivity.
Defined.

Lemma C4_counterexample : ¬ C4_as_specified (sample_formatter false).
Proof.
  intros H.
  specialize (H widget (txt "#GtkWidgetss")
                (Some {[ "type_name" := Some (txt "GtkWidgetss") ]}) init_state).
  vm_compute in H. discriminate H.
Qed.

(** ** Implicit links *)

Lemma interleave_split_on (s : text) :
  interleave (split_on is_word_sep s) (filter (λ c, is_word_sep c = true) s) = s.
Proof.
  induction s as [|c s IH]; [done|]. simpl.
  destruct (is_word_sep c) eqn:Hc.
  - rewrite filter_cons_True by done. simpl. by rewrite IH.
  - rewrite filter_cons_False by congruence.
    destruct (split_on is_word_sep s) as [|w ws] eqn:Hs; [by destruct s|].
    destruct (filter _ s); simpl in *; by rewrite <- IH.
Qed.

Lemma dict_set_keys k v (l : list (text * text)) word :
  word ∈ (dict_set k v l).*1 ↔ word = k ∨ word ∈ l.*1.
Proof.
  induction l as [|[k' v'] l IH]; simpl.
  - rewrite list_elem_of_singleton, elem_of_nil. tauto.
  - case_decide as Hk; simpl; rewrite !elem_of_cons.
    + subst. tauto.
    + rewrite IH. tauto.
Qed.

Lemma dict_set_items k v (l : list (text * text)) kv :
  kv ∈ dict_set k v l → kv = (k, v) ∨ kv ∈ l.
Proof.
  induction l as [|[k' v'] l IH]; simpl.
  - rewrite list_elem_of_singleton. tauto.
  - case_decide as Hk; rewrite !elem_of_cons; [tauto|].
    intros [?|?%IH]; tauto.
Qed.

Lemma collect_links_spec self words :
  ∀ acc st links st',
  collect_links self words acc st = Ok links st' →
  (∀ word, word ∈ links.*1 ↔
     word ∈ acc.*1 ∨
     (word ∈ words ∧ word ≠ [] ∧ ∃ n, resolve_word self word = inr (Some n))) ∧
  (∀ word xref, (word, xref) ∈ links →
     (word, xref) ∈ acc ∨
     ∃ n st1 st2, resolve_word self word = inr (Some n) ∧
       format_xref self (Some n) false (Some word) [] st1 = Ok xref st2).
Proof.
  induction words as [|w words IH]; intros acc st links st'; simpl.
  - intros [= <- <-]. split.
    + intros word. rewrite elem_of_nil. tauto.
    + auto.
  - case_bool_decide as Hw.
    { intros [Hk Hi]%IH. split; [|done]. intros word. rewrite Hk, elem_of_cons.
      subst w. split; [tauto|]. intros [?|([->|?] & ? & ?)]; tauto. }
    unfold bind, lift. unfold resolve_word in *.
    destruct (_resolve_symbol self w) as [e|symbol] eqn:Hsym; [done|].
    unfold ret at 1.
    set (r := match _resolve_type self w with Some t => Some t | None => symbol end).
    assert (Hstep : ∀ n, r = Some n →
      match format_xref self (Some n) false (Some w) [] st with
      | Ok xref st1 => collect_links self words (dict_set w xref acc) st1
      | Raise e st1 => Raise e st1
      end = Ok links st' →
      (∀ word, word ∈ links.*1 ↔
         word ∈ acc.*1 ∨
         (word ∈ w :: words ∧ word ≠ [] ∧
          ∃ n, match _resolve_symbol self word with
               | inl e => inl e
               | inr symbol => inr match _resolve_type self word with
                                   | Some t => Some t | None => symbol end
               end = inr (Some n))) ∧
      (∀ word xref, (word, xref) ∈ links →
         (word, xref) ∈ acc ∨
         ∃ n st1 st2,
           match _resolve_symbol self word with
           | inl e => inl e
           | inr symbol => inr match _resolve_type self word with
                               | Some t => Some t | None => symbol end
           end = inr (Some n) ∧
           format_xref self (Some n) false (Some word) [] st1 = Ok xref st2)).
    { intros n Hn. destruct (format_xref _ _ _ _ _ st) as [xref st1|] eqn:Hx; [|done].
      intros [Hk Hi]%IH. split.
      - intros word. rewrite Hk, dict_set_keys, elem_of_cons. split; [|tauto].
        intros [[->|?]|?]; [|tauto|tauto]. right. split_and!; [by left|done|].
        exists n. rewrite Hsym. by rewrite <- Hn.
      - intros word x [Hin|Hin]%Hi; [|by right].
        apply dict_set_items in Hin as [[= -> ->]|?]; [|by left].
        right. exists n, st, st1. rewrite Hsym. split; [by rewrite <- Hn|done]. }
    destruct (_resolve_type self w) as [t|] eqn:Hty; [by apply (Hstep t)|].
    destruct symbol as [sy|]; [by apply (Hstep sy)|].
    intros [Hk Hi]%IH. split; [|done].
    intros word. rewrite Hk, elem_of_cons. split; [tauto|].
    intros [?|([->|?] & ? & n & Hn)]; [tauto| |by eauto 10].
    rewrite Hsym, Hty in Hn. done.
Qed.

(** What [_resolve_implicit_links] does in implicit-link mode: the words that
    resolve are entered in a table with their cross-reference, and the
    entries of the table are applied one after the other to the whole text
    with [str.replace], in the order of the dict. *)
Lemma implicit_links_table (self : formatter) (match_ : text) (st : fstate)
    (out : text) (st' : fstate) :
  resolve_implicit_links self = true →
  (∀ l, dict_order self l ≡ₚ l) →
  _resolve_implicit_links self match_ st = Ok out st' →
  ∃ links,
    out = foldl (λ m wx, replace wx.1 wx.2 m) (escape match_) (dict_order self links) ∧
    (∀ word, word ∈ links.*1 ↔
       word ∈ split_on is_word_sep (escape match_) ∧ word ≠ [] ∧
       ∃ n, resolve_word self word = inr (Some n)) ∧
    (∀ word xref, (word, xref) ∈ links →
       ∃ n st1 st2, resolve_word self word = inr (Some n) ∧
         format_xref self (Some n) false (Some word) [] st1 = Ok xref st2) ∧
    ((∀ word, word ∈ split_on is_word_sep (escape match_) → word ≠ [] →
        resolve_word self word = inr None) →
     out = escape match_).
Proof.
  intros Himp Hperm. unfold _resolve_implicit_links. rewrite Himp. simpl.
  unfold bind. destruct (collect_links _ _ _ st) as [links st1|e st1] eqn:Hc; [|done].
  intros [= <- <-]. exists links.
  apply collect_links_spec in Hc as [Hk Hi]. split_and!; [done| | |].
  - intros word. rewrite Hk. simpl. rewrite elem_of_nil. tauto.
  - intros word xref [?%elem_of_nil|?]%Hi; done.
  - intros Hnone. assert (links = []) as ->.
    { destruct links as [|[w x] links]; [done|]. exfalso.
      destruct (proj1 (Hk w)) as [?%elem_of_nil|(Hw & Hne & n & Hn)]; [by left|done|].
      by rewrite (Hnone w Hw Hne) in Hn. }
    specialize (Hperm []). symmetry in Hperm. apply Permutation_nil in Hperm.
    by rewrite Hperm.
Qed.

(** C6, where the code fails.  The words that resolve get their link in a
    table, word by word, but the table is then applied with [str.replace]
    to the whole text.  In [GtkWidget GtkWidgetClass], two types of the
    namespace, the word [GtkWidgetClass] never gets the link to its own
    page: it comes out as the link to [Widget] followed by [Class], or,
    when the dict gives its entry first, with the link to [Widget] inside
    its own link.  Replacing each word at its own place, which is what the
    specification says, gives each word its link. *)
Theorem C6_linked_word_lost :
  let text := txt "GtkWidget GtkWidgetClass" in
  let to_widget := sample_link (txt "Gtk.Widget") (txt "GtkWidget") in
  result_of (_resolve_implicit_links (wide_formatter true id) text init_state)
  = inr (to_widget ++ txt " " ++ to_widget ++ txt "Class") ∧
  result_of (_resolve_implicit_links (wide_formatter true reverse) text init_state)
  = inr (to_widget ++ txt " "
         ++ sample_link (txt "Gtk.WidgetClass") (to_widget ++ txt "Class")) ∧
  result_of (_resolve_implicit_links_as_specified (wide_formatter true id) text
               init_state)
  = inr (to_widget ++ txt " "
         ++ sample_link (txt "Gtk.WidgetClass") (txt "GtkWidgetClass")).
Proof. by vm_compute. Qed.

(** ** Sections *)

Lemma depth_of_app l1 l2 : depth_of (l1 ++ l2) = depth_of l1 + depth_of l2.
Proof.
  unfold depth_of, opens, closes. rewrite !filter_app, !length_app. lia.
Qed.

Lemma depth_of_replicate_open k : depth_of (replicate k SectionOpen) = Z.of_nat k.
Proof.
  induction k as [|k IH]; [done|].
  change (replicate (S k) SectionOpen) with ([SectionOpen] ++ replicate k SectionOpen).
  rewrite depth_of_app, IH. unfold depth_of, opens, closes. simpl. lia.
Qed.

Lemma depth_of_replicate_close k : depth_of (replicate k SectionClose) = - Z.of_nat k.
Proof.
  induction k as [|k IH]; [done|].
  change (replicate (S k) SectionClose) with ([SectionClose] ++ replicate k SectionClose).
  rewrite depth_of_app, IH. unfold depth_of, opens, closes. simpl. lia.
Qed.

Lemma keeps_ret {A} (a : A) : keeps (ret a).
Proof. by intros base d0 st. Qed.

Lemma keeps_raise {A} e : keeps (@raise A e).
Proof. by intros base d0 st. Qed.

Lemma keeps_lift {A} (r : exn + A) : keeps (lift r).
Proof. destruct r; [apply keeps_raise|apply keeps_ret]. Qed.

Lemma keeps_gets {A} (f : fstate → A) : keeps (gets f).
Proof. by intros base d0 st. Qed.

Lemma keeps_warn msg : keeps (warn msg).
Proof. by intros base d0 st. Qed.

Lemma keeps_add_warned name : keeps (add_warned name).
Proof. by intros base d0 st. Qed.

Lemma keeps_set_processing_code b : keeps (set_processing_code b).
Proof. by intros base d0 st. Qed.

Lemma keeps_bind {A B} (m : M A) (k : A → M B) :
  keeps m → (∀ a, keeps (k a)) → keeps (bind m k).
Proof.
  intros Hm Hk base d0 st Hst. unfold bind. specialize (Hm base d0 st Hst).
  destruct (m st) as [a st1|e st1]; [by apply Hk|done].
Qed.

Lemma keeps_mapM {A B} (f : A → M B) (l : list A) :
  (∀ a, a ∈ l → keeps (f a)) → keeps (mapM f l).
Proof.
  induction l as [|a l IH]; intros H; simpl; [apply keeps_ret|].
  apply keeps_bind; [apply H; left|]. intros b.
  apply keeps_bind; [|intros; apply keeps_ret].
  apply IH. intros a' ?. apply H. by right.
Qed.

Create HintDb keeps discriminated.

#[local] Hint Resolve keeps_ret keeps_raise keeps_lift keeps_gets keeps_warn
  keeps_add_warned keeps_set_processing_code : keeps.

(** One step along the syntax of a computation. *)
Ltac keeps_step :=
  first
    [ solve [auto with keeps nocore]
    | apply keeps_bind; [|intros ?]
    | progress cbv zeta
    | progress unfold with_namespace
    | match goal with
      | |- keeps (match ?x with _ => _ end) => destruct x
      end ].

Ltac keeps_auto := repeat keeps_step.

Section Keeps.

Context (self : formatter).

Lemma keeps_format_internal_xref n ad ln pl : keeps (format_internal_xref self n ad ln pl).
Proof. unfold format_internal_xref. keeps_auto. Qed.

Lemma keeps_format_gtk_doc_attributes n ad : keeps (format_gtk_doc_attributes self n ad).
Proof. unfold format_gtk_doc_attributes. keeps_auto. Qed.

#[local] Hint Resolve keeps_format_internal_xref keeps_format_gtk_doc_attributes : keeps.

Lemma keeps_format_external_xref n ad ln pl : keeps (format_external_xref self n ad ln pl).
Proof. unfold format_external_xref. keeps_auto. Qed.

#[local] Hint Resolve keeps_format_external_xref : keeps.

Lemma keeps_format_xref_node : ∀ n pl ln ad, keeps (format_xref_node self n pl ln ad).
Proof.
  fix IH 1. intros [cls name ns parent cl sh pr sg] pl ln ad.
  cbn [format_xref_node]. keeps_auto.
Qed.

#[local] Hint Resolve keeps_format_xref_node : keeps.

Lemma keeps_format_xref n pl ln ad : keeps (format_xref self n pl ln ad).
Proof. unfold format_xref. keeps_auto. Qed.

#[local] Hint Resolve keeps_format_xref : keeps.

Lemma keeps_collect_links s : ∀ acc, keeps (collect_links self s acc).
Proof.
  induction s as [|w s IH]; intros acc; cbn [collect_links]; keeps_auto.
Qed.

#[local] Hint Resolve keeps_collect_links : keeps.

Lemma keeps_resolve_implicit_links match_ : keeps (_resolve_implicit_links self match_).
Proof. unfold _resolve_implicit_links. keeps_auto. Qed.

End Keeps.

Lemma shift_S ev k st :
  shift ev k (final (emit_section ev st)) = shift ev (S k) st.
Proof.
  unfold shift. simpl. f_equal.
  - destruct ev; lia.
  - by rewrite <- app_assoc.
Qed.

(** A loop whose condition holds [n] times in a row makes [n] iterations. *)
Lemma section_loop_run cond ev : ∀ n result st,
  (∀ i, (i < n)%nat → cond (_opened_sections (shift ev i st)) = true) →
  section_loop n cond ev result st
  = Ok (result ++ concat (replicate n (section_tag ev))) (shift ev n st).
Proof.
  induction n as [|n IH]; intros result st Hcond.
  - simpl. unfold ret, shift. rewrite !app_nil_r. f_equal.
    + destruct st. simpl. f_equal. destruct ev; lia.
  - cbn [section_loop]. unfold bind at 1. unfold gets.
    assert (H0 : cond (_opened_sections st) = true).
    { specialize (Hcond 0%nat ltac:(lia)). unfold shift in Hcond. simpl in Hcond.
      destruct ev; by rewrite ?Z.add_0_r, ?Z.sub_0_r in Hcond. }
    rewrite H0. unfold bind. cbn [emit_section].
    rewrite IH.
    + f_equal; [by rewrite <- app_assoc|]. apply (shift_S ev n st).
    + intros i Hi. specialize (Hcond (S i) ltac:(lia)).
      by rewrite <- shift_S in Hcond.
Qed.

Lemma close_down_to_run header_level result st :
  let k := Z.to_nat (_opened_sections st - header_level + 1) in
  close_down_to header_level result st
  = Ok (result ++ concat (replicate k (txt "</section>"))) (shift SectionClose k st).
Proof.
  intros k. unfold close_down_to, bind, gets.
  apply (section_loop_run _ SectionClose). intros i Hi. simpl. lia.
Qed.

Lemma open_up_to_run header_level result st :
  let k := Z.to_nat (header_level - _opened_sections st) in
  open_up_to header_level result st
  = Ok (result ++ concat (replicate k (txt "<section>"))) (shift SectionOpen k st).
Proof.
  intros k. unfold open_up_to, bind, gets.
  apply (section_loop_run _ SectionOpen). intros i Hi. simpl. lia.
Qed.

Lemma close_all_run result st :
  let k := Z.to_nat (_opened_sections st) in
  close_all result st
  = Ok (result ++ concat (replicate k (txt "</section>"))) (shift SectionClose k st).
Proof.
  intros k. unfold close_all, bind, gets.
  apply (section_loop_run _ SectionClose). intros i Hi. simpl. lia.
Qed.

(** When a loop is left its condition is false. *)
Lemma close_down_to_exit header_level result st :
  _opened_sections (final (close_down_to header_level result st)) < header_level.
Proof. rewrite close_down_to_run. simpl. lia. Qed.

Lemma open_up_to_exit header_level result st :
  header_level ≤ _opened_sections (final (open_up_to header_level result st)).
Proof. rewrite open_up_to_run. simpl. lia. Qed.

Lemma close_all_exit result st :
  _opened_sections (final (close_all result st)) ≤ 0.
Proof. rewrite close_all_run. simpl. lia. Qed.

Lemma sections_inv_depth base d0 st : sections_inv base d0 st → 0 ≤ _opened_sections st.
Proof.
  intros (evs & _ & Hd & Hk). rewrite Hd. specialize (Hk (length evs)).
  by rewrite take_ge in Hk.
Qed.

Lemma sections_inv_shift_open base d0 k st :
  sections_inv base d0 st → sections_inv base d0 (shift SectionOpen k st).
Proof.
  intros (evs & Hlog & Hd & Hk). exists (evs ++ replicate k SectionOpen).
  split_and!; simpl.
  - by rewrite Hlog, app_assoc.
  - rewrite depth_of_app, depth_of_replicate_open. lia.
  - intros j. rewrite take_app, take_replicate, depth_of_app, depth_of_replicate_open.
    destruct (decide (j ≤ length evs)%nat).
    + replace (j - length evs)%nat with 0%nat by lia. specialize (Hk j). lia.
    + rewrite take_ge by lia. specialize (Hk (length evs)).
      rewrite take_ge in Hk by lia. lia.
Qed.

Lemma sections_inv_shift_close base d0 k st :
  sections_inv base d0 st → Z.of_nat k ≤ _opened_sections st →
  sections_inv base d0 (shift SectionClose k st).
Proof.
  intros (evs & Hlog & Hd & Hk) Hle. exists (evs ++ replicate k SectionClose).
  split_and!; simpl.
  - by rewrite Hlog, app_assoc.
  - rewrite depth_of_app, depth_of_replicate_close. lia.
  - intros j. rewrite take_app, take_replicate, depth_of_app, depth_of_replicate_close.
    destruct (decide (j ≤ length evs)%nat).
    + replace (j - length evs)%nat with 0%nat by lia. specialize (Hk j). lia.
    + rewrite take_ge by lia. lia.
Qed.

Lemma keeps_close_down_to header_level result :
  1 ≤ header_level → keeps (close_down_to header_level result).
Proof.
  intros Hl base d0 st Hst. rewrite close_down_to_run. simpl.
  pose proof (sections_inv_depth _ _ st Hst).
  apply sections_inv_shift_close; [done|lia].
Qed.

Lemma keeps_open_up_to header_level result : keeps (open_up_to header_level result).
Proof.
  intros base d0 st Hst. rewrite open_up_to_run. simpl. by apply sections_inv_shift_open.
Qed.

Lemma keeps_close_all result : keeps (close_all result).
Proof.
  intros base d0 st Hst. rewrite close_all_run. simpl.
  pose proof (sections_inv_depth _ _ st Hst).
  apply sections_inv_shift_close; [done|lia].
Qed.

(** *** Headings *)

Lemma lstrip_snoc cs (l : text) c :
  cs c = false → lstrip cs (l ++ [c]) = lstrip cs l ++ [c].
Proof.
  intros Hc. induction l as [|a l IH]; simpl; [by rewrite Hc|].
  by destruct (cs a).
Qed.

Lemma strip_keeps_first cs c (s : text) :
  cs c = false → ∃ r, strip cs (c :: s) = c :: r.
Proof.
  intros Hc. unfold strip, rstrip. simpl. rewrite Hc.
  rewrite reverse_cons, lstrip_snoc by done.
  rewrite reverse_app. simpl. eauto.
Qed.

Lemma count_hashes_heading r :
  count_hashes ("#"%char :: r) = inl IndexError ∨
  ∃ n, count_hashes ("#"%char :: r) = inr (S n).
Proof.
  simpl. destruct (count_hashes r) as [e|n] eqn:Hr; [|eauto].
  left. f_equal. revert e Hr. induction r as [|c r IH]; simpl; [congruence|].
  destruct (is_char "#" c); [|done].
  destruct (count_hashes r) as [e'|]; [|done]. intros e [= <-]. by apply IH.
Qed.

Lemma keeps_prop props key none : keeps (prop props key none).
Proof. unfold prop. keeps_auto. Qed.

#[local] Hint Resolve keeps_prop keeps_open_up_to keeps_close_all : keeps.

Lemma keeps_bind_lift {A B} (r : exn + A) (k : A → M B) :
  (∀ a, r = inr a → keeps (k a)) → keeps (bind (lift r) k).
Proof.
  intros Hk. destruct r as [e|a]; [by intros base d0 st|].
  intros base d0 st Hst. by apply (Hk a).
Qed.

Lemma keeps_process_heading node r props :
  keeps (_process_heading node ("#"%char :: r) props).
Proof.
  unfold _process_heading.
  destruct (strip_keeps_first (is_char LF) "#" r eq_refl) as (r' & ->).
  apply keeps_bind; [keeps_auto|]. intros [|]; [keeps_auto|].
  cbv zeta. apply keeps_bind_lift. intros header_level Hl.
  destruct (count_hashes_heading r') as [H|(n & H)]; rewrite H in Hl; [done|].
  injection Hl as <-.
  apply keeps_bind; [apply keeps_close_down_to; lia|]. intros result.
  keeps_auto.
Qed.

(** A heading token starts with the [#] that its pattern starts with. *)
Lemma heading_spec_shape :
  Forall (λ ns : string * pattern,
            ns.1 = "heading" → ∃ q, ns.2 = PCat (PPlus (one "#")) q)
    docstring_compiled.
Proof.
  vm_compute.
  repeat (constructor; [intros H; first [discriminate H | eexists; reflexivity]|]).
  constructor.
Qed.

Lemma scan_heading_token (para : text) (tok : token) :
  tok ∈ (scan docstring_regex para).1 →
  tok_kind tok = "heading" →
  ∃ r, tok_text tok = "#"%char :: r.
Proof.
  intros Hin Hkind.
  destruct (scan_loop_tokens _ _ _ _ 0%nat ltac:(lia) Hin)
    as [[Hk _]|(m & pos & props & Hpos & Hs & Hlg & Htext & _)]; [congruence|].
  destruct (search_spec _ _ _ _ Hpos Hs) as (st & _ & Hrun & Hend & _ & Hlast & Hlen).
  rewrite docstring_regex_eq in Hrun.
  apply make_regex_match in Hrun as (name & spec & Hspec & Hrun & Hname & _);
    [|by vm_compute].
  assert (name = "heading") as -> by congruence.
  pose proof heading_spec_shape as Hshape.
  rewrite Forall_forall in Hshape. destruct (Hshape _ Hspec eq_refl) as (q & Hq).
  simpl in Hq. subst spec. simpl in Hrun.
  apply list_elem_of_fmap in Hrun as (st1 & _ & Hrun).
  apply (run_plus_first _ q) in Hrun as (c & r & Hrest & Hc). simpl in Hrest.
  apply cs_mem_one in Hc as <-.
  assert (Hmin : min_len docstring_regex = 1%nat) by by vm_compute.
  rewrite Htext. unfold slice. rewrite Hrest.
  destruct (m_end m - m_start m)%nat as [|k] eqn:Hk; [lia|]. simpl. eauto.
Qed.

Section KeepsFormat.

Context (self : formatter).

#[local] Hint Resolve keeps_format_xref keeps_resolve_implicit_links : keeps.

Lemma keeps_process_token format_inline node tok :
  (∀ node para, keeps (format_inline node para)) →
  (tok_kind tok = "heading" → ∃ r, tok_text tok = "#"%char :: r) →
  keeps (_process_token self format_inline node tok).
Proof.
  intros Hrec Hheading. unfold _process_token, dispatch. cbn [find_map fst snd].
  repeat (case_decide as Hkind; [|clear Hkind]); [..|apply keeps_raise].
  15: { destruct Hheading as (r & ->); [done|]. apply keeps_process_heading. }
  all: clear Hheading Hkind.
  all: unfold _process_other, _process_property, _process_signal, _process_type_name,
         _process_enum_value, _process_parameter, _process_function_call,
         _process_code_start, _process_code_start_with_language, _process_code_end,
         _process_new_line, _process_new_paragraph, _process_include, _process_note.
  all: keeps_auto.
Qed.

Lemma keeps_format_inline depth : ∀ node para, keeps (format_inline self depth node para).
Proof.
  induction depth as [|depth IH]; intros node para; cbn [format_inline];
    [apply keeps_raise|].
  destruct (scan docstring_regex para) as [tokens fin] eqn:Hscan.
  apply keeps_bind; [|intros; keeps_auto].
  apply keeps_mapM. intros tok Hin. apply keeps_process_token; [done|].
  apply (scan_heading_token para). by rewrite Hscan.
Qed.

Lemma keeps_format depth node doc : keeps (format self depth node doc).
Proof.
  unfold format. destruct doc as [doc|]; [|apply keeps_ret].
  cbv zeta. apply keeps_bind; [keeps_auto|]. intros processing_code.
  apply keeps_bind; [apply keeps_format_inline|]. intros inline. keeps_auto.
Qed.

Lemma sections_inv_start st :
  _opened_sections st = 0 → sections_inv (section_log st) 0 st.
Proof.
  intros Hst. exists []. rewrite app_nil_r, Hst. split_and!; [done|done|].
  intros k. by rewrite take_nil.
Qed.

(** A [format] that returns has closed every section. *)
Lemma format_closes_sections base d0 depth node doc st out st' :
  sections_inv base d0 st →
  format self depth node (Some doc) st = Ok out st' →
  _opened_sections st' = 0.
Proof.
  intros Hinv Hok.
  apply (keeps_format depth node (Some doc)) in Hinv.
  rewrite Hok in Hinv. simpl in Hinv. apply sections_inv_depth in Hinv.
  unfold format, bind, gets in Hok.
  destruct (format_inline self depth node doc st) as [inline st1|]; [|done].
  match type of Hok with
  | close_all ?r ?s = _ => pose proof (close_all_exit r s) as Hle
  end.
  rewrite Hok in Hle. simpl in Hle. lia.
Qed.

(** C1.  From a state where no section is open, which is the state that
    [__init__] and every [format] that returns leave: whatever the document
    and however [format] ends, the depth of open sections is never negative
    while it runs; and when [format] returns, the depth is 0 again and as
    many sections have been closed as have been opened, whatever levels the
    headings skip. *)
Theorem C1_sections_balanced (depth : nat) (node : node) (doc : text)
    (st : fstate) :
  _opened_sections st = 0 →
  ∃ evs,
    section_log (final (format self depth node (Some doc) st)) = section_log st ++ evs ∧
    (∀ k, 0 ≤ depth_of (take k evs)) ∧
    ∀ out st', format self depth node (Some doc) st = Ok out st' →
      _opened_sections st' = 0 ∧ opens evs = closes evs.
Proof.
  intros Hst. pose proof (sections_inv_start st Hst) as Hinv.
  apply (keeps_format depth node (Some doc)) in Hinv as Hfin.
  destruct Hfin as (evs & Hlog & Hd & Hk). exists evs.
  split_and!; [done|intros k; specialize (Hk k); lia|].
  intros out st' Hok.
  pose proof (format_closes_sections _ _ _ _ _ _ _ _ Hinv Hok) as H0.
  rewrite Hok in Hd. simpl in Hd.
  split; [done|]. rewrite H0 in Hd. unfold depth_of in Hd. lia.
Qed.

End KeepsFormat.

Lemma C1_witness :
  ∃ evs,
    section_log (final (format (sample_formatter false) 1 widget
                          (Some (txt "# A" ++ [LF] ++ txt "### B")) init_state))
    = section_log init_state ++ evs ∧
    (∀ k, 0 ≤ depth_of (take k evs)) ∧
    ∀ out st',
      format (sample_formatter false) 1 widget
        (Some (txt "# A" ++ [LF] ++ txt "### B")) init_state = Ok out st' →
      _opened_sections st' = 0 ∧ opens evs = closes evs.
Proof.
  apply (C1_sections_balanced (sample_formatter false) 1 widget
           (txt "# A" ++ [LF] ++ txt "### B") init_state).
  reflexivity.
Defined.

Example skipped_levels :
  ∃ out st',
    format (sample_formatter false) 1 widget (Some (txt "# A" ++ [LF] ++ txt "### B"))
      init_state = Ok out st' ∧
    section_log st' = [SectionOpen; SectionOpen; SectionOpen;
                       SectionClose; SectionClose; SectionClose].
Proof. eexists _, _. split; by vm_compute. Qed.

(** ** The end of a document *)

(** C2, as the code has it.  [format] writes the paragraph around what
    [format_inline] returns, unless a code block was open when it was
    called, and after the closing [</p>] one [</section>] for each section
    that [format_inline] has left open: the sections are closed after the
    last paragraph, not before. *)
Theorem C2_sections_after_paragraph (self : formatter) (depth : nat) (node : node)
    (doc : text) (st : fstate) (out : text) (st' : fstate) :
  format self depth node (Some doc) st = Ok out st' →
  ∃ inline st1,
    format_inline self depth node doc st = Ok inline st1 ∧
    out = (if _processing_code st then inline else txt "<p>" ++ inline ++ txt "</p>")
          ++ concat (replicate (Z.to_nat (_opened_sections st1)) (txt "</section>")) ∧
    st' = shift SectionClose (Z.to_nat (_opened_sections st1)) st1.
Proof.
  unfold format, bind, gets.
  destruct (format_inline self depth node doc st) as [inline st1|]; [|done].
  rewrite close_all_run. intros [= <- <-]. exists inline, st1.
  split_and!; [done| |done]. f_equal.
  destruct (_processing_code st); cbn [negb]; [done|].
  by rewrite <- app_assoc.
Qed.

Lemma C2_witness :
  ∃ inline st1,
    format_inline (sample_formatter false) 1 widget (txt "# T") init_state = Ok inline st1 ∧
    txt "<p></p><section><title>T</title><p></p></section>"
    = (if _processing_code init_state then inline else txt "<p>" ++ inline ++ txt "</p>")
      ++ concat (replicate (Z.to_nat (_opened_sections st1)) (txt "</section>")) ∧
    FState false 0 [] [] [SectionOpen; SectionClose]
    = shift SectionClose (Z.to_nat (_opened_sections st1)) st1.
Proof.
  apply (C2_sections_after_paragraph (sample_formatter false) 1 widget (txt "# T")
           init_state).
  vm_compute. reflexivity.
Defined.

Lemma C2_counterexample : ¬ C2_as_specified (sample_formatter false).
Proof.
  intros H.
  specialize (H 1%nat widget (txt "# T") init_state
                (txt "<p></p><section><title>T</title><p></p></section>")
                (FState false 0 [] [] [SectionOpen; SectionClose])
                (txt "</p><section><title>T</title><p>")
                (FState false 1 [] [] [SectionOpen])
                eq_refl).
  assert (Hf : format (sample_formatter false) 1 widget (Some (txt "# T")) init_state
               = Ok (txt "<p></p><section><title>T</title><p></p></section>")
                   (FState false 0 [] [] [SectionOpen; SectionClose])) by by vm_compute.
  assert (Hi : format_inline (sample_formatter false) 1 widget (txt "# T") init_state
               = Ok (txt "</p><section><title>T</title><p>")
                   (FState false 1 [] [] [SectionOpen])) by by vm_compute.
  specialize (H Hf Hi). vm_compute in H. discriminate H.
Qed.

(** ** One document after another *)

Lemma same_mode_refl st : same_mode st st.
Proof. by split. Qed.

Lemma same_mode_sym st1 st2 : same_mode st1 st2 → same_mode st2 st1.
Proof. intros [? ?]. split; congruence. Qed.

Lemma same_mode_trans st1 st2 st3 :
  same_mode st1 st2 → same_mode st2 st3 → same_mode st1 st3.
Proof. intros [? ?] [? ?]. split; congruence. Qed.

Lemma related_ret {A} (a : A) : related (ret a) (ret a).
Proof. by intros st1 st2. Qed.

Lemma related_raise {A} e : related (@raise A e) (raise e).
Proof. by intros st1 st2. Qed.

Lemma related_lift {A} (r : exn + A) : related (lift r) (lift r).
Proof. destruct r; [apply related_raise|apply related_ret]. Qed.

Lemma related_processing_code : related (gets _processing_code) (gets _processing_code).
Proof. by intros st1 st2 [? ?]. Qed.

Lemma related_opened_sections : related (gets _opened_sections) (gets _opened_sections).
Proof. by intros st1 st2 [? ?]. Qed.

Lemma related_warn msg : related (warn msg) (warn msg).
Proof. by intros st1 st2 [? ?]. Qed.

Lemma related_set_processing_code b :
  related (set_processing_code b) (set_processing_code b).
Proof. by intros st1 st2 [? ?]. Qed.

Lemma related_emit_section ev : related (emit_section ev) (emit_section ev).
Proof. intros st1 st2 [? ?]. split; [done|]. split; simpl; [done|]. by destruct ev; f_equal. Qed.

Lemma related_bind {A B} (m1 m2 : M A) (k1 k2 : A → M B) :
  related m1 m2 → (∀ a, related (k1 a) (k2 a)) → related (bind m1 k1) (bind m2 k2).
Proof.
  intros Hm Hk st1 st2 Hst. unfold bind. specialize (Hm st1 st2 Hst).
  destruct (m1 st1) as [a1 st1'|e1 st1'], (m2 st2) as [a2 st2'|e2 st2']; try done.
  destruct Hm as [-> Hst']. by apply Hk.
Qed.

Lemma related_mapM {A B} (f : A → M B) (l : list A) :
  (∀ a, related (f a) (f a)) → related (mapM f l) (mapM f l).
Proof.
  intros H. induction l as [|a l IH]; simpl; [apply related_ret|].
  apply related_bind; [apply H|]. intros b.
  apply related_bind; [apply IH|]. intros bs. apply related_ret.
Qed.

Lemma quiet_related (m1 m2 : M unit) : quiet m1 → quiet m2 → related m1 m2.
Proof.
  intros H1 H2 st1 st2 Hst.
  destruct (H1 st1) as (st1' & -> & Hst1), (H2 st2) as (st2' & -> & Hst2).
  split; [done|].
  eauto using same_mode_trans, same_mode_sym.
Qed.

Lemma quiet_ret : quiet (ret ()).
Proof. intros st. exists st. split; [done|apply same_mode_refl]. Qed.

Lemma quiet_warn_add_warned msg name : quiet (warn msg;; add_warned name).
Proof. intros st. eexists. split; [done|]. by split. Qed.

(** What is read of the state only decides what is warned about. *)
Lemma related_gets_quiet {A B} (f : fstate → A) (w : A → M unit) (k : M B) :
  (∀ a, quiet (w a)) → related k k →
  related (let* a := gets f in w a;; k) (let* a := gets f in w a;; k).
Proof.
  intros Hw Hk st1 st2 Hst. unfold bind at 1 3. unfold gets.
  apply related_bind; [|done|done]. by apply quiet_related.
Qed.

Create HintDb related discriminated.

#[local] Hint Resolve related_ret related_raise related_lift related_processing_code
  related_opened_sections related_warn related_set_processing_code
  related_emit_section : related.

Ltac related_step :=
  first
    [ solve [auto with related nocore]
    | apply related_bind; [|intros ?]
    | progress cbv zeta
    | progress unfold with_namespace
    | match goal with
      | |- related (match ?x with _ => _ end) _ => destruct x
      end ].

Ltac related_auto := repeat related_step.

Section Related.

Context (self : formatter).

Lemma related_format_internal_xref n ad ln pl :
  related (format_internal_xref self n ad ln pl) (format_internal_xref self n ad ln pl).
Proof. unfold format_internal_xref. related_auto. Qed.

Lemma related_format_gtk_doc_attributes n ad :
  related (format_gtk_doc_attributes self n ad) (format_gtk_doc_attributes self n ad).
Proof.
  unfold format_gtk_doc_attributes, with_namespace.
  destruct (n_namespace n) as [| |ns]; [related_auto..|].
  destruct (_find_reference self ns) as [ref exact].
  apply related_gets_quiet.
  - intros warned. repeat (case_match; try apply quiet_warn_add_warned; try apply quiet_ret).
  - related_auto.
Qed.

#[local] Hint Resolve related_format_internal_xref related_format_gtk_doc_attributes
  : related.

Lemma related_format_external_xref n ad ln pl :
  related (format_external_xref self n ad ln pl) (format_external_xref self n ad ln pl).
Proof. unfold format_external_xref. related_auto. Qed.

#[local] Hint Resolve related_format_external_xref : related.

Lemma related_format_xref_node : ∀ n pl ln ad,
  related (format_xref_node self n pl ln ad) (format_xref_node self n pl ln ad).
Proof.
  fix IH 1. intros [cls name ns parent cl sh pr sg] pl ln ad.
  cbn [format_xref_node]. related_auto.
Qed.

#[local] Hint Resolve related_format_xref_node : related.

Lemma related_format_xref n pl ln ad :
  related (format_xref self n pl ln ad) (format_xref self n pl ln ad).
Proof. unfold format_xref. related_auto. Qed.

#[local] Hint Resolve related_format_xref : related.

Lemma related_collect_links s : ∀ acc,
  related (collect_links self s acc) (collect_links self s acc).
Proof.
  induction s as [|w s IH]; intros acc; cbn [collect_links]; related_auto.
Qed.

#[local] Hint Resolve related_collect_links : related.

Lemma related_resolve_implicit_links match_ :
  related (_resolve_implicit_links self match_) (_resolve_implicit_links self match_).
Proof. unfold _resolve_implicit_links. related_auto. Qed.

Lemma related_prop props key none : related (prop props key none) (prop props key none).
Proof. unfold prop. related_auto. Qed.

Lemma related_section_loop cond ev : ∀ n result,
  related (section_loop n cond ev result) (section_loop n cond ev result).
Proof.
  induction n as [|n IH]; intros result; cbn [section_loop]; related_auto.
Qed.

#[local] Hint Resolve related_resolve_implicit_links related_prop related_section_loop
  : related.

Lemma related_process_token format_inline node tok :
  (∀ node para, related (format_inline node para) (format_inline node para)) →
  related (_process_token self format_inline node tok)
          (_process_token self format_inline node tok).
Proof.
  intros Hrec. unfold _process_token, dispatch. cbn [find_map fst snd].
  repeat (case_decide as Hkind; [|clear Hkind]); [..|apply related_raise].
  all: clear Hkind.
  all: unfold _process_other, _process_property, _process_signal, _process_type_name,
         _process_enum_value, _process_parameter, _process_function_call,
         _process_code_start, _process_code_start_with_language, _process_code_end,
         _process_new_line, _process_new_paragraph, _process_include, _process_note,
         _process_heading, close_down_to, open_up_to.
  all: related_auto.
Qed.

Lemma related_format_inline depth : ∀ node para,
  related (format_inline self depth node para) (format_inline self depth node para).
Proof.
  induction depth as [|depth IH]; intros node para; cbn [format_inline];
    [apply related_raise|].
  destruct (scan docstring_regex para) as [tokens fin].
  apply related_bind; [|intros; related_auto].
  apply related_mapM. intros tok. by apply related_process_token.
Qed.

#[local] Hint Resolve related_format_inline : related.

(** [format] reads of the state only [_processing_code] and
    [_opened_sections]. *)
Lemma related_format depth node doc :
  related (format self depth node doc) (format self depth node doc).
Proof. unfold format, close_all. related_auto. Qed.

End Related.

(** C8, as the code has it.  [format] reads of the formatter's state only
    [_processing_code] and [_opened_sections].  A [format] that returns
    leaves no section open, but it leaves the code flag as the document
    left it: a document is formatted after another one as it is in a
    formatter just made when the other one has left no code block open.
    What has been warned about never changes what is written. *)
Theorem C8_noninterference (self : formatter) (st : fstate)
    (depthA : nat) (nodeA : node) (docA : text) (outA : text) (stA : fstate)
    (depthB : nat) (nodeB : node) (docB : option text) :
  _opened_sections st = 0 →
  format self depthA nodeA (Some docA) st = Ok outA stA →
  _processing_code stA = false →
  same_outcome (format self depthB nodeB docB stA)
               (format self depthB nodeB docB init_state).
Proof.
  intros Hst HA Hcode. apply related_format. split; [done|].
  apply (format_closes_sections self _ _ _ _ _ _ _ _ (sections_inv_start st Hst) HA).
Qed.

Lemma C8_witness :
  same_outcome
    (format (sample_formatter false) 1 widget (Some (txt "x"))
       (FState false 0 [] [] [SectionOpen; SectionClose]))
    (format (sample_formatter false) 1 widget (Some (txt "x")) init_state).
Proof.
  apply (C8_noninterference (sample_formatter false) init_state
           1 widget (txt "# T") (txt "<p></p><section><title>T</title><p></p></section>")
           (FState false 0 [] [] [SectionOpen; SectionClose])
           1 widget (Some (txt "x"))).
  - reflexivity.
  - vm_compute. reflexivity.
  - reflexivity.
Defined.

Lemma C8_counterexample : ¬ C8_as_specified (sample_formatter false).
Proof.
  intros H.
  specialize (H 1%nat widget (txt "|[") (txt "<p></p><code></p>")
                (FState true 0 [] [] []) widget (txt "x")).
  assert (HA : format (sample_formatter false) 1 widget (Some (txt "|[")) init_state
               = Ok (txt "<p></p><code></p>") (FState true 0 [] [] [])) by by vm_compute.
  specialize (H HA). vm_compute in H. discriminate H.
Qed.

(** ** The scenarios of the specification, in the small world *)

Example scenario_plain_text :
  format (sample_formatter false) 1 widget (Some (txt "Just some text, no markup."))
    init_state
  = Ok (txt "<p>Just some text, no markup.</p>") init_state.
Proof. by vm_compute. Qed.

Example scenario_function_call :
  format (sample_formatter false) 1 widget (Some (txt "Call gtk_widget_show() to start."))
    init_state
  = Ok (txt "<p>Call <link xref=" ++ quoted (txt "Gtk.Widget.show") ++ txt "/> to start.</p>")
      init_state.
Proof. by vm_compute. Qed.

Example scenario_heading :
  format (sample_formatter false) 1 widget
    (Some (txt "# Title" ++ [LF; LF] ++ txt "Body #Foo text")) init_state
  = Ok (txt "<p></p><section><title>Title</title><p></p><p>Body #Foo text</p></section>")
      (FState false 0 [] [] [SectionOpen; SectionClose]).
Proof. by vm_compute. Qed.

Example scenario_code_block :
  format (sample_formatter false) 1 widget
    (Some (txt "|[<!-- language=" ++ quoted (txt "Python") ++ txt " -->" ++ [LF]
           ++ txt "code" ++ [LF] ++ txt "]|")) init_state
  = Ok (txt "<p></p><code mime=" ++ quoted (txt "text/x-python") ++ txt ">" ++ [LF]
        ++ txt "code" ++ [LF] ++ txt "</code><p></p>")
      init_state.
Proof. by vm_compute. Qed.

Example scenario_missing_include :
  format (sample_formatter false) 1 widget (Some (txt "{{ missing.txt }}")) init_state
  = Ok (txt "<p>{{ missing.txt }}</p>")
      (FState false 0 [] [txt "Could not find file missing.txt "] []).
Proof. by vm_compute. Qed.

(** A heading without a title, at the end of a line: the loop that counts
    the [#] runs off the end of the match. *)
Example heading_without_title :
  format (sample_formatter false) 1 widget (Some (txt "#" ++ [LF])) init_state
  = Raise IndexError init_state.
Proof. by vm_compute. Qed.

(** * Further properties *)

(** ** The grammar compiler *)

Lemma unmangle_unfold fuel specdict spec name :
  unmangle fuel specdict spec name =
  match spec with
  | PCat p q =>
      match unmangle fuel specdict p name, unmangle fuel specdict q name with
      | inr p', inr q' => inr (PCat p' q')
      | inl e, _ | inr _, inl e => inl e
      end
  | PAlt p q =>
      match unmangle fuel specdict p name, unmangle fuel specdict q name with
      | inr p', inr q' => inr (PAlt p' q')
      | inl e, _ | inr _, inl e => inl e
      end
  | PGroup g p =>
      match unmangle fuel specdict p name with
      | inr p' => inr (PGroup g p')
      | inl e => inl e
      end
  | PRef alias child_spec_name =>
      match specdict !! child_spec_name with
      | None => inl KeyError
      | Some child_spec =>
          match fuel with
          | O => inl RuntimeError
          | S fuel' =>
              match unmangle fuel' specdict child_spec None with
              | inr unmangled =>
                  match truthy alias, truthy name with
                  | Some pattern_name, Some name =>
                      inr (PGroup (Some (name +:+ "_" +:+ pattern_name)) unmangled)
                  | _, _ => inr unmangled
                  end
              | inl e => inl e
              end
          end
      end
  | _ => inr spec
  end.
Proof. destruct fuel, spec; reflexivity. Qed.

Lemma unmangle_no_ref specdict : ∀ fuel spec name r,
  unmangle fuel specdict spec name = inr r → has_ref r = false.
Proof.
  induction fuel as [|fuel IHf]; intros spec; induction spec as
    [|cs|cs|cs|p IHp q IHq|p IHp q IHq|g p IHp|alias child];
    intros name r; rewrite unmangle_unfold;
    try (intros [= <-]; reflexivity).
  all: try (destruct (unmangle _ specdict p name) as [?|p'] eqn:Hp; [done|];
            destruct (unmangle _ specdict q name) as [?|q'] eqn:Hq; [done|];
            intros [= <-]; simpl; by rewrite (IHp _ _ Hp), (IHq _ _ Hq)).
  all: try (destruct (unmangle _ specdict p name) as [?|p'] eqn:Hp; [done|];
            intros [= <-]; simpl; by apply (IHp _ _ Hp)).
  - by destruct (specdict !! child).
  - destruct (specdict !! child) as [child_spec|]; [|done].
    destruct (unmangle fuel specdict child_spec None) as [?|u] eqn:Hu; [done|].
    apply IHf in Hu. destruct (truthy alias), (truthy name); intros [= <-]; done.
Qed.

Lemma unmangle_unknown_ref specdict : ∀ fuel spec name child,
  child ∈ refs spec → specdict !! child = None →
  ∃ e, unmangle fuel specdict spec name = inl e.
Proof.
  intros fuel spec name child. revert name.
  induction spec as [|cs|cs|cs|p IHp q IHq|p IHp q IHq|g p IHp|alias c];
    intros name Hin Hnone; rewrite unmangle_unfold; simpl in Hin;
    try by apply elem_of_nil in Hin.
  - apply elem_of_app in Hin as [Hin|Hin].
    + destruct (IHp name Hin Hnone) as (e & ->). eauto.
    + destruct (IHq name Hin Hnone) as (e & ->).
      destruct (unmangle fuel specdict p name); eauto.
  - apply elem_of_app in Hin as [Hin|Hin].
    + destruct (IHp name Hin Hnone) as (e & ->). eauto.
    + destruct (IHq name Hin Hnone) as (e & ->).
      destruct (unmangle fuel specdict p name); eauto.
  - destruct (IHp name Hin Hnone) as (e & ->). eauto.
  - apply list_elem_of_singleton in Hin as <-. rewrite Hnone. eauto.
Qed.

Lemma unmangle_all_spec fuel specdict : ∀ specs specs',
  unmangle_all fuel specdict specs = inr specs' →
  specs'.*1 = specs.*1 ∧ ∀ ns, ns ∈ specs' → has_ref ns.2 = false.
Proof.
  induction specs as [|[name spec] specs IH]; intros specs'; simpl.
  - intros [= <-]. split; [done|]. by intros ns ?%elem_of_nil.
  - destruct (unmangle fuel specdict spec (Some name)) as [?|spec'] eqn:Hs; [done|].
    destruct (unmangle_all fuel specdict specs) as [?|rest] eqn:Hr; [done|].
    intros [= <-]. destruct (IH rest eq_refl) as [Hn Hp]. split; simpl.
    + f_equal. exact Hn.
    + intros ns [->|?]%elem_of_cons; [|by apply Hp].
      simpl. by apply unmangle_no_ref in Hs.
Qed.

(** X1.  When [unmangle_specs] succeeds, the specs it returns have the names
    of the specs it was given, in the same order, and no placeholder is left
    in any of them. *)
Theorem unmangle_specs_closed (specs specs' : spec_list) :
  unmangle_specs specs = inr specs' →
  specs'.*1 = specs.*1 ∧ ∀ ns, ns ∈ specs' → has_ref ns.2 = false.
Proof. apply unmangle_all_spec. Qed.

Lemma unmangle_specs_closed_witness :
  docstring_compiled.*1 = docstring_specs.*1 ∧
  ∀ ns, ns ∈ docstring_compiled → has_ref ns.2 = false.
Proof.
  apply (unmangle_specs_closed docstring_specs docstring_compiled).
  vm_compute. reflexivity.
Defined.

Lemma specdict_lookup_None (specs : spec_list) child :
  child ∉ (lstrip_bang <$> specs.*1) →
  (list_to_map (reverse ((λ ns, (lstrip_bang ns.1, ns.2)) <$> specs))
     : gmap string pattern) !! child = None.
Proof.
  intros Hnot. apply not_elem_of_list_to_map_1.
  rewrite fmap_reverse, elem_of_reverse, <- list_fmap_compose.
  rewrite <- list_fmap_compose in Hnot. exact Hnot.
Qed.

(** X2.  A placeholder that names no spec is fatal: [unmangle_specs] raises
    when some spec has a placeholder whose name, the leading [!] apart, is
    the name of no spec of the list. *)
Theorem unmangle_specs_unknown_child (specs : spec_list) (name child : string)
    (spec : pattern) :
  (name, spec) ∈ specs →
  child ∈ refs spec →
  child ∉ (lstrip_bang <$> specs.*1) →
  ∃ e, unmangle_specs specs = inl e.
Proof.
  intros Hin Href Hnot. unfold unmangle_specs.
  pose proof (specdict_lookup_None specs child Hnot) as Hnone.
  revert Hnone. generalize (length specs).
  generalize (list_to_map (reverse ((λ ns, (lstrip_bang ns.1, ns.2)) <$> specs))
                : gmap string pattern).
  intros specdict fuel Hnone. clear Hnot.
  induction specs as [|[n s] specs IH]; [by apply elem_of_nil in Hin|].
  simpl. apply elem_of_cons in Hin as [[= <- <-]|Hin].
  - destruct (unmangle_unknown_ref specdict fuel spec (Some name) child Href Hnone)
      as (e & ->). eauto.
  - destruct (unmangle fuel specdict s (Some n)); [eauto|].
    destruct (IH Hin) as (e & ->). eauto.
Qed.

Lemma unmangle_specs_unknown_child_witness :
  ∃ e, unmangle_specs [("word", PRef None "letters")] = inl e.
Proof.
  apply (unmangle_specs_unknown_child [("word", PRef None "letters")]
           "word" "letters" (PRef None "letters")).
  - left.
  - left.
  - cbn. intros H%list_elem_of_singleton. discriminate H.
Defined.

(** ** What the scanner yields *)

Lemma run_alternation_bind ps st :
  ps ≠ [] → run (alternation ps) st = ps ≫= λ p, run p st.
Proof.
  induction ps as [|p ps IH]; [done|]. intros _.
  destruct ps as [|q ps].
  - simpl. by rewrite app_nil_r.
  - change (run (alternation (p :: q :: ps)) st)
      with (run p st ++ run (alternation (q :: ps)) st).
    rewrite IH by done. done.
Qed.

Lemma alternatives_app specs1 specs2 :
  alternatives (specs1 ++ specs2) = alternatives specs1 ++ alternatives specs2.
Proof. unfold alternatives, spec_list. by rewrite filter_app, fmap_app. Qed.

Lemma alternatives_cons ns specs :
  alternatives (ns :: specs) =
    if decide (startswith ns.1 "!" = false)
    then PGroup (Some ns.1) ns.2 :: alternatives specs else alternatives specs.
Proof. unfold alternatives, spec_list. rewrite filter_cons. by case_decide. Qed.

Lemma search_here regex s pos st :
  (pos ≤ length s)%nat →
  head (run regex (MState pos (drop pos s) [] None)) = Some st →
  search regex s pos = Some (Match pos (m_pos st) (m_spans st) (m_last st)).
Proof.
  intros Hpos Hh. unfold search. rewrite Nat.min_l by done.
  destruct (drop pos s); simpl; by rewrite Hh.
Qed.

(** X3.  The order of the specs decides between two that match at the same
    place: when no public spec listed before [name] matches at [pos] and
    [name] does, the match that [search] finds at [pos] is one of [name],
    whatever the specs listed after it would match. *)
Theorem first_spec_wins (specs1 specs2 : spec_list) (name : string) (spec : pattern)
    (s : text) (pos : nat) :
  (pos ≤ length s)%nat →
  startswith name "!" = false →
  (∀ ns, ns ∈ specs1 → startswith ns.1 "!" = false →
         run ns.2 (MState pos (drop pos s) [] None) = []) →
  run spec (MState pos (drop pos s) [] None) ≠ [] →
  ∃ m, search (make_regex (specs1 ++ (name, spec) :: specs2)) s pos = Some m
       ∧ m_start m = pos ∧ m_lastgroup m = Some name.
Proof.
  intros Hpos Hpub Hbefore Hhere.
  set (st0 := MState pos (drop pos s) [] None) in *.
  assert (H1 : alternatives specs1 ≫= (λ p, run p st0) = []).
  { clear -Hbefore. induction specs1 as [|ns specs1 IH]; [done|].
    rewrite alternatives_cons. case_decide as Hp.
    - simpl. rewrite (Hbefore ns); [|left|done]. simpl.
      apply IH. intros ns' ?. apply Hbefore. by right.
    - apply IH. intros ns' ?. apply Hbefore. by right. }
  destruct (run spec st0) as [|st1 l] eqn:Hrun; [done|].
  assert (Hh : head (run (make_regex (specs1 ++ (name, spec) :: specs2)) st0)
               = Some (close_group (Some name) (m_pos st0) st1)).
  { unfold make_regex. rewrite run_alternation_bind, alternatives_app, bind_app, H1.
    2: { rewrite alternatives_app, alternatives_cons, decide_True by done.
         by destruct (alternatives specs1). }
    rewrite alternatives_cons, decide_True by done.
    simpl. by rewrite Hrun. }
  eexists. split; [by apply search_here|]. done.
Qed.

Lemma first_spec_wins_witness :
  ∃ m, search (make_regex ([("newline", lit [LF])] ++
                           ("short", lit (txt "ab")) :: [("long", lit (txt "abc"))]))
              (txt "abc") 0 = Some m
       ∧ m_start m = 0%nat ∧ m_lastgroup m = Some "short".
Proof.
  apply (first_spec_wins [("newline", lit [LF])] [("long", lit (txt "abc"))]
           "short" (lit (txt "ab")) (txt "abc") 0).
  - simpl. lia.
  - reflexivity.
  - intros ns ->%list_elem_of_singleton _. reflexivity.
  - discriminate.
Defined.

Lemma make_regex_public specs st st' name :
  m_last st = None →
  st' ∈ run (make_regex specs) st → m_last st' = Some name →
  ∃ spec, (name, spec) ∈ specs ∧ startswith name "!" = false
          ∧ st' ∈ run (PGroup (Some name) spec) st
          ∧ group_names (PGroup (Some name) spec) ⊆ group_names (make_regex specs).
Proof.
  unfold make_regex. intros Hnone Hrun Hlast.
  destruct (alternatives specs) as [|p0 ps0] eqn:Halt.
  { simpl in Hrun. apply list_elem_of_singleton in Hrun as ->. congruence. }
  rewrite <- Halt in Hrun |- *.
  apply run_alternation in Hrun as [Hnil|(p & Hp & Hrun)].
  { by rewrite Hnil in Halt. }
  clear Halt.
  pose proof (group_names_alternation _ _ Hp) as Hsub.
  unfold alternatives in Hp.
  apply list_elem_of_fmap in Hp as ([name' spec] & -> & Hp).
  apply list_elem_of_filter in Hp as [Hpub Hp]. simpl in *.
  pose proof Hrun as Hl. apply list_elem_of_fmap in Hl as (st1 & -> & _).
  simpl in Hlast. injection Hlast as ->.
  exists spec. split_and!; auto.
Qed.

(** X4.  A private spec yields no token: the kind of a token is [other] or
    the name of a spec of the list that does not start with [!]. *)
Theorem scan_token_kinds (specs : spec_list) (s : text) (tok : token) :
  tok ∈ (scan (make_regex specs) s).1 →
  tok_kind tok = "other" ∨
  ∃ spec, (tok_kind tok, spec) ∈ specs ∧ startswith (tok_kind tok) "!" = false.
Proof.
  intros Hin.
  destruct (scan_loop_tokens _ s tok (S (length s)) 0 ltac:(lia) Hin) as [[? _]|Hm];
    [by left|].
  destruct Hm as (m & pos & props & Hpos & Hs & Hlg & _).
  destruct (search_spec _ _ _ _ Hpos Hs) as (st & _ & Hrun & _ & _ & Hl & _).
  rewrite Hl in Hlg.
  destruct (make_regex_public _ (MState _ _ _ None) _ _ eq_refl Hrun Hlg) as (spec & ? & ? & _).
  right. eauto.
Qed.

Lemma scan_token_kinds_witness :
  let tok := Token "code_end" (txt "]|") (Some {[ "code_end" := Some (txt "]|") ]}) in
  tok_kind tok = "other" ∨
  ∃ spec, (tok_kind tok, spec) ∈ docstring_compiled
          ∧ startswith (tok_kind tok) "!" = false.
Proof.
  intros tok. apply (scan_token_kinds docstring_compiled (txt "]|") tok).
  vm_compute. left.
Defined.

Lemma length_slice i j (s : text) :
  length (slice i j s) = ((j - i) `min` (length s - i))%nat.
Proof. unfold slice. by rewrite length_take, length_drop. Qed.

Lemma scan_loop_nonempty regex s tok :
  ∀ fuel pos, (pos ≤ length s)%nat →
  tok ∈ (scan_loop fuel regex s pos).1 →
  tok_props tok = None ∨ (1 ≤ min_len regex)%nat →
  tok_text tok ≠ [].
Proof.
  induction fuel as [|fuel IH]; intros pos Hpos; simpl; [by intros ?%elem_of_nil|].
  destruct (search regex s pos) as [m|] eqn:Hs; simpl.
  - destruct (search_spec _ _ _ _ Hpos Hs) as (st & Hstart & _ & _ & _ & _ & Hlen).
    assert (Hgap : tok ∈ (if decide (pos < m_start m)%nat
                          then [Token "other" (slice pos (m_start m) s) None] else [])
                   → tok_text tok ≠ []).
    { case_decide; [|by intros ?%elem_of_nil]. intros ->%list_elem_of_singleton.
      simpl. intros Hnil%(f_equal length). rewrite length_slice in Hnil.
      simpl in Hnil. lia. }
    destruct (m_lastgroup m) as [name|] eqn:Hlg; simpl; [|by auto].
    destruct (get_properties name _) as [e|props] eqn:Hp; simpl; [by auto|].
    specialize (IH (m_end m) ltac:(lia)).
    destruct (scan_loop fuel regex s (m_end m)) as [rest fin]. simpl in *.
    intros [Hin|Hin]%elem_of_app; [by auto|].
    apply elem_of_cons in Hin as [->|Hin]; [|by auto].
    simpl. intros [?|Hmin]; [done|].
    intros Hnil%(f_equal length). rewrite length_slice in Hnil. simpl in Hnil. lia.
  - case_decide; [|by intros ?%elem_of_nil]. intros ->%list_elem_of_singleton _.
    simpl. intros Hnil%(f_equal length). rewrite length_drop in Hnil.
    simpl in Hnil. lia.
Qed.

(** X5.  No token is empty that stands for the text between two matches, and
    none at all when the pattern matches no empty text. *)
Theorem scan_tokens_nonempty (regex : pattern) (s : text) (tok : token) :
  tok ∈ (scan regex s).1 →
  tok_props tok = None ∨ (1 ≤ min_len regex)%nat →
  tok_text tok ≠ [].
Proof. apply scan_loop_nonempty. lia. Qed.

Lemma scan_tokens_nonempty_witness :
  tok_text (Token "other" (txt "a") None) ≠ [].
Proof.
  apply (scan_tokens_nonempty docstring_regex (txt "a]|")).
  - vm_compute. left.
  - right. vm_compute. lia.
Defined.

Lemma head_search_from regex : ∀ rest pos m,
  search_from regex rest pos = Some m →
  ∃ i, m_start m = (pos + i)%nat ∧ (i ≤ length rest)%nat ∧
       search_from regex (drop i rest) (pos + i) = Some m.
Proof.
  induction rest as [|c rest IH]; intros pos m; simpl.
  - destruct (head _) as [st|] eqn:Hh; [|done]. intros [= <-].
    exists 0%nat. rewrite Nat.add_0_r. simpl. by rewrite Hh.
  - destruct (head _) as [st|] eqn:Hh.
    + intros [= <-]. exists 0%nat. rewrite Nat.add_0_r. simpl. rewrite Hh.
      split_and!; auto. lia.
    + intros (i & ? & ? & ?)%IH. exists (S i).
      replace (pos + S i)%nat with (S pos + i)%nat by lia. simpl.
      split_and!; auto. lia.
Qed.

(** A match found from [pos] is found again from where it starts. *)
Lemma search_again regex s pos m :
  (pos ≤ length s)%nat →
  search regex s pos = Some m → search regex s (m_start m) = Some m.
Proof.
  intros Hpos. unfold search. rewrite Nat.min_l by done.
  intros (i & Hstart & Hi & Hs)%head_search_from.
  rewrite length_drop in Hi. rewrite drop_drop, <- Hstart in Hs.
  rewrite Nat.min_l by lia. done.
Qed.

Lemma scan_loop_stuck regex s m :
  search regex s (m_start m) = Some m → m_end m = m_start m →
  ∀ fuel, (scan_loop fuel regex s (m_start m)).2 ≠ Returns.
Proof.
  intros Hs Hempty. induction fuel as [|fuel IH]; simpl; [done|].
  rewrite Hs. destruct (m_lastgroup m); [|done].
  destruct (get_properties _ _); [done|].
  rewrite Hempty. destruct (scan_loop fuel regex s (m_start m)). done.
Qed.

(** X6.  An empty match stops the scanner for good: when the first match
    that [search] finds from [pos] is empty, [scan] from [pos] raises or
    goes on for ever, and never returns. *)
Theorem empty_match_never_returns (regex : pattern) (s : text) (pos : nat)
    (m : match_obj) (fuel : nat) :
  (pos ≤ length s)%nat →
  search regex s pos = Some m →
  m_end m = m_start m →
  (scan_loop fuel regex s pos).2 ≠ Returns.
Proof.
  intros Hpos Hs Hempty. destruct fuel as [|fuel]; simpl; [done|].
  rewrite Hs. destruct (m_lastgroup m); [|done].
  destruct (get_properties _ _); [done|].
  pose proof (scan_loop_stuck regex s m (search_again _ _ _ _ Hpos Hs) Hempty fuel) as H.
  rewrite Hempty. destruct (scan_loop fuel regex s (m_start m)). done.
Qed.

Lemma empty_match_never_returns_witness :
  (scan_loop 100 (make_regex [("spaces", PStar ws)]) (txt "ab") 0).2 ≠ Returns.
Proof.
  apply (empty_match_never_returns (make_regex [("spaces", PStar ws)]) (txt "ab") 0
           (Match 0 0 [("spaces", (0, 0)%nat)] (Some "spaces")) 100).
  - simpl. lia.
  - reflexivity.
  - reflexivity.
Defined.

(** ** The properties a handler reads *)

Lemma run_spans p : ∀ st st',
  st' ∈ run p st →
  (∀ g, g ∈ mandatory_groups p → g ∈ (m_spans st').*1) ∧
  (∀ g, g ∈ (m_spans st).*1 → g ∈ (m_spans st').*1).
Proof.
  induction p as [|cs|cs|cs|p IHp q IHq|p IHp q IHq|name p IHp|alias child];
    intros st st' Hin; simpl in Hin.
  - apply list_elem_of_singleton in Hin as ->. split; [by intros g ?%elem_of_nil|done].
  - destruct (m_rest st) as [|c r]; [by apply elem_of_nil in Hin|].
    destruct (cs_mem cs c); [|by apply elem_of_nil in Hin].
    apply list_elem_of_singleton in Hin as ->. split; [by intros g ?%elem_of_nil|done].
  - apply list_elem_of_fmap in Hin as (k & -> & _).
    split; [by intros g ?%elem_of_nil|done].
  - apply list_elem_of_fmap in Hin as (k & -> & _).
    split; [by intros g ?%elem_of_nil|done].
  - apply list_elem_of_bind in Hin as (st1 & Hq & Hp).
    apply IHp in Hp as [Hp1 Hp2]. apply IHq in Hq as [Hq1 Hq2].
    split; [|by auto]. simpl. intros g [?|?]%elem_of_app; auto.
  - split; [by intros g ?%elem_of_nil|].
    apply elem_of_app in Hin as [Hin|Hin]; [by apply IHp in Hin as [_ ?]|
                                            by apply IHq in Hin as [_ ?]].
  - apply list_elem_of_fmap in Hin as (st1 & -> & Hin).
    apply IHp in Hin as [H1 H2]. destruct name as [g0|]; simpl.
    + split.
      * intros g [->|?]%elem_of_cons; [left|right; auto].
      * intros g ?. right. auto.
    + split; auto.
  - by apply elem_of_nil in Hin.
Qed.

Lemma mandatory_groups_names p : mandatory_groups p ⊆ group_names p.
Proof.
  induction p as [|cs|cs|cs|p IHp q IHq|p IHp q IHq|name p IHp|alias child]; simpl;
    try done.
  - intros g [?|?]%elem_of_app; apply elem_of_app; auto.
  - intros g ?%elem_of_nil. done.
  - destruct name; [|done]. intros g [->|?]%elem_of_cons; [left|right; auto].
Qed.

Lemma group_value_is_Some s m g :
  g ∈ (m_groups m).*1 → ∃ i j, group_value s m g = Some (slice i j s).
Proof.
  unfold group_value. intros Hin.
  apply list_elem_of_fmap in Hin as ([g' [i j]] & -> & Hin).
  destruct (list_find_elem_of (λ e : string * (nat * nat), e.1 = g') (m_groups m)
              (g', (i, j))) as ([k [g2 [i2 j2]]] & Hf); [done|done|].
  simpl in *. rewrite Hf. eauto.
Qed.

Lemma docstring_reads_ok : forallb (reads_ok docstring_regex) docstring_compiled = true.
Proof. by vm_compute. Qed.

Lemma token_reads_bound (s : text) (tok : token) (key : string) :
  tok ∈ (scan docstring_regex s).1 →
  key ∈ handler_reads (tok_kind tok) →
  ∃ props v, tok_props tok = Some props ∧ props !! key = Some (Some v).
Proof.
  intros Hin Hkey.
  destruct (scan_loop_tokens _ s tok (S (length s)) 0 ltac:(lia) Hin) as [[Hk _]|Hm].
  { rewrite Hk in Hkey. by apply elem_of_nil in Hkey. }
  destruct Hm as (m & pos & props & Hpos & Hs & Hlg & _ & Hprops & Hget).
  destruct (search_spec _ _ _ _ Hpos Hs) as (st & _ & Hrun & _ & Hg & Hl & _).
  rewrite Hl in Hlg. rewrite docstring_regex_eq in Hrun.
  destruct (make_regex_public _ (MState _ _ _ None) _ _ eq_refl Hrun Hlg) as (spec & Hspec & _ & Hrun' & _).
  pose proof docstring_reads_ok as Hok. rewrite forallb_forall in Hok.
  apply list_elem_of_In, Hok in Hspec. unfold reads_ok in Hspec. simpl in Hspec.
  rewrite forallb_forall in Hspec. apply list_elem_of_In, Hspec in Hkey.
  apply andb_prop in Hkey as [Hmand Hnames].
  apply bool_decide_eq_true in Hmand, Hnames.
  apply run_spans in Hrun' as [Hspans _]. simpl in Hspans.
  assert (Hin' : (tok_kind tok +:+ "_") +:+ key ∈ (m_groups m).*1).
  { rewrite Hg. apply Hspans. by right. }
  destruct (group_value_is_Some s m _ Hin') as (i & j & Hv).
  unfold get_properties in Hget.
  destruct (groupdict docstring_regex s m !! tok_kind tok) as [v|] eqn:Hkind; [|done].
  destruct (get_properties_lookup _ _ _ Hkind) as (props' & Hget' & Hlook).
  unfold get_properties in Hget'. rewrite Hkind in Hget'. rewrite Hget' in Hget.
  injection Hget as ->. exists props, (slice i j s). split; [done|].
  rewrite Hlook, groupdict_lookup, decide_True by done. by rewrite Hv.
Qed.

(** X7.  Every property that a handler reads is there: a token of the
    docstring scanner binds each property that the handler of its kind looks
    up to a text, never to [None]. *)
Theorem docstring_token_reads (s : text) (tok : token) (key : string) :
  tok ∈ (scan docstring_regex s).1 →
  key ∈ handler_reads (tok_kind tok) →
  ∃ props v, tok_props tok = Some props ∧ props !! key = Some (Some v).
Proof. apply token_reads_bound. Qed.

Lemma docstring_token_reads_witness :
  let tok := Token "parameter" (txt "@a") (Some {[ "parameter" := Some (txt "@a");
                                                   "param_name" := Some (txt "a") ]}) in
  ∃ props v, tok_props tok = Some props ∧ props !! "param_name" = Some (Some v).
Proof.
  intros tok. apply (docstring_token_reads (txt "@a") tok "param_name").
  - vm_compute. left.
  - vm_compute. left.
Defined.

(** ** Headings *)

Lemma prop_bound (d : gmap string (option text)) key none v :
  d !! key = Some (Some v) → prop (Some d) key none = ret v.
Proof. intros H. unfold prop. by rewrite H. Qed.

(** X8.  Outside a code block, a heading of level [n] closes the sections of
    level [n] and deeper, opens sections up to level [n], at least one, and
    leaves [n] sections open, whatever the depth was; it writes the title
    as the scanner gave it. *)
Theorem heading_sets_depth (node : node) (match_ title : text)
    (props : gmap string (option text)) (n : nat) (st : fstate) :
  _processing_code st = false →
  count_hashes (strip (is_char LF) match_) = inr n →
  props !! "heading" = Some (Some title) →
  let k := Z.to_nat (_opened_sections st - Z.of_nat n + 1) in
  let j := Z.to_nat (Z.of_nat n - (_opened_sections st - Z.of_nat k)) in
  _process_heading node match_ (Some props) st
  = Ok (txt "</p>" ++ concat (replicate k (txt "</section>"))
          ++ concat (replicate j (txt "<section>"))
          ++ txt "<title>" ++ title ++ txt "</title><p>")
       (shift SectionOpen j (shift SectionClose k st))
  ∧ _opened_sections (shift SectionOpen j (shift SectionClose k st)) = Z.of_nat n
  ∧ (1 ≤ j)%nat.
Proof.
  intros Hcode Hn Htitle k j. split_and!; [|subst k j; simpl; lia|subst k j; lia].
  unfold _process_heading. unfold bind at 1. unfold gets. rewrite Hcode.
  cbv zeta. rewrite Hn. unfold lift, ret at 1, bind at 1.
  unfold bind at 1. rewrite close_down_to_run.
  unfold bind at 1. rewrite open_up_to_run.
  rewrite prop_bound with (v := title) by done. unfold ret.
  fold k. change (_opened_sections (shift SectionClose k st))
    with (_opened_sections st - Z.of_nat k). fold j.
  unfold bind. f_equal. rewrite app_nil_l. by rewrite <- !app_assoc.
Qed.

Lemma heading_sets_depth_witness :
  let st := FState false 3 [] [] [] in
  let props : gmap string (option text) := {[ "heading" := Some (txt "Usage") ]} in
  _process_heading widget (txt "## Usage") (Some props) st
  = Ok (txt "</p></section></section><section><title>Usage</title><p>")
       (shift SectionOpen 1 (shift SectionClose 2 st))
  ∧ _opened_sections (shift SectionOpen 1 (shift SectionClose 2 st)) = 2
  ∧ (1 ≤ 1)%nat.
Proof.
  intros st props.
  apply (heading_sets_depth widget (txt "## Usage") (txt "Usage") props 2 st).
  - reflexivity.
  - reflexivity.
  - reflexivity.
Defined.

(** ** Plain text *)

Lemma cs_markup_mem cs c :
  cs_markup cs = true → cs_mem cs c = true → is_markup c = true.
Proof.
  unfold cs_markup, cs_mem. intros [Hneg Hall]%andb_prop.
  destruct (cs_negated cs); [done|]. simpl.
  rewrite forallb_forall in Hall. intros (r & Hr & Hc)%existsb_exists.
  apply Hall, andb_prop in Hr as [Hone Hm].
  apply is_char_true in Hone. unfold in_range in Hc. rewrite <- Hone in Hc.
  assert (r.1 = c) as <-; [|done].
  apply is_char_true. unfold is_char. apply andb_prop in Hc as [H1 H2].
  apply N.leb_le in H1, H2. apply N.eqb_eq. lia.
Qed.

Lemma run_needs_markup p : ∀ st st',
  needs_markup p = true → st' ∈ run p st →
  ∃ c, c ∈ m_rest st ∧ is_markup c = true.
Proof.
  induction p as [|cs|cs|cs|p IHp q IHq|p IHp q IHq|name p IHp|alias child];
    intros st st' Hp Hin; simpl in Hp, Hin; try done.
  - destruct (m_rest st) as [|c r]; [by apply elem_of_nil in Hin|].
    destruct (cs_mem cs c) eqn:Hc; [|by apply elem_of_nil in Hin].
    exists c. split; [left|by eapply cs_markup_mem].
  - apply list_elem_of_fmap in Hin as (k & _ & Hk). apply elem_of_countdown in Hk.
    destruct (m_rest st) as [|c r]; simpl in Hk; [lia|].
    destruct (cs_mem cs c) eqn:Hc; [|lia].
    exists c. split; [left|by eapply cs_markup_mem].
  - apply list_elem_of_bind in Hin as (st1 & Hq & Hp1).
    apply orb_prop in Hp as [Hp|Hp]; [by eapply IHp|].
    destruct (IHq _ _ Hp Hq) as (c & Hc & Hm).
    apply run_consumes in Hp1 as (k & _ & Hrest & _). rewrite Hrest in Hc.
    exists c. split; [|done]. by eapply subseteq_drop.
  - apply andb_prop in Hp as [Hp Hq].
    apply elem_of_app in Hin as [Hin|Hin]; [by eapply IHp|by eapply IHq].
  - apply list_elem_of_fmap in Hin as (st1 & _ & Hin). by eapply IHp.
Qed.

Lemma search_from_plain regex : ∀ rest pos,
  needs_markup regex = true →
  (∀ c, c ∈ rest → is_markup c = false) →
  search_from regex rest pos = None.
Proof.
  intros rest pos Hregex. revert pos.
  assert (Hhead : ∀ rest pos, (∀ c, c ∈ rest → is_markup c = false) →
            head (run regex (MState pos rest [] None)) = None).
  { intros r pos Hplain. destruct (head _) as [st'|] eqn:Hh; [|done].
    apply head_Some_elem_of, (run_needs_markup _ _ _ Hregex) in Hh as (c & Hc & Hm).
    simpl in Hc. apply Hplain in Hc. congruence. }
  induction rest as [|c rest IH]; intros pos Hplain; simpl; rewrite Hhead by done.
  - done.
  - apply IH. intros c' ?. apply Hplain. by right.
Qed.

Lemma docstring_needs_markup : needs_markup docstring_regex = true.
Proof. by vm_compute. Qed.

Lemma scan_plain (s : text) :
  (∀ c, c ∈ s → is_markup c = false) →
  scan docstring_regex s
  = (if decide (0 < length s)%nat then [Token "other" s None] else [], Returns).
Proof.
  intros Hplain. unfold scan. cbn [scan_loop]. unfold search.
  rewrite drop_0, search_from_plain; [done|apply docstring_needs_markup|done].
Qed.

Lemma shift_0 ev st : shift ev 0 st = st.
Proof.
  destruct st. unfold shift. simpl. rewrite app_nil_r.
  f_equal. destruct ev; lia.
Qed.

(** X9.  A text without markup characters is only escaped: with implicit
    links off and no section open, [format] gives the escaped text, between
    [<p>] and [</p>] unless a code block is open, and leaves the state as it
    was. *)
Theorem format_plain_text (self : formatter) (depth : nat) (node : node)
    (s : text) (st : fstate) :
  (∀ c, c ∈ s → is_markup c = false) →
  resolve_implicit_links self = false →
  _opened_sections st = 0 →
  format self (S depth) node (Some s) st
  = Ok (if _processing_code st then escape s
        else txt "<p>" ++ escape s ++ txt "</p>") st.
Proof.
  intros Hplain Himplicit Hopened.
  assert (Hinline : format_inline self (S depth) node s st = Ok (escape s) st).
  { cbn [format_inline]. rewrite scan_plain by done. case_decide as Hlen.
    - cbn [mapM]. unfold _process_token. cbn [dispatch find_map fst snd].
      rewrite decide_True by done. cbn [tok_text tok_props].
      unfold _process_other, _resolve_implicit_links. rewrite Himplicit.
      cbn [negb]. unfold bind, ret. cbn [concat]. by rewrite app_nil_r.
    - destruct s; [done|simpl in Hlen; lia]. }
  unfold format. unfold bind at 1. unfold gets. cbv zeta.
  unfold bind at 1. rewrite Hinline. rewrite close_all_run, Hopened.
  change (Z.to_nat 0) with 0%nat. rewrite shift_0. cbn [replicate concat].
  rewrite app_nil_r. by destruct (_processing_code st).
Qed.

Lemma format_plain_text_witness :
  format (sample_formatter false) 1 widget (Some (txt "a < b")) init_state
  = Ok (if _processing_code init_state then escape (txt "a < b")
        else txt "<p>" ++ escape (txt "a < b") ++ txt "</p>") init_state.
Proof.
  apply (format_plain_text (sample_formatter false) 0 widget (txt "a < b") init_state).
  - intros c Hc. vm_compute in Hc.
    repeat (apply elem_of_cons in Hc as [->|Hc]; [reflexivity|]).
    by apply elem_of_nil in Hc.
  - reflexivity.
  - reflexivity.
Defined.

(** ** Included files *)

Lemma find_map_None {A B} (f : A → option B) (l : list A) :
  (∀ a, a ∈ l → f a = None) → find_map f l = None.
Proof.
  induction l as [|a l IH]; intros H; simpl; [done|].
  rewrite (H a) by left. apply IH. intros a' ?. apply H. by right.
Qed.

(** X10.  An include that names no file that can be read, [open] raising
    [IOError] on the name as it is and raising whatever it raises on the
    name under each of the include directories, is left in the text as it
    was written and gives one warning; nothing else changes. *)
Theorem include_not_found (self : formatter) (format_inline : node → text → M text)
    (node : node) (match_ include_name : text) (props : gmap string (option text))
    (st : fstate) :
  props !! "include_name" = Some (Some include_name) →
  read_file self (strip (cs_mem ws) include_name) = NoFile →
  (∀ dir_ contents, dir_ ∈ _include_directories self →
     read_file self (path_join self dir_ (strip (cs_mem ws) include_name))
     ≠ Contents contents) →
  _process_include self format_inline node match_ (Some props) st
  = Ok match_
      (FState (_processing_code st) (_opened_sections st)
         (_warned_external_references st)
         (warnings st ++ [txt "Could not find file " ++ include_name])
         (section_log st)).
Proof.
  intros Hname Hfile Hdirs. unfold _process_include.
  rewrite prop_bound with (v := include_name) by done.
  unfold bind at 1. unfold ret at 1. cbv zeta. rewrite Hfile.
  rewrite find_map_None; [done|].
  intros dir_ Hdir. specialize (Hdirs dir_). cbv beta.
  destruct (read_file self (path_join self dir_ _)) as [contents| |e]; [|done..].
  by destruct (Hdirs contents Hdir).
Qed.

Lemma include_not_found_witness :
  let props : gmap string (option text) := {[ "include_name" := Some (txt "a.txt ") ]} in
  _process_include (sample_formatter false) (λ _ _, ret []) widget
    (txt "{{ a.txt }}") (Some props) init_state
  = Ok (txt "{{ a.txt }}")
      (FState false 0 [] ([] ++ [txt "Could not find file " ++ txt "a.txt "]) []).
Proof.
  intros props.
  apply (include_not_found (sample_formatter false) (λ _ _, ret []) widget
           (txt "{{ a.txt }}") (txt "a.txt ") props init_state).
  - reflexivity.
  - reflexivity.
  - intros dir_ contents Hdir. discriminate.
Defined.

(** ** Computations that keep a relation on states *)

Section Steps.

Context (R : relation fstate) `{!PreOrder R}.

Lemma steps_ret {A} (a : A) : steps R (ret a).
Proof. intros st. simpl. reflexivity. Qed.

Lemma steps_raise {A} e : steps R (@raise A e).
Proof. intros st. simpl. reflexivity. Qed.

Lemma steps_lift {A} (r : exn + A) : steps R (lift r).
Proof. destruct r; [apply steps_raise|apply steps_ret]. Qed.

Lemma steps_gets {A} (f : fstate → A) : steps R (gets f).
Proof. intros st. simpl. reflexivity. Qed.

Lemma steps_prop props key none : steps R (prop props key none).
Proof.
  unfold prop. destruct props as [d|]; [|apply steps_raise].
  destruct (d !! key) as [[v|]|]; [apply steps_ret|apply steps_raise..].
Qed.

Lemma steps_bind {A B} (m : M A) (k : A → M B) :
  steps R m → (∀ a, steps R (k a)) → steps R (bind m k).
Proof.
  intros Hm Hk st. unfold bind. specialize (Hm st).
  destruct (m st) as [a st1|e st1]; simpl in *; [|done].
  etransitivity; [done|apply Hk].
Qed.

Lemma steps_mapM {A B} (f : A → M B) (l : list A) :
  (∀ a, a ∈ l → steps R (f a)) → steps R (mapM f l).
Proof.
  induction l as [|a l IH]; intros H; simpl; [apply steps_ret|].
  apply steps_bind; [apply H; left|]. intros b.
  apply steps_bind; [|intros; apply steps_ret].
  apply IH. intros a' ?. apply H. by right.
Qed.

End Steps.

Create HintDb steps discriminated.

Ltac steps_order := solve [typeclasses eauto].

Ltac steps_step :=
  first
    [ apply steps_ret; steps_order | apply steps_raise; steps_order
    | apply steps_lift; steps_order | apply steps_gets; steps_order
    | apply steps_prop; steps_order
    | solve [auto with steps nocore]
    | apply steps_bind; [steps_order| |intros ?]
    | progress cbv zeta
    | progress unfold with_namespace
    | match goal with
      | |- steps _ (match ?x with _ => _ end) => destruct x
      end ].

Ltac steps_auto := repeat steps_step.

(** Of the cross-references, [format_gtk_doc_attributes] alone changes
    the state, and by warning only. *)
Lemma steps_format_gtk_doc_attributes (self : formatter) (R : relation fstate)
    `{!PreOrder R} :
  (∀ msg, steps R (warn msg)) → (∀ name, steps R (add_warned name)) →
  ∀ n ad, steps R (format_gtk_doc_attributes self n ad).
Proof. intros Hwarn Hadd n ad. unfold format_gtk_doc_attributes. steps_auto. Qed.

Section StepsXref.

Context (self : formatter) (R : relation fstate) `{!PreOrder R}.
Context (Hgtk : ∀ n ad, steps R (format_gtk_doc_attributes self n ad)).

Lemma steps_format_internal_xref n ad ln pl :
  steps R (format_internal_xref self n ad ln pl).
Proof. unfold format_internal_xref. steps_auto. Qed.

Lemma steps_format_external_xref n ad ln pl :
  steps R (format_external_xref self n ad ln pl).
Proof.
  unfold format_external_xref. steps_auto.
Qed.

Lemma steps_format_xref_node : ∀ n pl ln ad, steps R (format_xref_node self n pl ln ad).
Proof.
  fix IH 1. intros [cls name ns parent cl sh pr sg] pl ln ad.
  cbn [format_xref_node].
  pose proof steps_format_internal_xref. pose proof steps_format_external_xref.
  steps_auto.
Qed.

Lemma steps_format_xref n pl ln ad : steps R (format_xref self n pl ln ad).
Proof. unfold format_xref. pose proof steps_format_xref_node. steps_auto. Qed.

Lemma steps_collect_links s : ∀ acc, steps R (collect_links self s acc).
Proof.
  pose proof steps_format_xref.
  induction s as [|w s IH]; intros acc; cbn [collect_links]; steps_auto.
Qed.

Lemma steps_resolve_implicit_links match_ :
  steps R (_resolve_implicit_links self match_).
Proof. unfold _resolve_implicit_links. pose proof steps_collect_links. steps_auto. Qed.

End StepsXref.

(** ** Warnings about references *)

Lemma final_bind_pure {A B} (m : M A) (k : A → M B) st :
  (∀ a, steps eq (k a)) → final (bind m k st) = final (m st).
Proof.
  intros Hk. unfold bind. destruct (m st) as [a st1|e st1]; [|done].
  symmetry. apply Hk.
Qed.

Lemma gtk_doc_final (self : formatter) (node : node) (attrdict : attrs)
    (ns : namespace) (st : fstate) :
  n_namespace node = SomeNS ns →
  let st' := final (format_gtk_doc_attributes self node attrdict st) in
  (ns_name ns ∈ _warned_external_references st → st' = st) ∧
  (st' = st ∨
   ∃ msg, st' = FState (_processing_code st) (_opened_sections st)
                  (_warned_external_references st ++ [ns_name ns])
                  (warnings st ++ [msg]) (section_log st)).
Proof.
  intros Hns. unfold format_gtk_doc_attributes. rewrite Hns.
  cbn [with_namespace]. destruct (_find_reference self ns) as [ref exact].
  cbv zeta.
  match goal with
  | |- context [final (bind (gets ?f) ?k st)] =>
      change (bind (gets f) k st) with (k (f st) st)
  end.
  cbv beta. rewrite final_bind_pure by (intros; steps_auto).
  destruct (bool_decide_reflect (ns_name ns ∈ _warned_external_references st))
    as [Hin|Hnot]; cbn [negb].
  - rewrite !andb_false_r. by split; [|left].
  - rewrite !andb_true_r. split; [done|].
    repeat (match goal with
            | |- context [if ?b then _ else _] => destruct b
            end); simpl; eauto.
Qed.

(** X11.  [format_gtk_doc_attributes] warns about a namespace once: when the
    name of the namespace of the node has been warned about, nothing is
    warned and the state stays as it was; otherwise the state stays as it
    was or one warning is given and the name is recorded. *)
Theorem gtk_doc_warns_once (self : formatter) (node : node) (attrdict : attrs)
    (ns : namespace) (st : fstate) :
  n_namespace node = SomeNS ns →
  let st' := final (format_gtk_doc_attributes self node attrdict st) in
  (ns_name ns ∈ _warned_external_references st → st' = st) ∧
  (st' = st ∨
   ∃ msg, st' = FState (_processing_code st) (_opened_sections st)
                  (_warned_external_references st ++ [ns_name ns])
                  (warnings st ++ [msg]) (section_log st)).
Proof. apply gtk_doc_final. Qed.

Lemma gtk_doc_warns_once_witness :
  let st' := final (format_gtk_doc_attributes (sample_formatter false) widget []
                      init_state) in
  (ns_name gtk ∈ _warned_external_references init_state → st' = init_state) ∧
  (st' = init_state ∨
   ∃ msg, st' = FState (_processing_code init_state) (_opened_sections init_state)
                  (_warned_external_references init_state ++ [ns_name gtk])
                  (warnings init_state ++ [msg]) (section_log init_state)).
Proof.
  apply (gtk_doc_warns_once (sample_formatter false) widget [] gtk init_state).
  reflexivity.
Defined.

(** ** Code blocks *)

#[local] Instance stays_in_code_preorder : PreOrder stays_in_code.
Proof.
  split.
  - by intros st Hst.
  - intros st1 st2 st3 H12 H23 Hst. destruct (H12 Hst) as (Hc & Ho & Hl).
    destruct (H23 Hc) as (? & ? & ?). split_and!; congruence.
Qed.

Lemma in_code_warn msg : steps stays_in_code (warn msg).
Proof. by intros st Hst. Qed.

Lemma in_code_add_warned name : steps stays_in_code (add_warned name).
Proof. by intros st Hst. Qed.

Lemma in_code_start : steps stays_in_code (set_processing_code true).
Proof. by intros st Hst. Qed.

(** What matters of a computation that reads [_processing_code] is what it
    does when the flag is set. *)
Lemma in_code_gets {A} (k : bool → M A) :
  steps stays_in_code (k true) →
  steps stays_in_code (bind (gets _processing_code) k).
Proof. intros Hk st Hst. unfold bind, gets. rewrite Hst. by apply Hk. Qed.

Lemma in_code_process_token self format_inline node tok :
  tok_kind tok ≠ "code_end" →
  steps stays_in_code (_process_token self format_inline node tok).
Proof.
  intros Hend. unfold _process_token, dispatch. cbn [find_map fst snd].
  pose proof (steps_format_gtk_doc_attributes self _ in_code_warn in_code_add_warned)
    as Hgtk.
  pose proof (steps_format_xref self _ Hgtk).
  pose proof (steps_resolve_implicit_links self _ Hgtk).
  pose proof in_code_start. pose proof in_code_warn.
  repeat (case_decide as Hkind; [|clear Hkind]); [..|steps_auto].
  all: try (by destruct Hend).
  all: clear Hend Hkind.
  all: unfold _process_other, _process_property, _process_signal, _process_type_name,
         _process_enum_value, _process_parameter, _process_function_call,
         _process_code_start, _process_code_start_with_language,
         _process_new_line, _process_new_paragraph, _process_include, _process_note,
         _process_heading.
  all: try (apply in_code_gets; steps_auto; fail).
  all: try (steps_auto; fail).
  apply steps_bind; [steps_order|steps_auto|]. intros include_name. cbv zeta.
  apply steps_bind; [steps_order|steps_auto|]. intros [contents|];
    [apply in_code_gets|]; steps_auto.
Qed.

(** X12.  While a code block is open, a text without the end of the block
    leaves it open and touches no section: headings, notes and paragraphs
    are not interpreted. *)
Theorem code_block_stays_open (self : formatter) (depth : nat) (node : node)
    (para : text) (st : fstate) :
  _processing_code st = true →
  (∀ tok, tok ∈ (scan docstring_regex para).1 → tok_kind tok ≠ "code_end") →
  let st' := final (format_inline self depth node para st) in
  _processing_code st' = true ∧ _opened_sections st' = _opened_sections st
  ∧ section_log st' = section_log st.
Proof.
  intros Hcode Htoks. simpl. revert st Hcode.
  change (steps stays_in_code (format_inline self depth node para)).
  destruct depth as [|depth]; cbn [format_inline]; [steps_auto|].
  destruct (scan docstring_regex para) as [tokens fin]. simpl in Htoks.
  apply steps_bind; [steps_order| |intros; steps_auto].
  apply steps_mapM; [steps_order|].
  intros tok Hin. apply in_code_process_token. by apply Htoks.
Qed.

Lemma code_block_stays_open_witness :
  let st := FState true 2 [] [] [] in
  let st' := final (format_inline (sample_formatter false) 1 widget
                      (txt "# not a heading") st) in
  _processing_code st' = true ∧ _opened_sections st' = _opened_sections st
  ∧ section_log st' = section_log st.
Proof.
  intros st.
  apply (code_block_stays_open (sample_formatter false) 1 widget
           (txt "# not a heading") st).
  - reflexivity.
  - intros tok Hin. vm_compute in Hin.
    repeat (apply elem_of_cons in Hin as [->|Hin]; [discriminate|]).
    by apply elem_of_nil in Hin.
Defined.


(** ** What [escape] writes *)

Lemma escape_char_no_bracket c x :
  x ∈ escape_char c → is_char "<" x = false ∧ is_char ">" x = false.
Proof.
  unfold escape_char.
  destruct (is_char "&" c); [|destruct (is_char ">" c) eqn:Hgt;
                              [|destruct (is_char "<" c) eqn:Hlt]].
  1-3: intros Hx; vm_compute in Hx;
       repeat (apply elem_of_cons in Hx as [->|Hx]; [by vm_compute|]);
       by apply elem_of_nil in Hx.
  intros ->%list_elem_of_singleton. done.
Qed.

(** X13.  What [escape] gives holds no [<] and no [>]. *)
Theorem escape_no_brackets (s : text) (x : ascii) :
  x ∈ escape s → x ≠ "<"%char ∧ x ≠ ">"%char.
Proof.
  rewrite escape_chars. intros (c & Hx & _)%list_elem_of_bind.
  apply escape_char_no_bracket in Hx as [H1 H2].
  split; intros ->; by vm_compute in H1, H2.
Qed.

Lemma escape_no_brackets_witness : "&"%char ≠ "<"%char ∧ "&"%char ≠ ">"%char.
Proof.
  apply (escape_no_brackets (txt "<b>")). vm_compute. left.
Defined.

Lemma escape_char_inj c1 c2 r1 r2 :
  escape_char c1 ++ r1 = escape_char c2 ++ r2 → c1 = c2 ∧ r1 = r2.
Proof.
  unfold escape_char.
  destruct (is_char "&" c1) eqn:Ha1; [apply is_char_true in Ha1 as <-|];
  [|destruct (is_char ">" c1) eqn:Hg1; [apply is_char_true in Hg1 as <-|];
    [|destruct (is_char "<" c1) eqn:Hl1; [apply is_char_true in Hl1 as <-|]]];
  (destruct (is_char "&" c2) eqn:Ha2; [apply is_char_true in Ha2 as <-|];
   [|destruct (is_char ">" c2) eqn:Hg2; [apply is_char_true in Hg2 as <-|];
     [|destruct (is_char "<" c2) eqn:Hl2; [apply is_char_true in Hl2 as <-|]]]);
  simpl; intros H; try discriminate H; try (injection H as H; by subst).
  all: injection H as <- H; by rewrite is_char_refl in *.
Qed.

(** X14.  [escape] loses nothing: two texts that it takes to the same text
    are the same. *)
Theorem escape_injective (s1 s2 : text) :
  escape s1 = escape s2 → s1 = s2.
Proof.
  rewrite !escape_chars. revert s2.
  induction s1 as [|c1 s1 IH]; intros [|c2 s2]; rewrite ?bind_cons; [done|..].
  - intros H%(f_equal length). rewrite length_app in H.
    pose proof (escape_char_length c2). simpl in H. lia.
  - intros H%(f_equal length). rewrite length_app in H.
    pose proof (escape_char_length c1). simpl in H. lia.
  - intros [-> H]%escape_char_inj. f_equal. by apply IH.
Qed.

Lemma escape_injective_witness : txt "a&b" = txt "a&b".
Proof. apply (escape_injective (txt "a&b") (txt "a&b")). reflexivity. Defined.

(** ** Resolution *)

(** X15.  [_resolve_symbol] raises exactly when the transformer splits the
    symbol into no candidate at all: the loop variable is then read before
    it is bound. *)
Theorem resolve_symbol_raises (self : formatter) (symbol : text) :
  (∃ e, _resolve_symbol self symbol = inl e) ↔
  split_csymbol_namespaces (_transformer self) symbol = Some [].
Proof.
  unfold _resolve_symbol.
  destruct (split_csymbol_namespaces _ _) as [matches|]; [|split; [by intros [? ?]|done]].
  destruct matches as [|m matches]; simpl; [split; eauto|].
  split; [|done]. intros [e He].
  destruct (ns_get_by_symbol _ _ _); [done|]. by destruct (find_map _ matches).
Qed.

(** ** References *)

(** X16.  [_find_reference] goes by the order of the exported packages: it
    gives the reference of the first package that the map knows, by its name
    or by its name without the version, and says which; an earlier package
    known without its version goes before a later one known by its name. *)
Theorem find_reference_first (self : formatter) (ns : namespace) :
  let unknown package :=
    _reference_map self !! package = None ∧
    _reference_map self !! strip_version self package = None in
  match _find_reference self ns with
  | (Some reference, exact) =>
      ∃ before package after,
        exported_packages ns = before ++ package :: after ∧
        (∀ p, p ∈ before → unknown p) ∧
        if exact then _reference_map self !! package = Some reference
        else _reference_map self !! package = None ∧
             _reference_map self !! strip_version self package = Some reference
  | (None, exact) =>
      exact = false ∧ ∀ p, p ∈ exported_packages ns → unknown p
  end.
Proof.
  intros unknown. unfold _find_reference.
  induction (exported_packages ns) as [|package packages IH]; simpl.
  - split; [done|]. by intros p ?%elem_of_nil.
  - destruct (_reference_map self !! package) as [r|] eqn:H1.
    { exists [], package, packages. split; [done|split; [|done]].
      by intros p ?%elem_of_nil. }
    destruct (_reference_map self !! strip_version self package) as [r|] eqn:H2.
    { exists [], package, packages. split; [done|split; [|done]].
      by intros p ?%elem_of_nil. }
    destruct (_find_reference_in self packages) as [[r|] exact].
    + destruct IH as (before & p0 & after & -> & Hb & Hr).
      exists (package :: before), p0, after. split; [done|split; [|done]].
      intros p [->|?]%elem_of_cons; [done|by apply Hb].
    + destruct IH as [-> Hall]. split; [done|].
      intros p [->|?]%elem_of_cons; [done|by apply Hall].
Qed.

(** ** Page ids *)

Lemma dotted_qualified sep (a : exn + text) b (t : exn + text) :
  sep ≠ [] →
  match a, t with
  | inr id, inr base => ∃ rest, id = base ++ rest
  | inl e, inl e' => e = e'
  | _, _ => False
  end →
  match dotted sep a b, t with
  | inr id, inr base => ∃ rest, id = base ++ rest ∧ rest ≠ []
  | inl e, inl e' => e = e'
  | _, _ => False
  end.
Proof.
  intros Hsep. destruct a as [e|a], t as [e'|base]; simpl; try done.
  intros (rest & ->). exists (rest ++ sep ++ b). rewrite <- app_assoc.
  split; [done|]. intros H%(f_equal length). rewrite !length_app in H.
  destruct sep; [done|simpl in H; lia].
Qed.

Lemma make_page_id_top : ∀ n recursive,
  match make_page_id recursive n, top_name n with
  | inr id, inr base =>
      ∃ rest, id = (if decide (n_class n = Namespace) then [] else base) ++ rest
              ∧ (n_class n ≠ Namespace → rest ≠ [])
              ∧ (n_class n = Namespace → recursive = true → id = base)
  | inl e, inl e' => e = e' ∧ n_class n ≠ Namespace
  | inr id, inl _ => False
  | inl _, inr _ => False
  end.
Proof.
  fix IH 1. intros [cls name ns parent cl sh pr sg] recursive.
  unfold top_name. cbn [make_page_id top n_class].
  destruct (decide (cls = Namespace)) as [Hcls|Hcls].
  { cbn [n_class n_name]. rewrite decide_True by done.
    destruct recursive; eexists; split_and!; try done. }
  assert (Hstep : ∀ p sep b, sep ≠ [] →
            match dotted sep (make_page_id true p) b,
                  (if decide (n_class (top p) = Namespace) then inr (n_name (top p))
                   else namespace_name (n_namespace (top p))) with
            | inr id, inr base => ∃ rest, id = base ++ rest ∧ (cls ≠ Namespace → rest ≠ [])
                                          ∧ (cls = Namespace → recursive = true → id = base)
            | inl e, inl e' => e = e' ∧ cls ≠ Namespace
            | inr id, inl _ => False
            | inl _, inr _ => False
            end).
  { intros p sep b Hsep. specialize (IH p true). unfold top_name in IH.
    pose proof (dotted_qualified sep (make_page_id true p) b
                  (if decide (n_class (top p) = Namespace) then inr (n_name (top p))
                   else namespace_name (n_namespace (top p))) Hsep) as Hd.
    destruct (make_page_id true p) as [e|pid],
      (if decide (n_class (top p) = Namespace) then inr (n_name (top p))
       else namespace_name (n_namespace (top p))) as [e'|base]; simpl in *; try done.
    - destruct IH as [-> _]. by split.
    - destruct Hd as (rest & -> & Hrest).
      + destruct IH as (rest0 & -> & _ & Hns). case_decide as Hp.
        * exists []. rewrite app_nil_r. by apply Hns.
        * by exists rest0.
      + exists rest. split_and!; done. }
  destruct cl as [p|]; [|destruct parent as [p|]].
  - case_decide; [by apply Hstep; vm_compute|].
    destruct (if decide (cls = Function) then nonempty sh else None);
      by apply Hstep; vm_compute.
  - case_decide; [by apply Hstep; vm_compute|].
    destruct (if decide (cls = Function) then nonempty sh else None);
      by apply Hstep; vm_compute.
  - cbn [n_class n_namespace]. rewrite (decide_False (P := cls = Namespace)) by done.
    assert (Hroot : ∀ b,
              match dotted (txt ".") (namespace_name ns) b, namespace_name ns with
              | inr id, inr base => ∃ rest, id = base ++ rest ∧ (cls ≠ Namespace → rest ≠ [])
                                            ∧ (cls = Namespace → recursive = true → id = base)
              | inl e, inl e' => e = e' ∧ cls ≠ Namespace
              | inr id, inl _ => False
              | inl _, inr _ => False
              end).
    { intros b. destruct (namespace_name ns) as [e|base]; simpl; [done|].
      eexists. split_and!; done. }
    destruct (if decide (cls = Function) then nonempty sh else None); apply Hroot.
Qed.

(** X17.  The page id of a node that is not a namespace is qualified by
    where the chain of its parents ends: it is the name of the namespace
    node that the chain reaches, or of the namespace of its last node,
    followed by a text that is not empty; and [make_page_id] raises exactly
    when that last node is no namespace node and has no namespace. *)
Theorem page_id_qualified (n : node) (recursive : bool) :
  n_class n ≠ Namespace →
  match make_page_id recursive n, top_name n with
  | inr id, inr base => ∃ rest, id = base ++ rest ∧ rest ≠ []
  | inl e, inl e' => e = e'
  | inr _, inl _ => False
  | inl _, inr _ => False
  end.
Proof.
  intros Hn. pose proof (make_page_id_top n recursive) as H.
  destruct (make_page_id recursive n) as [e|id], (top_name n) as [e'|base]; try done.
  - by destruct H.
  - destruct H as (rest & -> & Hrest & _). rewrite decide_False by done.
    exists rest. auto.
Qed.

Lemma page_id_qualified_witness :
  match make_page_id false widget_show, top_name widget_show with
  | inr id, inr base => ∃ rest, id = base ++ rest ∧ rest ≠ []
  | inl e, inl e' => e = e'
  | inr _, inl _ => False
  | inl _, inr _ => False
  end.
Proof. apply (page_id_qualified widget_show false). discriminate. Defined.

(** ** Relations that the whole of [format] keeps *)

Section StepsFormat.

Context (self : formatter) (R : relation fstate) `{!PreOrder R}.
Context (Hgtk : ∀ n ad, steps R (format_gtk_doc_attributes self n ad)).
Context (Hwarn : ∀ msg, steps R (warn msg)).
Context (Hset : ∀ b, steps R (set_processing_code b)).
Context (Hemit : ∀ ev, steps R (emit_section ev)).





End StepsFormat.

(** ** Names warned about *)

#[local] Instance records_once_preorder : PreOrder records_once.
Proof.
  split.
  - by intros st Hst.
  - intros st1 st2 st3 H12 H23 Hst. auto.
Qed.




(** ** The groups of a compiled spec *)

Lemma truthy_name_groups name alias child unmangled :
  group_names unmangled = [] →
  group_names
    (match truthy alias, truthy name with
     | Some pattern_name, Some name =>
         PGroup (Some (name +:+ "_" +:+ pattern_name)) unmangled
     | _, _ => unmangled
     end)
  = placeholder_groups name (PRef alias child).
Proof.
  intros Hu. unfold placeholder_groups. simpl.
  destruct (truthy alias), (truthy name); simpl; by rewrite ?Hu.
Qed.

Lemma unmangle_groups (specdict : gmap string pattern) :
  (∀ child child_spec, specdict !! child = Some child_spec →
                       group_names child_spec = []) →
  ∀ fuel spec name r,
    group_names spec = [] →
    unmangle fuel specdict spec name = inr r →
    group_names r = placeholder_groups name spec.
Proof.
  intros Hdict.
  assert (Hnone : ∀ spec, placeholder_groups None spec = []) by done.
  induction fuel as [|fuel IHf]; intros spec; induction spec as
    [|cs|cs|cs|p IHp q IHq|p IHp q IHq|g p IHp|alias child];
    intros name r Hg; rewrite unmangle_unfold;
    try (intros [= <-]; unfold placeholder_groups; by destruct (truthy name)).
  all: try (simpl in Hg; apply app_eq_nil in Hg as [Hgp Hgq];
            destruct (unmangle _ specdict p name) as [?|p'] eqn:Hp; [done|];
            destruct (unmangle _ specdict q name) as [?|q'] eqn:Hq; [done|];
            intros [= <-]; simpl;
            rewrite (IHp _ _ Hgp Hp), (IHq _ _ Hgq Hq);
            unfold placeholder_groups; simpl;
            destruct (truthy name); [by rewrite fmap_app|done]).
  all: try (destruct g as [g|]; [done|]; simpl in Hg;
            destruct (unmangle _ specdict p name) as [?|p'] eqn:Hp; [done|];
            intros [= <-]; simpl; by apply IHp).
  - by destruct (specdict !! child).
  - destruct (specdict !! child) as [child_spec|] eqn:Hc; [|done].
    destruct (unmangle fuel specdict child_spec None) as [?|u] eqn:Hu; [done|].
    apply IHf in Hu; [|by eapply Hdict]. rewrite Hnone in Hu.
    intros Hr. rewrite <- (truthy_name_groups name alias child u Hu).
    destruct (truthy alias), (truthy name); by injection Hr as <-.
Qed.

Lemma unmangle_all_groups fuel (specdict : gmap string pattern) :
  (∀ child child_spec, specdict !! child = Some child_spec →
                       group_names child_spec = []) →
  ∀ specs specs',
    (∀ ns, ns ∈ specs → group_names ns.2 = []) →
    unmangle_all fuel specdict specs = inr specs' →
    Forall2 (λ ns ns', ns'.1 = ns.1
                       ∧ group_names ns'.2 = placeholder_groups (Some ns.1) ns.2)
      specs specs'.
Proof.
  intros Hdict. induction specs as [|[name spec] specs IH]; intros specs' Hg; simpl.
  - intros [= <-]. constructor.
  - destruct (unmangle fuel specdict spec (Some name)) as [?|spec'] eqn:Hs; [done|].
    destruct (unmangle_all fuel specdict specs) as [?|rest] eqn:Hr; [done|].
    intros [= <-]. constructor.
    + split; [done|]. simpl. eapply unmangle_groups; [done| |done].
      apply (Hg (name, spec)). left.
    + apply IH; [|done]. intros ns ?. apply Hg. by right.
Qed.

(** X19.  The child specs of a spec are unnamed: when no spec writes a named
    group itself, the named groups of a compiled spec are those of its own
    placeholders that have an alias, called [name_alias] and in the order of
    the placeholders; the placeholders of the child specs make none. *)
Theorem unmangle_specs_groups (specs specs' : spec_list) :
  (∀ ns, ns ∈ specs → group_names ns.2 = []) →
  unmangle_specs specs = inr specs' →
  Forall2 (λ ns ns', ns'.1 = ns.1
                     ∧ group_names ns'.2 = placeholder_groups (Some ns.1) ns.2)
    specs specs'.
Proof.
  intros Hg. unfold unmangle_specs. apply unmangle_all_groups; [|done].
  intros child child_spec Hc. apply elem_of_list_to_map_2 in Hc.
  apply elem_of_reverse, list_elem_of_fmap in Hc as (ns & [= _ ->] & Hin).
  by apply Hg.
Qed.

Lemma unmangle_specs_groups_witness :
  Forall2 (λ ns ns', ns'.1 = ns.1
                     ∧ group_names ns'.2 = placeholder_groups (Some ns.1) ns.2)
    docstring_specs docstring_compiled.
Proof.
  apply (unmangle_specs_groups docstring_specs docstring_compiled).
  - intros ns Hin. vm_compute in Hin.
    repeat (apply elem_of_cons in Hin as [->|Hin]; [reflexivity|]).
    by apply elem_of_nil in Hin.
  - vm_compute. reflexivity.
Defined.

(** ** Files that include themselves *)

(** X20.  A file that is one include of itself cannot be formatted: outside
    a code block, whatever nesting of calls is allowed, [format_inline]
    raises [RuntimeError] and leaves the state as it was. *)
Theorem include_cycle (self : formatter) (depth : nat) (node : node)
    (contents include_name : text) (props : gmap string (option text))
    (st : fstate) :
  _processing_code st = false →
  scan docstring_regex contents
  = ([Token "include" contents (Some props)], Returns) →
  props !! "include_name" = Some (Some include_name) →
  read_file self (strip (cs_mem ws) include_name) = Contents contents →
  format_inline self depth node contents st = Raise RuntimeError st.
Proof.
  intros Hcode Hscan Hname Hfile.
  induction depth as [|depth IH]; cbn [format_inline]; [done|].
  rewrite Hscan. cbn [mapM]. unfold _process_token.
  cbn [dispatch find_map fst snd tok_kind tok_text tok_props].
  repeat (rewrite decide_False by done). rewrite decide_True by done.
  unfold bind at 1. unfold bind at 1. unfold _process_include.
  rewrite prop_bound with (v := include_name) by done.
  unfold bind at 1. unfold ret at 1. cbv zeta. rewrite Hfile.
  unfold bind at 1. unfold ret at 1.
  unfold bind at 1. unfold gets. rewrite Hcode. by rewrite IH.
Qed.

Lemma include_cycle_witness :
  let self :=
    Formatter false false false sample_transformer [] ∅ []
      (λ n, n_name n) (λ n p, argname p) (λ n name, None) (λ n, n_name n)
      sample_build_xml_tag (λ path, Contents (txt "{{loop.md}}"))
      (λ a b, a ++ txt "/" ++ b) (λ s, s) (λ l, l) in
  format_inline self 5 widget (txt "{{loop.md}}") init_state
  = Raise RuntimeError init_state.
Proof.
  intros self.
  apply (include_cycle self 5 widget (txt "{{loop.md}}") (txt "loop.md")
           {[ "include" := Some (txt "{{loop.md}}");
              "include_name" := Some (txt "loop.md") ]} init_state).
  - reflexivity.
  - vm_compute. reflexivity.
  - reflexivity.
  - reflexivity.
Defined.

(** ** The index of a gtk-doc package *)

Lemma split_on_app cs (a r : text) c :
  (∀ x, x ∈ a → cs x = false) → cs c = true →
  split_on cs (a ++ c :: r) = a :: split_on cs r.
Proof.
  intros Ha Hc. induction a as [|x a IH]; simpl.
  - by rewrite Hc.
  - rewrite (Ha x) by left. rewrite IH; [done|].
    intros y ?. apply Ha. by right.
Qed.

Lemma split_anchor_line entry :
  DQ ∉ entry.1 → DQ ∉ entry.2 →
  ∃ rest, split_on (is_char DQ) (anchor_line entry)
          = txt "<ANCHOR id=" :: entry.1 :: txt " href=" :: entry.2 :: rest.
Proof.
  intros H1 H2. unfold anchor_line, quoted.
  assert (Hno : ∀ a : text, DQ ∉ a → ∀ x, x ∈ a → is_char DQ x = false).
  { intros a Ha x Hx. destruct (is_char DQ x) eqn:Hc; [|done].
    apply is_char_true in Hc as <-. done. }
  cbn [app]. rewrite <- !app_assoc. cbn [app].
  assert (Hlit : ∀ s : string, (∀ x, x ∈ txt s → is_char DQ x = false) →
            ∀ r, split_on (is_char DQ) (txt s ++ DQ :: r)
                 = txt s :: split_on (is_char DQ) r).
  { intros s Hs r. apply split_on_app; [done|apply is_char_refl]. }
  rewrite Hlit.
  2: { intros x Hx. vm_compute in Hx.
       repeat (apply elem_of_cons in Hx as [->|Hx]; [reflexivity|]).
       by apply elem_of_nil in Hx. }
  rewrite split_on_app; [|by apply Hno|apply is_char_refl].
  rewrite Hlit.
  2: { intros x Hx. vm_compute in Hx.
       repeat (apply elem_of_cons in Hx as [->|Hx]; [reflexivity|]).
       by apply elem_of_nil in Hx. }
  rewrite split_on_app; [|by apply Hno|apply is_char_refl].
  eauto.
Qed.

Lemma anchor_line_starts entry :
  starts_with (txt "<ONLINE") (anchor_line entry) = false ∧
  starts_with (txt "<ANCHOR") (anchor_line entry) = true.
Proof. split; reflexivity. Qed.

Lemma assoc_dict_set_eq k v l : assoc k (dict_set k v l) = Some v.
Proof.
  unfold assoc. induction l as [|[k' v'] l IH]; simpl.
  - by rewrite decide_True.
  - case_decide as Hk; simpl.
    + by rewrite decide_True.
    + by rewrite decide_False.
Qed.

Lemma assoc_dict_set_ne k k' v l : k' ≠ k → assoc k' (dict_set k v l) = assoc k' l.
Proof.
  intros Hne. unfold assoc. induction l as [|[k2 v2] l IH]; simpl.
  - by rewrite decide_False.
  - case_decide as Hk; simpl.
    + subst. by rewrite !decide_False by done.
    + case_decide; [done|apply IH].
Qed.

Lemma assoc_app k (l1 l2 : list (text * text)) :
  assoc k (l1 ++ l2) = match assoc k l1 with Some v => Some v | None => assoc k l2 end.
Proof.
  unfold assoc. induction l1 as [|[k' v'] l1 IH]; simpl; [done|].
  case_decide; [done|apply IH].
Qed.

Lemma assoc_foldl_dict_set k entries : ∀ m,
  assoc k (foldl (λ m e, dict_set e.1 e.2 m) m entries)
  = match assoc k (reverse entries) with Some v => Some v | None => assoc k m end.
Proof.
  induction entries as [|[k' v'] entries IH]; intros m; simpl; [done|].
  rewrite IH, reverse_cons, assoc_app. destruct (assoc k (reverse entries)); [done|].
  unfold assoc at 2. simpl. case_decide as Hk.
  - subst. apply assoc_dict_set_eq.
  - by apply assoc_dict_set_ne.
Qed.

Lemma parse_anchor_lines entries : ∀ online_reference symbol_map,
  (∀ e, e ∈ entries → (DQ ∉ e.1) ∧ (DQ ∉ e.2)) →
  _parse_sgml_index_loop (anchor_line <$> entries) online_reference symbol_map
  = inr (online_reference, foldl (λ m e, dict_set e.1 e.2 m) symbol_map entries).
Proof.
  induction entries as [|e entries IH]; intros online_reference symbol_map He; [done|].
  rewrite fmap_cons. cbn [_parse_sgml_index_loop foldl].
  destruct (anchor_line_starts e) as [-> ->].
  destruct (He e) as [H1 H2]; [left|].
  destruct (split_anchor_line e H1 H2) as (rest & ->). cbv zeta. simpl lookup.
  apply IH. intros e' ?. apply He. by right.
Qed.

(** X21.  [_parse_sgml_index] reads back what the anchors of an index say:
    on lines that are anchors whose ids and targets hold no double quote, it
    returns, with no online reference, and what [symbol_map] binds an id to
    is the target of the last anchor of that id. *)
Theorem sgml_index_anchors (entries : list (text * text)) :
  (∀ e, e ∈ entries → (DQ ∉ e.1) ∧ (DQ ∉ e.2)) →
  ∃ symbol_map,
    _parse_sgml_index (anchor_line <$> entries) = inr (None, symbol_map) ∧
    ∀ id, assoc id symbol_map = assoc id (reverse entries).
Proof.
  intros He. eexists. split; [by apply parse_anchor_lines|].
  intros id. rewrite assoc_foldl_dict_set. by destruct (assoc id (reverse entries)).
Qed.

Lemma sgml_index_anchors_witness :
  ∃ symbol_map,
    _parse_sgml_index
      (anchor_line <$> [(txt "GtkWidget", txt "gtk3/GtkWidget.html");
                        (txt "gtk-widget-show", txt "gtk3/GtkWidget.html#show")])
    = inr (None, symbol_map) ∧
    ∀ id, assoc id symbol_map
          = assoc id (reverse [(txt "GtkWidget", txt "gtk3/GtkWidget.html");
                               (txt "gtk-widget-show", txt "gtk3/GtkWidget.html#show")]).
Proof.
  apply (sgml_index_anchors [(txt "GtkWidget", txt "gtk3/GtkWidget.html");
                             (txt "gtk-widget-show", txt "gtk3/GtkWidget.html#show")]).
  intros e He.
  repeat (apply elem_of_cons in He as [->|He];
          [split; vm_compute; intros H;
           repeat (apply elem_of_cons in H as [H|H]; [discriminate H|]);
           by apply elem_of_nil in H|]).
  by apply elem_of_nil in He.
Defined.

Lemma length_split_on (l : text) :
  length (split_on (is_char DQ) l) = S (length (filter (λ c, c = DQ) l)).
Proof.
  induction l as [|c l IH]; [done|]. simpl. rewrite filter_cons.
  destruct (is_char DQ c) eqn:Hc.
  - apply is_char_true in Hc as <-. rewrite decide_True by done. simpl. by rewrite IH.
  - rewrite decide_False; [|intros ->; by rewrite is_char_refl in Hc].
    destruct (split_on (is_char DQ) l); simpl in *; [lia|done].
Qed.

Lemma parse_error lines : ∀ online_reference symbol_map e,
  _parse_sgml_index_loop lines online_reference symbol_map = inl e → e = IndexError.
Proof.
  induction lines as [|l lines IH]; intros online_reference symbol_map e; simpl; [done|].
  repeat (match goal with
          | |- context [match ?x with _ => _ end] => destruct x
          end); try (by intros [= <-]); apply IH.
Qed.

(** X22.  An anchor that is cut short stops the whole index: when a line
    starts with [<ANCHOR] and has fewer than three double quotes,
    [_parse_sgml_index] raises [IndexError], whatever the other lines are. *)
Theorem sgml_index_malformed (before after : list text) (l : text) :
  starts_with (txt "<ANCHOR") l = true →
  (length (filter (λ c, c = DQ) l) < 3)%nat →
  _parse_sgml_index (before ++ l :: after) = inl IndexError.
Proof.
  intros Hanchor Hquotes. unfold _parse_sgml_index. generalize (@None text).
  generalize (@nil (text * text)).
  induction before as [|l' before IH]; intros symbol_map online_reference.
  - cbn [app _parse_sgml_index_loop]. rewrite Hanchor.
    assert (starts_with (txt "<ONLINE") l = false) as ->.
    { destruct l as [|c1 [|c2 l]]; simpl in *; [done|by rewrite andb_false_r in Hanchor|].
      destruct (is_char "<" c1); [|done]. simpl in *.
      destruct (is_char "A" c2) eqn:HA; [|done].
      apply is_char_true in HA as <-. done. }
    cbv zeta. rewrite (lookup_ge_None_2 _ 3); [done|].
    rewrite length_split_on. lia.
  - cbn [app _parse_sgml_index_loop].
    repeat (match goal with
            | |- context [match ?x with _ => _ end] => destruct x
            end); try done; apply IH.
Qed.

Lemma sgml_index_malformed_witness :
  _parse_sgml_index
    ([anchor_line (txt "a", txt "b")] ++ (txt "<ANCHOR id=" ++ [DQ] ++ txt "a>") :: [])
  = inl IndexError.
Proof.
  apply (sgml_index_malformed [anchor_line (txt "a", txt "b")] []
           (txt "<ANCHOR id=" ++ [DQ] ++ txt "a>")).
  - reflexivity.
  - vm_compute. lia.
Defined.

(** ** Names *)

Lemma lower_char_idem c : lower_char (lower_char c) = lower_char c.
Proof. destruct c as [[] [] [] [] [] [] [] []]; reflexivity. Qed.

(** X23.  [to_lower_camel_case] raises [IndexError] on the empty text and on
    no other; what it returns has the length of the text, differs from it in
    the first character at most, and is left as it is when converted
    again. *)
Theorem to_lower_camel_case_spec (s : text) :
  match to_lower_camel_case s with
  | inl e => e = IndexError ∧ s = []
  | inr r =>
      s ≠ [] ∧ length r = length s ∧ drop 1 r = drop 1 s
      ∧ to_lower_camel_case r = inr r
  end.
Proof.
  destruct s as [|c s]; simpl; [done|].
  split_and!; try done. by rewrite lower_char_idem.
Qed.

(** ** Constructors of boxed types *)

Lemma gboxed_loop_spec constructors : ∀ zero_args_constructor default_constructor,
  gboxed_loop constructors zero_args_constructor default_constructor
  = (match zero_args_constructor with
     | Some c => Some c
     | None =>
         head (List.filter (λ c, bool_decide (length (c_parameters c) = 0%nat))
                 constructors)
     end,
     match default_constructor with
     | Some c => Some c
     | None => head (List.filter (λ c, bool_decide (c_name c = txt "new")) constructors)
     end).
Proof.
  induction constructors as [|c constructors IH]; intros zero default; simpl.
  - by destruct zero, default.
  - rewrite IH. destruct zero, default; simpl;
      repeat (match goal with
              | |- context [bool_decide ?P] => destruct (bool_decide P)
              end); done.
Qed.

(** X24.  The default constructor of a boxed type is the first constructor
    called [new], or else the first without parameters, or else the first of
    all, among those that are introspectable; the zero-argument constructor
    is the first of them without parameters.  There is no default
    constructor exactly when no constructor is introspectable. *)
Theorem resolve_gboxed_constructor_spec (constructors : list constructor) :
  let candidates := List.filter introspectable constructors in
  let zero := head (List.filter (λ c, bool_decide (length (c_parameters c) = 0%nat))
                      candidates) in
  let default :=
    match head (List.filter (λ c, bool_decide (c_name c = txt "new")) candidates) with
    | Some c => Some c
    | None =>
        match zero with
        | Some c => Some c
        | None => head candidates
        end
    end in
  resolve_gboxed_constructor constructors = (default, zero)
  ∧ (default = None ↔ candidates = [])
  ∧ (∀ c, default = Some c → c ∈ constructors ∧ introspectable c = true).
Proof.
  intros candidates zero default. unfold resolve_gboxed_constructor.
  fold candidates. rewrite gboxed_loop_spec. fold zero.
  assert (Hsub : ∀ (f : constructor → bool) c, head (List.filter f candidates) = Some c →
            c ∈ candidates).
  { intros f c Hc. apply head_Some_elem_of, list_elem_of_In, filter_In in Hc as [Hc _].
    by apply list_elem_of_In. }
  assert (Hcand : ∀ c, c ∈ candidates → c ∈ constructors ∧ introspectable c = true).
  { intros c Hc. apply list_elem_of_In, filter_In in Hc as [Hc ?].
    by apply list_elem_of_In in Hc. }
  split_and!.
  - subst default.
    destruct (head (List.filter (λ c, bool_decide (c_name c = txt "new")) candidates));
      [done|].
    destruct zero; [done|]. destruct candidates; [done|].
    rewrite bool_decide_true; [done|simpl; lia].
  - subst default. split.
    + destruct (head (List.filter (λ c, bool_decide (c_name c = txt "new")) candidates));
        [done|].
      destruct zero; [done|]. by destruct candidates.
    + intros Hnil. subst zero. by rewrite Hnil.
  - intros c Hc. apply Hcand. subst default.
    destruct (head (List.filter (λ c, bool_decide (c_name c = txt "new")) candidates))
      eqn:Hnew.
    + injection Hc as <-. by eapply Hsub.
    + destruct zero eqn:Hzero.
      * injection Hc as <-. by eapply Hsub.
      * by apply head_Some_elem_of.
Qed.

(** ** Tokens and their handlers *)

Lemma docstring_kinds (s : text) (tok : token) :
  tok ∈ (scan docstring_regex s).1 →
  tok_kind tok ∈ "other" :: (filter (λ ns, startswith ns.1 "!" = false)
                               docstring_compiled).*1.
Proof.
  intros Hin.
  destruct (scan_loop_tokens _ s tok (S (length s)) 0 ltac:(lia) Hin) as [[-> _]|Hm];
    [left|].
  destruct Hm as (m & pos & props & Hpos & Hs & Hlg & _).
  destruct (search_spec _ _ _ _ Hpos Hs) as (st & _ & Hrun & _ & _ & Hl & _).
  rewrite Hl in Hlg. rewrite docstring_regex_eq in Hrun.
  destruct (make_regex_public _ (MState _ _ _ None) _ _ eq_refl Hrun Hlg)
    as (spec & Hspec & Hpub & _).
  right. apply list_elem_of_fmap. exists (tok_kind tok, spec). split; [done|].
  by apply list_elem_of_filter.
Qed.

(** X25.  Every token of the docstring scanner has its handler: the lookup
    of its kind in the dispatch table of [_process_token] finds one. *)
Theorem token_has_handler (self : formatter) (format_inline : node → text → M text)
    (s : text) (tok : token) :
  tok ∈ (scan docstring_regex s).1 →
  ∃ process,
    find_map (λ kh : string * handler,
                if decide (kh.1 = tok_kind tok) then Some kh.2 else None)
      (dispatch self format_inline) = Some process.
Proof.
  intros Hin%docstring_kinds.
  assert (Hkinds : "other" :: (filter (λ ns, startswith ns.1 "!" = false)
                                 docstring_compiled).*1
                   = ["other"; "note"; "new_paragraph"; "new_line";
                      "code_start_with_language"; "code_start"; "code_end";
                      "property"; "signal"; "type_name"; "enum_value"; "parameter";
                      "function_call"; "include"; "heading"]) by by vm_compute.
  rewrite Hkinds in Hin. clear Hkinds.
  unfold dispatch. cbn [find_map fst snd].
  repeat (apply elem_of_cons in Hin as [->|Hin];
          [repeat (rewrite decide_False by done); rewrite decide_True by done; eauto|]).
  by apply elem_of_nil in Hin.
Qed.

Lemma token_has_handler_witness :
  ∃ process,
    find_map (λ kh : string * handler,
                if decide (kh.1 = "new_line") then Some kh.2 else None)
      (dispatch (sample_formatter false) (λ _ _, ret [])) = Some process.
Proof.
  apply (token_has_handler (sample_formatter false) (λ _ _, ret []) [LF]
           (Token "new_line" [LF] (Some {[ "new_line" := Some [LF] ]}))).
  vm_compute. left.
Defined.

(** ** Headings without a title *)

Lemma count_hashes_fails (s : text) :
  (∃ e, count_hashes s = inl e) ↔ ∀ c, c ∈ s → c = "#"%char.
Proof.
  induction s as [|c s IH]; simpl.
  - split; [by intros _ c ?%elem_of_nil|eauto].
  - destruct (is_char "#" c) eqn:Hc.
    + apply is_char_true in Hc as <-. split.
      * intros [e He]. destruct (count_hashes s) as [e'|]; [|done].
        intros c [->|Hin]%elem_of_cons; [done|]. apply IH; eauto.
      * intros Hall. destruct (proj2 IH) as [e ->]; [|eauto].
        intros c ?. apply Hall. by right.
    + split; [by intros [? ?]|]. intros Hall.
      rewrite <- (Hall c) in Hc by left. by rewrite is_char_refl in Hc.
Qed.

(** X26.  Outside a code block, the handler of a heading raises exactly when
    the text of the token, the line feeds at its ends apart, is made of [#]
    only: reading the level of the heading runs off its end. *)
Theorem heading_raises (node : node) (match_ title : text)
    (props : gmap string (option text)) (st : fstate) :
  _processing_code st = false →
  props !! "heading" = Some (Some title) →
  (∃ e st', _process_heading node match_ (Some props) st = Raise e st') ↔
  (∀ c, c ∈ strip (is_char LF) match_ → c = "#"%char).
Proof.
  intros Hcode Htitle. rewrite <- count_hashes_fails.
  unfold _process_heading. unfold bind at 1. unfold gets. rewrite Hcode. cbv zeta.
  destruct (count_hashes (strip (is_char LF) match_)) as [e|n] eqn:Hn.
  - split; eauto.
  - split; [|by intros [? ?]]. intros (e & st' & He). exfalso. revert He.
    unfold lift, ret at 1, bind at 1.
    unfold bind at 1. rewrite close_down_to_run.
    unfold bind at 1. rewrite open_up_to_run.
    rewrite prop_bound with (v := title) by done. done.
Qed.

Lemma heading_raises_witness :
  let props : gmap string (option text) := {[ "heading" := Some [] ]} in
  (∃ e st', _process_heading widget (txt "##" ++ [LF]) (Some props) init_state
            = Raise e st') ↔
  (∀ c, c ∈ strip (is_char LF) (txt "##" ++ [LF]) → c = "#"%char).
Proof.
  intros props.
  apply (heading_raises widget (txt "##" ++ [LF]) [] props init_state).
  - reflexivity.
  - reflexivity.
Defined.

(** ** The exceptions of [format] *)

Lemma rw_ret P {A} (a : A) : raises_within P (ret a).
Proof. by intros st e st'. Qed.

Lemma rw_raise (P : exn → Prop) {A} e : P e → raises_within P (@raise A e).
Proof. intros He st e' st' [= <- _]. done. Qed.

Lemma rw_lift (P : exn → Prop) {A} (r : exn + A) :
  (∀ e, r = inl e → P e) → raises_within P (lift r).
Proof. destruct r as [e|a]; intros H; [apply rw_raise; auto|apply rw_ret]. Qed.

Lemma rw_gets P {A} (f : fstate → A) : raises_within P (gets f).
Proof. by intros st e st'. Qed.

Lemma rw_warn P msg : raises_within P (warn msg).
Proof. by intros st e st'. Qed.

Lemma rw_add_warned P name : raises_within P (add_warned name).
Proof. by intros st e st'. Qed.

Lemma rw_set_processing_code P b : raises_within P (set_processing_code b).
Proof. by intros st e st'. Qed.

Lemma rw_emit_section P ev : raises_within P (emit_section ev).
Proof. by intros st e st'. Qed.

Lemma rw_bind P {A B} (m : M A) (k : A → M B) :
  raises_within P m → (∀ a, raises_within P (k a)) → raises_within P (bind m k).
Proof.
  intros Hm Hk st e st'. unfold bind.
  destruct (m st) as [a st1|e1 st1] eqn:Hmst.
  - apply Hk.
  - intros [= <- <-]. by eapply Hm.
Qed.

Lemma rw_mapM P {A B} (f : A → M B) (l : list A) :
  (∀ a, a ∈ l → raises_within P (f a)) → raises_within P (mapM f l).
Proof.
  induction l as [|a l IH]; intros H; simpl; [apply rw_ret|].
  apply rw_bind; [apply H; left|]. intros b.
  apply rw_bind; [|intros; apply rw_ret].
  apply IH. intros a' ?. apply H. by right.
Qed.

Lemma rw_section_loop P cond ev : ∀ n result,
  raises_within P (section_loop n cond ev result).
Proof.
  induction n as [|n IH]; intros result; cbn [section_loop]; [apply rw_ret|].
  apply rw_bind; [apply rw_gets|]. intros opened.
  destruct (cond opened); [|apply rw_ret].
  apply rw_bind; [apply rw_emit_section|]. intros _. apply IH.
Qed.

(** What the pure functions that the formatter calls raise. *)
Lemma make_page_id_error : ∀ n recursive e,
  make_page_id recursive n = inl e → e = AttributeError.
Proof.
  assert (Hd : ∀ sep a b e, (∀ e, a = inl e → e = AttributeError) →
            dotted sep a b = inl e → e = AttributeError).
  { intros sep [e'|a] b e Ha; simpl; [|done]. intros [= <-]. by apply Ha. }
  assert (Hn : ∀ ns e, namespace_name ns = inl e → e = AttributeError).
  { intros [| |ns] e; simpl; congruence. }
  fix IH 1. intros [cls name ns parent cl sh pr sg] recursive e.
  cbn [make_page_id]. case_decide; [by destruct recursive|].
  destruct cl as [p|]; [|destruct parent as [p|]].
  - case_decide; [apply Hd, IH|].
    destruct (if decide (cls = Function) then nonempty sh else None); apply Hd, IH.
  - case_decide; [apply Hd, IH|].
    destruct (if decide (cls = Function) then nonempty sh else None); apply Hd, IH.
  - destruct (if decide (cls = Function) then nonempty sh else None); apply Hd, Hn.
Qed.

Lemma after_first_error sep s e : after_first sep s = inl e → e = IndexError.
Proof.
  induction s as [|c s IH]; simpl; [congruence|]. by destruct (is_char sep c).
Qed.

Lemma count_hashes_error s e : count_hashes s = inl e → e = IndexError.
Proof.
  revert e. induction s as [|c s IH]; intros e; simpl; [congruence|].
  destruct (is_char "#" c); [|done].
  destruct (count_hashes s) as [e'|]; [|done]. intros [= <-]. by apply IH.
Qed.

Lemma _resolve_symbol_error self symbol e :
  _resolve_symbol self symbol = inl e → e = UnboundLocalError.
Proof.
  unfold _resolve_symbol.
  destruct (split_csymbol_namespaces _ _) as [matches|]; [|done].
  destruct (find_map _ matches); [done|]. destruct matches; [congruence|done].
Qed.

Create HintDb rw discriminated.

#[local] Hint Resolve rw_ret rw_gets rw_warn rw_add_warned rw_set_processing_code
  rw_emit_section rw_section_loop : rw.

Ltac rw_step :=
  first
    [ solve [auto with rw nocore]
    | apply rw_raise; assumption
    | apply rw_bind; [|intros ?]
    | progress cbv zeta
    | progress unfold with_namespace
    | match goal with
      | |- raises_within _ (match ?x with _ => _ end) => destruct x
      end ].

Ltac rw_auto := repeat rw_step.

Section Raises.

Context (self : formatter) (P : exn → Prop).
Context (HA : P AttributeError) (HI : P IndexError) (HU : P UnboundLocalError).

Lemma rw_make_page_id recursive n : raises_within P (lift (make_page_id recursive n)).
Proof. apply rw_lift. intros e He. by apply make_page_id_error in He as ->. Qed.

Lemma rw_after_first sep s : raises_within P (lift (after_first sep s)).
Proof. apply rw_lift. intros e He. by apply after_first_error in He as ->. Qed.

Lemma rw_count_hashes s : raises_within P (lift (count_hashes s)).
Proof. apply rw_lift. intros e He. by apply count_hashes_error in He as ->. Qed.

Lemma rw_resolve_symbol symbol : raises_within P (lift (_resolve_symbol self symbol)).
Proof. apply rw_lift. intros e He. by apply _resolve_symbol_error in He as ->. Qed.

#[local] Hint Resolve rw_make_page_id rw_after_first rw_count_hashes
  rw_resolve_symbol : rw.

Lemma rw_format_internal_xref n ad ln pl :
  raises_within P (format_internal_xref self n ad ln pl).
Proof. unfold format_internal_xref. rw_auto. Qed.

Lemma rw_format_gtk_doc_attributes n ad :
  raises_within P (format_gtk_doc_attributes self n ad).
Proof. unfold format_gtk_doc_attributes. rw_auto. Qed.

#[local] Hint Resolve rw_format_internal_xref rw_format_gtk_doc_attributes : rw.

Lemma rw_format_external_xref n ad ln pl :
  raises_within P (format_external_xref self n ad ln pl).
Proof. unfold format_external_xref. rw_auto. Qed.

#[local] Hint Resolve rw_format_external_xref : rw.

Lemma rw_format_xref_node : ∀ n pl ln ad,
  raises_within P (format_xref_node self n pl ln ad).
Proof.
  fix IH 1. intros [cls name ns parent cl sh pr sg] pl ln ad.
  cbn [format_xref_node]. rw_auto.
Qed.

#[local] Hint Resolve rw_format_xref_node : rw.

Lemma rw_format_xref n pl ln ad : raises_within P (format_xref self n pl ln ad).
Proof. unfold format_xref. rw_auto. Qed.

#[local] Hint Resolve rw_format_xref : rw.

Lemma rw_collect_links s : ∀ acc, raises_within P (collect_links self s acc).
Proof.
  induction s as [|w s IH]; intros acc; cbn [collect_links]; rw_auto.
Qed.

#[local] Hint Resolve rw_collect_links : rw.

Lemma rw_resolve_implicit_links match_ :
  raises_within P (_resolve_implicit_links self match_).
Proof. unfold _resolve_implicit_links. rw_auto. Qed.

#[local] Hint Resolve rw_resolve_implicit_links : rw.

(** A handler whose token binds what it reads raises no [TypeError]; it
    raises a [KeyError] only for a kind without handler or for a language
    that is not known. *)
Lemma rw_process_token format_inline node tok :
  (∀ key, key ∈ handler_reads (tok_kind tok) →
     ∃ props v, tok_props tok = Some props ∧ props !! key = Some (Some v)) →
  (P KeyError ∨
   tok_kind tok ∈ (dispatch self format_inline).*1 ∧ known_language tok) →
  (tok_kind tok = "include" →
   (∀ node para, raises_within P (format_inline node para)) ∧
   (∀ path e, read_file self path = OpenError e → P e)) →
  raises_within P (_process_token self format_inline node tok).
Proof.
  intros Hreads Hkey Hrec. unfold _process_token.
  assert (Hprop : ∀ key none, key ∈ handler_reads (tok_kind tok) →
            raises_within P (prop (tok_props tok) key none)).
  { intros key none (d & v & -> & Hv)%Hreads. rewrite (prop_bound _ _ _ _ Hv).
    apply rw_ret. }
  destruct (find_map _ (dispatch self format_inline)) as [process|] eqn:Hfind.
  2: { destruct Hkey as [?|[Hin _]]; [by apply rw_raise|]. exfalso.
       revert Hfind Hin. unfold dispatch. cbn [find_map fst snd fmap list_fmap].
       repeat (case_decide; [done|]). intros _ Hin.
       repeat (apply elem_of_cons in Hin as [?|Hin]; [congruence|]).
       by apply elem_of_nil in Hin. }
  revert Hfind. unfold dispatch. cbn [find_map fst snd].
  repeat (case_decide as Hkind; [intros [= <-]|clear Hkind]); [..|done].
  13: { destruct (Hrec (eq_sym Hkind)) as [Hrec' Hopen]. unfold _process_include.
        apply rw_bind; [apply Hprop; rewrite <- Hkind; left|]. intros include_name.
        cbv zeta. apply rw_bind.
        - destruct (read_file self _) as [contents| |e] eqn:He; [apply rw_ret..|].
          apply rw_raise. by eapply Hopen.
        - intros [contents|]; repeat first [rw_step | apply Hrec']. }
  9: { unfold _process_code_start_with_language.
       destruct (Hreads "language_name") as (d & v & Hd & Hv);
         [rewrite <- Hkind; by left|].
       rewrite Hd, (prop_bound _ _ _ _ Hv). unfold bind at 1. unfold ret at 1.
       destruct (language_mimes !! _) as [mime|] eqn:Hmime; [rw_auto|].
       destruct Hkey as [?|[_ Hknown]]; [by apply rw_raise|].
       destruct (Hknown (eq_sym Hkind) d v Hd Hv) as [? ?]. congruence. }
  all: rewrite <- Hkind in Hprop.
  all: clear Hreads Hkind Hkey Hrec.
  all: unfold _process_other, _process_property, _process_signal, _process_type_name,
         _process_enum_value, _process_parameter, _process_function_call,
         _process_code_start, _process_code_end,
         _process_new_line, _process_new_paragraph, _process_note,
         _process_heading, close_down_to, open_up_to.
  all: repeat first
         [ rw_step
         | apply Hprop; unfold handler_reads; simpl; repeat first [left | right] ].
Qed.

Lemma rw_close_all result : raises_within P (close_all result).
Proof. unfold close_all. rw_auto. Qed.

End Raises.






Lemma docstring_kinds_handled (self : formatter)
    (format_inline : node → text → M text) (s : text) (tok : token) :
  tok ∈ (scan docstring_regex s).1 →
  tok_kind tok ∈ (dispatch self format_inline).*1.
Proof.
  intros Hin%docstring_kinds.
  assert (Hkinds : "other" :: (filter (λ ns, startswith ns.1 "!" = false)
                                 docstring_compiled).*1
                   = ["other"; "note"; "new_paragraph"; "new_line";
                      "code_start_with_language"; "code_start"; "code_end";
                      "property"; "signal"; "type_name"; "enum_value"; "parameter";
                      "function_call"; "include"; "heading"]) by by vm_compute.
  rewrite Hkinds in Hin. clear Hkinds.
  unfold dispatch. cbn [fmap list_fmap fst].
  repeat (apply elem_of_cons in Hin as [->|Hin];
          [apply list_elem_of_In; simpl; tauto|]).
  by apply elem_of_nil in Hin.
Qed.

(** X28.  A [KeyError] comes from a language that is not known, and a
    [RuntimeError] from the files included: when the document has no include
    and the code blocks it starts name known languages, [format] returns or
    raises one of [IndexError], [AttributeError] and [UnboundLocalError]. *)
Theorem format_flat_raises (self : formatter) (depth : nat) (node : node)
    (doc : text) (st st' : fstate) (e : exn) :
  (∀ tok, tok ∈ (scan docstring_regex doc).1 →
          tok_kind tok ≠ "include" ∧ known_language tok) →
  format self (S depth) node (Some doc) st = Raise e st' →
  e ∈ flat_errors.
Proof.
  intros Htoks. revert st e st'.
  change (raises_within (λ e, e ∈ flat_errors) (format self (S depth) node (Some doc))).
  assert (HA : AttributeError ∈ flat_errors) by (right; left).
  assert (HI : IndexError ∈ flat_errors) by left.
  assert (HU : UnboundLocalError ∈ flat_errors) by (right; right; left).
  assert (Hinline : raises_within (λ e, e ∈ flat_errors)
                      (format_inline self (S depth) node doc)).
  { cbn [format_inline].
    destruct (scan_loop_lossless docstring_regex doc docstring_scannable
                (S (length doc)) 0) as (toks & Hscan & _); [lia|lia|].
    fold (scan docstring_regex doc) in Hscan.
    pose proof (token_reads_bound doc) as Hreads.
    pose proof (docstring_kinds_handled self (format_inline self depth) doc) as Hkinds.
    rewrite Hscan in *.
    apply rw_bind; [|intros; rw_auto].
    apply rw_mapM. intros tok Hin. destruct (Htoks tok Hin) as [Hinc Hknown].
    apply rw_process_token; try done.
    - intros key. by apply Hreads.
    - right. split; [|done]. by apply Hkinds. }
  unfold format. pose proof (rw_close_all (λ e, e ∈ flat_errors)). rw_auto.
Qed.

Lemma format_flat_raises_witness : IndexError ∈ flat_errors.
Proof.
  apply (format_flat_raises (sample_formatter false) 0 widget (txt "#" ++ [LF])
           init_state init_state IndexError).
  - intros tok Hin. vm_compute in Hin.
    apply list_elem_of_singleton in Hin as ->. split; [discriminate|].
    intros Hkind. discriminate Hkind.
  - reflexivity.
Defined.

(** ** The text between two matches *)

Lemma scan_loop_others_apart regex s : ∀ fuel pos,
  others_apart (scan_loop fuel regex s pos).1.
Proof.
  induction fuel as [|fuel IH]; intros pos; simpl; [done|].
  destruct (search regex s pos) as [m|]; simpl.
  - destruct (m_lastgroup m) as [name|]; simpl; [|by case_decide].
    destruct (get_properties name _) as [e|props]; simpl; [by case_decide|].
    specialize (IH (m_end m)).
    destruct (scan_loop fuel regex s (m_end m)) as [rest fin]. simpl in *.
    assert (Hm : others_apart (Token name (slice (m_start m) (m_end m) s) (Some props)
                                 :: rest)).
    { destruct rest; [done|]. split; [done|]. done. }
    case_decide; [|done]. split; [done|]. exact Hm.
  - by case_decide.
Qed.

(** X29.  The text between two matches is one token: of two tokens that
    [scan] yields in a row, one at least stands for a match. *)
Theorem scan_others_apart (regex : pattern) (s : text) (i : nat) (t1 t2 : token) :
  (scan regex s).1 !! i = Some t1 →
  (scan regex s).1 !! S i = Some t2 →
  tok_props t1 = None → tok_props t2 ≠ None.
Proof.
  pose proof (scan_loop_others_apart regex s (S (length s)) 0) as H.
  fold (scan regex s) in H. revert i H.
  induction (scan regex s).1 as [|a l IH]; intros i H H1 H2; [done|].
  destruct l as [|b l]; [done|]. destruct H as [Hab Hl].
  destruct i as [|i]; simpl in *.
  - injection H1 as <-. injection H2 as <-. done.
  - by apply (IH i).
Qed.

Lemma scan_others_apart_witness :
  tok_props (Token "new_line" [LF] (Some {[ "new_line" := Some [LF] ]})) ≠ None.
Proof.
  apply (scan_others_apart docstring_regex (txt "a" ++ [LF]) 0
           (Token "other" (txt "a") None)).
  - vm_compute. reflexivity.
  - vm_compute. reflexivity.
  - reflexivity.
Defined.
